(** * Accessibility agent: page model extraction and navigation resolution

    A shallow embedding of [agent.py] (class [AccessibilityAgent]) and the
    properties its specification states about it.

    Conventions.
    - A Python [str] is a list of characters; a character is a code point
      below 256, carried by [ascii].  [str.lower], [str.split] and
      [str.strip] are given on that range as the interpreter defines them.
    - A Python [dict] is an association list in insertion order.
    - A Python [set] is a duplicate-free list.
    - A Python [float] is an IEEE 754 binary64 number, as [SpecFloat]
      specifies them; the division of two ints gives the float nearest to
      the quotient, and floats are compared as the interpreter compares
      them.
    - The browser driver, the chat channel and the language model are
      outside the program: they are the fields of the class [Env]. *)

From Stdlib Require Import String Ascii List Bool Arith Lia ZArith.
From Stdlib Require DecimalString.
From Stdlib Require Floats.SpecFloat.
Import ListNotations.

Set Implicit Arguments.

(** ** Strings *)

Definition str := list ascii.

Definition s2l (s : string) : str := list_ascii_of_string s.
Coercion s2l : string >-> str.

Definition str_eq_dec : forall a b : str, {a = b} + {a <> b} :=
  list_eq_dec ascii_dec.

Definition str_eqb (a b : str) : bool :=
  if str_eq_dec a b then true else false.

Definition between (lo hi n : nat) : bool := (lo <=? n) && (n <=? hi).

(** [str.isspace] on one character. *)
Definition isspace (c : ascii) : bool :=
  let n := nat_of_ascii c in
  between 9 13 n || between 28 32 n || (n =? 133) || (n =? 160).

(** [str.lower] on one character. *)
Definition lower_char (c : ascii) : ascii :=
  let n := nat_of_ascii c in
  if between 65 90 n || (between 192 222 n && negb (n =? 215))
  then ascii_of_nat (n + 32) else c.

(** [text.lower()] *)
Definition lower (text : str) : str := map lower_char text.

Definition flush (cur : str) (acc : list str) : list str :=
  match cur with
  | [] => acc
  | _ => rev cur :: acc
  end.

(** The scan of [str.split()] without arguments; [cur] is the word being
    read, last character first. *)
Fixpoint split_from (cur : str) (s : str) : list str :=
  match s with
  | [] => flush cur []
  | c :: s' =>
      if isspace c then flush cur (split_from [] s')
      else split_from (c :: cur) s'
  end.

(** [text.split()] *)
Definition split (text : str) : list str := split_from [] text.

(** [sep.join(parts)] *)
Fixpoint join (sep : str) (parts : list str) : str :=
  match parts with
  | [] => []
  | [w] => w
  | w :: rest => w ++ sep ++ join sep rest
  end.

Definition space : str := [" "%char].

(** [normalize_text]: [' '.join(text.lower().split())] *)
Definition normalize_text (text : str) : str :=
  join space (split (lower text)).

(** A word: not empty, no whitespace in it. *)
Definition word (w : str) : Prop :=
  w <> [] /\ forallb (fun c => negb (isspace c)) w = true.

(** No whitespace at either end, and every whitespace character is one
    space between two other characters. *)
Fixpoint tidy_from (after_space : bool) (s : str) : bool :=
  match s with
  | [] => negb after_space
  | c :: s' =>
      if isspace c
      then negb after_space && Ascii.eqb c " " && tidy_from true s'
      else tidy_from false s'
  end.

Definition tidy (s : str) : bool :=
  match s with
  | [] => true
  | _ => tidy_from true s
  end.

(** [s.startswith(prefix)] *)
Fixpoint startswith (s prefix : str) : bool :=
  match prefix, s with
  | [], _ => true
  | p :: prefix', c :: s' => Ascii.eqb p c && startswith s' prefix'
  | _ :: _, [] => false
  end.

(** [needle in hay] *)
Fixpoint str_in (needle hay : str) : bool :=
  startswith hay needle ||
  match hay with
  | [] => false
  | _ :: hay' => str_in needle hay'
  end.

Fixpoint lstrip (s : str) : str :=
  match s with
  | [] => []
  | c :: s' => if isspace c then lstrip s' else s
  end.

Definition rstrip (s : str) : str := rev (lstrip (rev s)).

(** [s.strip()] *)
Definition strip (s : str) : str := rstrip (lstrip s).

(** ** Text matcher *)

(** [set(words)] *)
Definition set_of (words : list str) : list str := nodup str_eq_dec words.

(** [a & b] *)
Definition inter (a b : list str) : list str :=
  filter (fun w => existsb (str_eqb w) b) a.

(** *** Floats

    [S754_finite s m e] is the number [m * 2^e], negated when [s] is set;
    the floats of the interpreter are those [SpecFloat.valid_binary]
    accepts. *)

Definition float : Type := SpecFloat.spec_float.

Definition prec : Z := 53.
Definition emax : Z := 1024.

(** [0], the best score before any candidate, and the literals [1.0],
    [0.5] and [0.1]. *)
Definition float_zero : float := SpecFloat.S754_zero false.
Definition float_one : float :=
  SpecFloat.S754_finite false 4503599627370496 (-52).
Definition float_half : float :=
  SpecFloat.S754_finite false 4503599627370496 (-53).
Definition float_tenth : float :=
  SpecFloat.S754_finite false 7205759403792794 (-56).

(** An int that is not negative, as the operand of a division. *)
Definition operand (n : nat) : float :=
  match n with
  | O => SpecFloat.S754_zero false
  | S _ => SpecFloat.S754_finite false (Pos.of_nat n) 0
  end.

(** [a / b] for two ints that are not negative, [b] not zero: the float
    nearest to the quotient, ties to the even one. *)
Definition truediv (a b : nat) : float :=
  SpecFloat.SFdiv prec emax (operand a) (operand b).

(** [a < b] and [a <= b]; both are false when one side is not a number. *)
Definition float_lt (a b : float) : bool := SpecFloat.SFltb a b.
Definition float_le (a b : float) : bool := SpecFloat.SFleb a b.

(** [len(target_words & candidate_words) / len(target_words)], for target
    words that are not empty *)
Definition overlap_ratio (target_words candidate_words : list str) : float :=
  truediv (length (inter target_words candidate_words)) (length target_words).

(** The [for candidate in candidates] loop of [find_best_match]; [target]
    is already normalized. *)
Fixpoint best_match_loop (target : str) (threshold : float)
    (candidates : list str) (best_match : option str) (best_score : float)
    : option str * float :=
  match candidates with
  | [] => (best_match, best_score)
  | candidate :: rest =>
      let candidate_text := normalize_text candidate in
      if str_eqb target candidate_text then (Some candidate, float_one)
      else
        let target_words := set_of (split target) in
        let candidate_words := set_of (split candidate_text) in
        match target_words with
        | [] => best_match_loop target threshold rest best_match best_score
        | _ :: _ =>
            let overlap := overlap_ratio target_words candidate_words in
            if float_lt best_score overlap && float_le threshold overlap
            then best_match_loop target threshold rest (Some candidate) overlap
            else best_match_loop target threshold rest best_match best_score
        end
  end.

(** [find_best_match]; the threshold is a float. *)
Definition find_best_match (target : str) (candidates : list str)
    (threshold : float) : option str * float :=
  best_match_loop (normalize_text target) threshold candidates None float_zero.

(** ** What the specification says of [find_best_match]

    [score] is the word-overlap ratio of a candidate, as the float the
    code holds; [exact] says that a candidate equals the target once both
    are normalized.  [reaches] stands for the candidate's score reaching
    the threshold.  Scores are compared as floats. *)

Definition target_words_of (target : str) : list str :=
  set_of (split (normalize_text target)).

Definition score (target candidate : str) : float :=
  overlap_ratio (target_words_of target)
    (set_of (split (normalize_text candidate))).

Definition exact (target candidate : str) : Prop :=
  normalize_text target = normalize_text candidate.

Definition best_match_spec (reaches : float -> Prop) (target : str)
    (candidates : list str) (result : option str * float) : Prop :=
  (forall l1 c l2,
     candidates = l1 ++ c :: l2 ->
     exact target c ->
     (forall x, In x l1 -> ~ exact target x) ->
     result = (Some c, float_one)) /\
  ((forall x, In x candidates -> ~ exact target x) ->
   (forall l1 c l2,
      target_words_of target <> [] ->
      candidates = l1 ++ c :: l2 ->
      reaches (score target c) ->
      (forall x, In x l1 ->
         float_lt (score target x) (score target c) = true) ->
      (forall x, In x l2 ->
         float_le (score target x) (score target c) = true) ->
      result = (Some c, score target c)) /\
   (target_words_of target = [] \/
    (forall x, In x candidates -> ~ reaches (score target x)) ->
    result = (None, float_zero))).

(** The threshold as the specification reads it, and as the loop applies
    it: a score must also exceed the initial best score, zero. *)
Definition at_or_above (threshold : float) (s : float) : Prop :=
  float_le threshold s = true.

Definition at_or_above_and_positive (threshold : float) (s : float) : Prop :=
  float_le threshold s = true /\ float_lt float_zero s = true.

(** ** Regular expressions

    The fragment of [re] the command patterns are written in, matched the
    way the backtracking engine does: alternatives left to right, [?]
    greedy, [+?] lazy. *)

Inductive cset : Type :=
| COneOf (cs : list ascii)
| CNoneOf (cs : list ascii)
| CSpace.

Definition cset_mem (k : cset) (x : ascii) : bool :=
  match k with
  | COneOf cs => existsb (Ascii.eqb x) cs
  | CNoneOf cs => negb (existsb (Ascii.eqb x) cs)
  | CSpace => isspace x
  end.

Inductive regex : Type :=
| Lit (l : str)
| Chr (k : cset)
| Seq (r1 r2 : regex)
| Alt (r1 r2 : regex)
| Opt (r : regex)
| PlusLazy (k : cset)
| Eos.

Fixpoint drop_prefix (l s : str) : option str :=
  match l, s with
  | [], _ => Some s
  | a :: l', b :: s' => if Ascii.eqb a b then drop_prefix l' s' else None
  | _ :: _, [] => None
  end.

Definition or_else (A : Type) (a : option A) (b : option A) : option A :=
  match a with
  | Some v => Some v
  | None => b
  end.

Fixpoint plus_lazy (A : Type) (k : cset) (s : str) (cont : str -> option A)
    : option A :=
  match s with
  | [] => None
  | x :: s' =>
      if cset_mem k x then or_else (cont s') (plus_lazy k s' cont) else None
  end.

(** [rmatch r s cont]: the first way, in the engine's order, to match [r]
    at the head of [s] such that [cont] accepts what is left. *)
Fixpoint rmatch (A : Type) (r : regex) (s : str) (cont : str -> option A)
    : option A :=
  match r with
  | Lit l =>
      match drop_prefix l s with
      | Some s' => cont s'
      | None => None
      end
  | Chr k =>
      match s with
      | x :: s' => if cset_mem k x then cont s' else None
      | [] => None
      end
  | Seq r1 r2 => rmatch r1 s (fun s' => rmatch r2 s' cont)
  | Alt r1 r2 => or_else (rmatch r1 s cont) (rmatch r2 s cont)
  | Opt r1 => or_else (rmatch r1 s cont) (cont s)
  | PlusLazy k => plus_lazy k s cont
  | Eos =>
      match s with
      | [] => cont s
      | [x] => if Ascii.eqb x "010" then cont s else None
      | _ => None
      end
  end.

(** A pattern with one capturing group: [before(captured)after]. *)
Record pattern : Type := {
  before : regex;
  captured : regex;
  after : regex
}.

(** [re.match(p, s)] then [.group(1)] *)
Definition match_here (p : pattern) (s : str) : option str :=
  rmatch (before p) s (fun s1 =>
  rmatch (captured p) s1 (fun s2 =>
  rmatch (after p) s2 (fun _ =>
  Some (firstn (length s1 - length s2) s1)))).

(** [re.search(p, s)] then [.group(1)] *)
Fixpoint search (p : pattern) (s : str) : option str :=
  or_else (match_here p s)
    match s with
    | [] => None
    | _ :: s' => search p s'
    end.

(** ** Command classifier *)

Inductive command : Type :=
| Back
| DescribeImages
| Summarize
| Section_ (target original_text : str)
| Navigation (target original_text : str)
| Unknown (original_text : str).

Definition back_phrases : list str :=
  ["back" : str; "previous page" : str; "go back" : str; "return" : str]%string.

Definition special_commands : list (command * list str) :=
  [ (Back, back_phrases);
    (DescribeImages,
     ["describe image" : str; "show image" : str; "what is in the image" : str]);
    (Summarize,
     ["summarize" : str; "summary" : str; "summarize this" : str;
      "summarize page" : str; "can you summarize" : str]) ]%string.

Fixpoint alts (rs : list regex) : regex :=
  match rs with
  | [] => Lit []
  | [r] => r
  | r :: rest => Alt r (alts rest)
  end.

Fixpoint seqs (rs : list regex) : regex :=
  match rs with
  | [] => Lit []
  | [r] => r
  | r :: rest => Seq r (seqs rest)
  end.

Definition words_alt (ws : list string) : regex := alts (map (fun w => Lit (s2l w)) ws).

Definition dquote : ascii := "034".
Definition squote : ascii := "039".

(** The optional quote mark before and after the group. *)
Definition quote_opt : regex := Opt (Chr (COneOf [dquote; squote])).

(** The group of every pattern: one or more characters other than a quote
    mark, as few as possible. *)
Definition bare : regex := PlusLazy (CNoneOf [dquote; squote]).

Definition opt_word (w : string) : regex := Opt (Lit (s2l w)).

(** A whitespace character or the end of the input. *)
Definition space_or_end : regex := Alt (Chr CSpace) Eos.

Definition section_tail : regex := Seq quote_opt (Lit (s2l " section")).

Definition section_patterns : list pattern :=
  [ {| before := seqs [opt_word "can you ";
                       words_alt ["go"; "show"; "navigate"; "take"];
                       Lit (s2l " "); opt_word "me "; opt_word "to ";
                       opt_word "the "; quote_opt];
       captured := bare;
       after := section_tail |};
    {| before := seqs [words_alt ["show"; "display"; "read"; "view"; "open"];
                       Lit (s2l " "); opt_word "the "; quote_opt];
       captured := bare;
       after := section_tail |};
    {| before := quote_opt;
       captured := bare;
       after := section_tail |} ]%string.

Definition navigation_patterns : list pattern :=
  [ {| before := seqs [opt_word "can you ";
                       words_alt ["go"; "navigate"; "take"];
                       Lit (s2l " "); opt_word "me "; opt_word "to ";
                       opt_word "the "; quote_opt];
       captured := bare;
       after := Seq quote_opt space_or_end |};
    {| before := seqs [words_alt ["show"; "display"; "open"];
                       Lit (s2l " "); opt_word "the "; quote_opt];
       captured := bare;
       after := Seq quote_opt space_or_end |};
    {| before := seqs [words_alt ["click"; "select"; "choose"];
                       Lit (s2l " "); opt_word "on "; opt_word "the ";
                       quote_opt];
       captured := bare;
       after := Seq quote_opt space_or_end |} ]%string.

(** [for cmd_type, phrases in special_commands.items()] *)
Fixpoint first_special (cmds : list (command * list str)) (input_lower : str)
    : option command :=
  match cmds with
  | [] => None
  | (cmd, phrases) :: rest =>
      if existsb (fun phrase => str_in phrase input_lower) phrases
      then Some cmd
      else first_special rest input_lower
  end.

(** [for pattern in patterns: match = re.search(pattern, input_lower)] *)
Fixpoint first_match (patterns : list pattern) (input_lower : str)
    : option str :=
  match patterns with
  | [] => None
  | p :: rest => or_else (search p input_lower) (first_match rest input_lower)
  end.

Definition parse_user_command (user_input : str) : command :=
  let input_lower := normalize_text user_input in
  match first_special special_commands input_lower with
  | Some cmd => cmd
  | None =>
      match first_match section_patterns input_lower with
      | Some g =>
          let section_name := strip g in Section_ section_name section_name
      | None =>
          match first_match navigation_patterns input_lower with
          | Some g => let target := strip g in Navigation target target
          | None => Unknown user_input
          end
      end
  end.

(** ** Exceptions *)

Inductive exn : Type :=
| KeyError
| IndexError
| ValueError
| AttributeError
| External (what : str).

Inductive res (A : Type) : Type :=
| Ok (a : A)
| Raise (e : exn).

Arguments Ok {A} a.
Arguments Raise {A} e.

Definition res_bind (A B : Type) (r : res A) (f : A -> res B) : res B :=
  match r with
  | Ok a => f a
  | Raise e => Raise e
  end.

Notation "'let?' x ':=' r 'in' k" := (res_bind r (fun x => k))
  (at level 10, x pattern, r at level 100, k at level 200).

(** [for x in xs: state = body(x, state)], stopping at the first exception. *)
Fixpoint for_each (X S : Type) (xs : list X) (body : X -> S -> res S) (s : S)
    : res S :=
  match xs with
  | [] => Ok s
  | x :: rest => let? s' := body x s in for_each rest body s'
  end.

(** ** The parsed document (BeautifulSoup)

    A tree of tags and text nodes; tag names are in lower case, as the
    parser leaves them.  The document itself is the tag [[document]]. *)

#[local] Unset Elimination Schemes.
Inductive node : Type :=
| NavigableString (text : str)
| Tag (name : str) (attrs : list (str * str)) (contents : list node).
#[local] Set Elimination Schemes.

(** [tag.name] *)
Definition tag_name (n : node) : str :=
  match n with
  | NavigableString _ => []
  | Tag name _ _ => name
  end.

(** [tag.get(key, '')] *)
Fixpoint attr_get (key : str) (attrs : list (str * str)) : str :=
  match attrs with
  | [] => []
  | (k, v) :: rest => if str_eqb key k then v else attr_get key rest
  end.

Definition tag_get (n : node) (key : str) : str :=
  match n with
  | NavigableString _ => []
  | Tag _ attrs _ => attr_get key attrs
  end.

(** [tag.descendants]: everything below the tag, in document order. *)
Fixpoint descendants (n : node) : list node :=
  match n with
  | NavigableString _ => []
  | Tag _ _ contents => flat_map (fun c => c :: descendants c) contents
  end.

(** The descendants, each with its ancestors, nearest first. *)
Fixpoint walk (up : list node) (n : node) : list (node * list node) :=
  match n with
  | NavigableString _ => []
  | Tag _ _ contents =>
      flat_map (fun c => (c, n :: up) :: walk (n :: up) c) contents
  end.

(** Is [n] a tag with one of these names? *)
Definition named (names : list str) (n : node) : bool :=
  match n with
  | NavigableString _ => false
  | Tag name _ _ => existsb (str_eqb name) names
  end.

(** [tag.find_all(names)] *)
Definition find_all (names : list str) (n : node) : list node :=
  filter (named names) (descendants n).

Definition find_all_with_parents (names : list str) (n : node)
    : list (node * list node) :=
  filter (fun p => named names (fst p)) (walk [] n).

(** The text nodes below, in document order. *)
Fixpoint all_strings (n : node) : list str :=
  match n with
  | NavigableString text => [text]
  | Tag _ _ contents => flat_map all_strings contents
  end.

(** [tag.text] *)
Definition get_text (n : node) : str := concat (all_strings n).

Definition nonempty (s : str) : bool :=
  match s with
  | [] => false
  | _ :: _ => true
  end.

(** [tag.stripped_strings] *)
Definition stripped_strings (n : node) : list str :=
  filter nonempty (map strip (all_strings n)).

(** [a == b] on nodes: same name, same attributes, same contents. *)
Definition attr_eqb (a b : str * str) : bool :=
  str_eqb (fst a) (fst b) && str_eqb (snd a) (snd b).

Definition attrs_eqb (a b : list (str * str)) : bool :=
  (length a =? length b)%nat && forallb (fun kv => existsb (attr_eqb kv) b) a.

Fixpoint node_eqb (a b : node) : bool :=
  match a, b with
  | NavigableString s, NavigableString t => str_eqb s t
  | Tag n1 a1 c1, Tag n2 a2 c2 =>
      str_eqb n1 n2 && attrs_eqb a1 a2 &&
      (fix all2 (xs ys : list node) : bool :=
         match xs, ys with
         | [], [] => true
         | x :: xs', y :: ys' => node_eqb x y && all2 xs' ys'
         | _, _ => false
         end) c1 c2
  | _, _ => false
  end.

(** ** Page extractor *)

Record heading : Type := {
  heading_text : str;
  heading_level : Z;
  heading_id : str
}.

Record link : Type := {
  link_text : str;
  link_description : str;
  link_location : str
}.

Record image : Type := {
  image_src : str;
  image_alt : str;
  image_context : str
}.

Definition dict := list (str * list str).

Record page_content : Type := {
  title : str;
  headings : list heading;
  links : list link;
  images : list image;
  main_text : dict
}.

(** [key in d] *)
Definition dict_has (key : str) (d : dict) : bool :=
  existsb (fun kv => str_eqb key (fst kv)) d.

(** [d[key]] *)
Fixpoint dict_get (key : str) (d : dict) : res (list str) :=
  match d with
  | [] => Raise KeyError
  | (k, v) :: rest => if str_eqb key k then Ok v else dict_get key rest
  end.

(** [d[key] = v]: in place for a key that is there, at the end for a new
    one. *)
Fixpoint dict_set (key : str) (v : list str) (d : dict) : dict :=
  match d with
  | [] => [(key, v)]
  | (k, v') :: rest =>
      if str_eqb key k then (k, v) :: rest else (k, v') :: dict_set key v rest
  end.

Definition dict_keys (d : dict) : list str := map fst d.

(** [s[i]] *)
Definition char_at (s : str) (i : nat) : res ascii :=
  match nth_error s i with
  | Some c => Ok c
  | None => Raise IndexError
  end.

(** [int(c)] for a string of one character. *)
Definition int_of_char (c : ascii) : res Z :=
  let n := nat_of_ascii c in
  if between 48 57 n then Ok (Z.of_nat (n - 48)) else Raise ValueError.

Definition heading_names : list str := ["h1" : str; "h2" : str; "h3" : str]%string.

Definition heading_of (h : node) : res heading :=
  let? c := char_at (tag_name h) 1 in
  let? level := int_of_char c in
  Ok {| heading_text := strip (get_text h);
        heading_level := level;
        heading_id := tag_get h (s2l "id") |}.

(** The body of [for h in soup.find_all(['h1', 'h2', 'h3'])]. *)
Definition headings_step (h : node) (acc : list heading) : res (list heading) :=
  let heading_text := strip (get_text h) in
  if nonempty heading_text
  then let? entry := heading_of h in Ok (acc ++ [entry])
  else Ok acc.

Definition extract_headings (soup : node) : res (list heading) :=
  for_each (find_all heading_names soup) headings_step [].

(** ** What the specification says of the headings

    The headings of a document are its tags [h1], [h2] and [h3] with text
    left after stripping, in document order; the level is the digit of the
    tag. *)

Definition level_of_name (name : str) : Z :=
  if str_eqb name (s2l "h1") then 1%Z
  else if str_eqb name (s2l "h2") then 2%Z
  else if str_eqb name (s2l "h3") then 3%Z
  else 0%Z.

Definition is_heading (n : node) : bool :=
  (0 <? level_of_name (tag_name n))%Z &&
  match n with
  | NavigableString _ => false
  | Tag _ _ _ => true
  end.

Definition shown_heading (n : node) : bool :=
  is_heading n && nonempty (strip (get_text n)).

Definition heading_entry (n : node) : heading :=
  {| heading_text := strip (get_text n);
     heading_level := level_of_name (tag_name n);
     heading_id := tag_get n (s2l "id") |}.

Definition headings_in_order (soup : node) : list heading :=
  map heading_entry (filter shown_heading (descendants soup)).

(** [hay.find(needle)]: the index of the first occurrence, or -1. *)
Fixpoint find_from (needle hay : str) (i : Z) : Z :=
  if startswith hay needle then i
  else
    match hay with
    | [] => (-1)%Z
    | _ :: hay' => find_from needle hay' (i + 1)%Z
    end.

Definition str_find (hay needle : str) : Z := find_from needle hay 0%Z.

Definition len (s : str) : Z := Z.of_nat (length s).

(** [s[:i]] and [s[i:]] for an index that is not negative. *)
Definition slice_to (s : str) (i : Z) : str := firstn (Z.to_nat i) s.
Definition slice_from (s : str) (i : Z) : str := skipn (Z.to_nat i) s.

(** The text around a link inside its parent. *)
Definition surrounding (parent : option node) (link_text : str) : str :=
  match parent with
  | Some p =>
      if nonempty (get_text p) then
        let full_text := strip (get_text p) in
        let link_pos := str_find full_text link_text in
        let surrounding_text :=
          if (0 <? link_pos)%Z then strip (slice_to full_text link_pos) else [] in
        if (link_pos + len link_text <? len full_text)%Z
        then surrounding_text ++ space ++
             strip (slice_from full_text (link_pos + len link_text))
        else surrounding_text
      else []
  | None => []
  end.

Definition landmark_names : list str :=
  ["header" : str; "nav" : str; "footer" : str; "aside" : str]%string.

Definition list_names : list str := ["ul" : str; "ol" : str]%string.

(** [str(i)] *)
Definition str_of_nat (i : nat) : str :=
  s2l (DecimalString.NilEmpty.string_of_uint (Nat.to_uint i)).

(** [for i, item in enumerate(items, i)]: the number of the first item that
    has [element] among its descendants. *)
Fixpoint item_number (element : node) (items : list node) (i : nat)
    : option nat :=
  match items with
  | [] => None
  | item :: rest =>
      if existsb (node_eqb element) (descendants item) then Some i
      else item_number element rest (S i)
  end.

(** [get_element_location_description]; [up] are the ancestors of
    [element], nearest first. *)
Definition get_element_location_description (element : node) (up : list node)
    : str :=
  let in_landmark :=
    match find (named landmark_names) up with
    | Some parent => [s2l "in the " ++ tag_name parent]
    | None => []
    end in
  let in_list :=
    match find (named list_names) up with
    | Some lst =>
        match item_number element (find_all [s2l "li"] lst) 1 with
        | Some i => [s2l "item " ++ str_of_nat i ++ s2l " in a list"]
        | None => []
        end
    | None => []
    end in
  match in_landmark ++ in_list with
  | [] => s2l "in main content"
  | location => join space location
  end.

(** The body of [for link in soup.find_all('a')]. *)
Definition links_step (entry : node * list node) (acc : list link) : list link :=
  let (a, up) := entry in
  let text := strip (get_text a) in
  let href := tag_get a (s2l "href") in
  if nonempty text && nonempty href
  then acc ++ [ {| link_text := text;
                   link_description := surrounding (hd_error up) text;
                   link_location := get_element_location_description a up |} ]
  else acc.

Definition extract_links (soup : node) : list link :=
  fold_left (fun acc entry => links_step entry acc)
    (find_all_with_parents [s2l "a"] soup) [].

Definition slash : ascii := "/".

Fixpoint lstrip_slash (s : str) : str :=
  match s with
  | [] => []
  | c :: s' => if Ascii.eqb c slash then lstrip_slash s' else s
  end.

Definition rstrip_slash (s : str) : str := rev (lstrip_slash (rev s)).

Definition is_absolute (src : str) : bool :=
  startswith src (s2l "http://") || startswith src (s2l "https://").

(** The body of [for img in soup.find_all('img')]; [current_url] is the
    agent's field, [None] before the first page. *)
Definition images_step (current_url : option str) (entry : node * list node)
    (acc : list image) : res (list image) :=
  let (img, up) := entry in
  let src := tag_get img (s2l "src") in
  let alt := tag_get img (s2l "alt") in
  if nonempty src then
    let? full_src :=
      if is_absolute src then Ok src
      else
        match current_url with
        | Some url => Ok (rstrip_slash url ++ [slash] ++ lstrip_slash src)
        | None => Raise AttributeError
        end in
    Ok (acc ++ [ {| image_src := full_src;
                    image_alt := alt;
                    image_context :=
                      match up with
                      | parent :: _ => tag_name parent
                      | [] => s2l "Unknown"
                      end |} ])
  else Ok acc.

Definition extract_images (current_url : option str) (soup : node)
    : res (list image) :=
  for_each (find_all_with_parents [s2l "img"] soup) (images_step current_url) [].

Definition main_content : str := s2l "Main Content".

Definition block_names : list str :=
  ["h1" : str; "h2" : str; "h3" : str; "p" : str; "div" : str]%string.

Definition container_names : list str := ["p" : str; "div" : str]%string.

(** The state of the section scan: [current_section] and
    [content['main_text']]. *)
Definition scan_state : Type := (str * dict)%type.

(** The body of [for elem in soup.find_all(['h1', 'h2', 'h3', 'p', 'div'])]. *)
Definition main_text_step (elem : node) (st : scan_state) : res scan_state :=
  let (current_section, sections) := st in
  if named heading_names elem then
    let current_section := strip (get_text elem) in
    if dict_has current_section sections
    then Ok (current_section, sections)
    else Ok (current_section, dict_set current_section [] sections)
  else if named container_names elem then
    let text := join space (stripped_strings elem) in
    if nonempty text then
      let? existing := dict_get current_section sections in
      if negb (existsb (fun entry => str_in text entry) existing)
      then Ok (current_section,
               dict_set current_section (existing ++ [text]) sections)
      else Ok st
    else Ok st
  else Ok st.

(** The section scan over a sequence of elements, from the default
    section. *)
Definition scan_sections (elems : list node) : res scan_state :=
  for_each elems main_text_step (main_content, dict_set main_content [] []).

Definition extract_main_text (soup : node) : res dict :=
  let? st := scan_sections (find_all block_names soup) in Ok (snd st).

(** [extract_page_content]; the driver's [title] and parsed [page_source]
    and the agent's [current_url] are its inputs. *)
Definition extract_page_content (current_url : option str) (page_title : str)
    (soup : node) : res page_content :=
  let? hs := extract_headings soup in
  let ls := extract_links soup in
  let? imgs := extract_images current_url soup in
  let? sections := extract_main_text soup in
  Ok {| title := page_title;
        headings := hs;
        links := ls;
        images := imgs;
        main_text := sections |}.

(** ** What holds of the section scan

    The invariant of the scan, and the claim of the specification about
    nested containers as it is written. *)

Record scan_inv (st : scan_state) : Prop := {
  inv_keys : NoDup (dict_keys (snd st));
  inv_default : In main_content (dict_keys (snd st));
  inv_current : In (fst st) (dict_keys (snd st));
  inv_entries : forall k l, dict_get k (snd st) = Ok l -> NoDup l
}.

(** Every section of [d] is still in [d'], with the same entries and
    perhaps more after them. *)
Definition extends (d d' : dict) : Prop :=
  forall k l, dict_get k d = Ok l -> exists more, dict_get k d' = Ok (l ++ more).

(** The text a paragraph or container contributes. *)
Definition flat_text (elem : node) : str := join space (stripped_strings elem).

(** Two nested containers with the same text, both met while [cur] is the
    current section; [l1] are the elements scanned before the outer one and
    [d] the sections at that point. *)
Definition nested_same_text (soup : node) (l1 : list node) (outer : node)
    (l2 : list node) (inner : node) (l3 : list node) (cur : str) (d : dict)
    : Prop :=
  find_all block_names soup = l1 ++ outer :: l2 ++ inner :: l3 /\
  named container_names outer = true /\
  named container_names inner = true /\
  In inner (descendants outer) /\
  flat_text inner = flat_text outer /\
  scan_sections l1 = Ok (cur, d) /\
  (exists d', scan_sections (l1 ++ outer :: l2) = Ok (cur, d')).

(** The number of entries of section [cur] of the page that equal [text]. *)
Definition entries_equal (soup : node) (cur text : str) : res nat :=
  let? sections := extract_main_text soup in
  let? entries := dict_get cur sections in
  Ok (count_occ str_eq_dec entries text).

(** The specification: nested containers with the same text leave exactly
    one entry. *)
Definition nested_dedup_claim (soup : node) : Prop :=
  forall l1 outer l2 inner l3 cur d,
    nested_same_text soup l1 outer l2 inner l3 cur d ->
    entries_equal soup cur (flat_text outer) = Ok 1%nat.


(** ** The world outside the agent

    The browser driver, the chat channel and the language model.  Every
    call may raise and may change the world; [World] is all the state the
    agent does not hold itself. *)

Inductive by_ : Type :=
| LINK_TEXT
| PARTIAL_LINK_TEXT
| XPATH.

Class Env : Type := {
  World : Type;
  Element : Type;
  Channel : Type;
  Message : Type;
  (** [driver.get(url)] *)
  driver_get : str -> World -> res unit * World;
  (** [driver.back()] *)
  driver_back : World -> res unit * World;
  (** [BeautifulSoup(driver.page_source, 'html.parser')] *)
  driver_page_source : World -> res node * World;
  (** [driver.title] *)
  driver_title : World -> res str * World;
  (** [driver.current_url] *)
  driver_current_url : World -> res str * World;
  (** [WebDriverWait(driver, 2).until(EC.element_to_be_clickable((by, q)))] *)
  wait_clickable : by_ -> str -> World -> res Element * World;
  (** [element.click()] *)
  element_click : Element -> World -> res unit * World;
  (** [channel.send(text)] *)
  channel_send : Channel -> str -> World -> res Message * World;
  (** [message.delete()] *)
  message_delete : Message -> World -> res unit * World;
  (** [get_compact_page_description(content)]: it handles its own
      exceptions and always returns a text. *)
  get_compact_page_description : page_content -> World -> str * World;
  (** [str(e)] *)
  exn_str : exn -> str
}.

Section Agent.

Context {env : Env}.

(** The fields [__init__] sets, the clients and the driver apart. *)
Record agent : Type := {
  current_url : option str;
  current_page_content : option page_content;
  conversation_history : list str;
  status_message : option Message;
  navigation_history : list (option str);
  current_section : option str
}.

(** The agent of [__init__]. *)
Definition fresh : agent :=
  {| current_url := None;
     current_page_content := None;
     conversation_history := [];
     status_message := None;
     navigation_history := [];
     current_section := None |}.

Definition set_current_url (v : option str) (a : agent) : agent :=
  {| current_url := v;
     current_page_content := current_page_content a;
     conversation_history := conversation_history a;
     status_message := status_message a;
     navigation_history := navigation_history a;
     current_section := current_section a |}.

Definition set_current_page_content (v : option page_content) (a : agent)
    : agent :=
  {| current_url := current_url a;
     current_page_content := v;
     conversation_history := conversation_history a;
     status_message := status_message a;
     navigation_history := navigation_history a;
     current_section := current_section a |}.

Definition set_status_message (v : option Message) (a : agent) : agent :=
  {| current_url := current_url a;
     current_page_content := current_page_content a;
     conversation_history := conversation_history a;
     status_message := v;
     navigation_history := navigation_history a;
     current_section := current_section a |}.

Definition set_navigation_history (v : list (option str)) (a : agent) : agent :=
  {| current_url := current_url a;
     current_page_content := current_page_content a;
     conversation_history := conversation_history a;
     status_message := status_message a;
     navigation_history := v;
     current_section := current_section a |}.

(** A method of the agent: it reads and writes the agent and the world,
    and returns or raises; what it wrote before raising stays written. *)
Definition M (A : Type) : Type := agent * World -> res A * (agent * World).

Definition ret (A : Type) (a : A) : M A := fun s => (Ok a, s).

Definition bind (A B : Type) (c : M A) (k : A -> M B) : M B :=
  fun s =>
    match c s with
    | (Ok a, s') => k a s'
    | (Raise e, s') => (Raise e, s')
    end.

Definition get : M agent := fun s => (Ok (fst s), s).

Definition modify (f : agent -> agent) : M unit :=
  fun s => (Ok tt, (f (fst s), snd s)).

(** A call into the world. *)
Definition call (A : Type) (op : World -> res A * World) : M A :=
  fun s => let (r, w) := op (snd s) in (r, (fst s, w)).

(** A call into the world that cannot raise. *)
Definition call_total (A : Type) (op : World -> A * World) : M A :=
  fun s => let (r, w) := op (snd s) in (Ok r, (fst s, w)).

Definition of_res (A : Type) (r : res A) : M A := fun s => (r, s).

(** [try: c  except: pass] *)
Definition try_ (A : Type) (c : M A) : M (option A) :=
  fun s =>
    match c s with
    | (Ok a, s') => (Ok (Some a), s')
    | (Raise _, s') => (Ok None, s')
    end.

(** [try: c  except Exception as e: h(e)] *)
Definition catch (A : Type) (c : M A) (h : exn -> M A) : M A :=
  fun s =>
    match c s with
    | (Ok a, s') => (Ok a, s')
    | (Raise e, s') => h e s'
    end.

End Agent.

Arguments agent {env}.
Arguments M {env} A.

Notation "x <- c ;; k" := (bind c (fun x => k))
  (at level 61, c at next level, right associativity).
Notation "c ;; k" := (bind c (fun _ => k))
  (at level 61, right associativity).

(** Texts of the status line: the pictographs are beyond code point 255 and
    are carried as their UTF-8 bytes. *)
Definition pict_refresh : str := ["240"; "159"; "148"; "132"]%char.
Definition pict_phone : str := ["240"; "159"; "147"; "177"]%char.
Definition pict_page : str := ["240"; "159"; "147"; "132"]%char.
Definition pict_cross : str := ["226"; "157"; "140"]%char.

Definition upper_letters : str := s2l "ABCDEFGHIJKLMNOPQRSTUVWXYZ".
Definition lower_letters : str := s2l "abcdefghijklmnopqrstuvwxyz".

(** [translate(text(), 'ABC...', 'abc...')] *)
Definition xpath_folded_text : str :=
  s2l "translate(text(), '" ++ upper_letters ++ s2l "', '" ++ lower_letters
  ++ s2l "')".

(** The query of the third strategy: the text of any element, folded to
    lower case, equals or contains the target in lower case. *)
Definition xpath_by_text (target_text : str) : str :=
  s2l "//*[" ++ xpath_folded_text ++ s2l "='" ++ lower target_text
  ++ s2l "' or contains(" ++ xpath_folded_text ++ s2l ", '"
  ++ lower target_text ++ s2l "')]".

(** The query of the fourth strategy: [aria-label], [title] or [alt]. *)
Definition xpath_by_label (target_text : str) : str :=
  s2l "//*[@aria-label='" ++ target_text ++ s2l "' or @title='" ++ target_text
  ++ s2l "' or @alt='" ++ target_text ++ s2l "']".

(** [l.pop()]: the last element, and the list without it. *)
Definition pop (A : Type) (l : list A) : res (A * list A) :=
  match rev l with
  | [] => Raise IndexError
  | x :: front => Ok (x, rev front)
  end.

(** The four strategies of the locator, in the order they are tried. *)
Definition strategies (target_text : str) : list (by_ * str) :=
  [ (LINK_TEXT, target_text);
    (PARTIAL_LINK_TEXT, target_text);
    (XPATH, xpath_by_text target_text);
    (XPATH, xpath_by_label target_text) ].

Definition no_page_loaded : str :=
  s2l "No page is currently loaded. Please share a URL to explore.".

Definition first_page_reply : str :=
  s2l "This is the first page we've visited. What would you like to explore here?".

Definition link_not_found (target : str) : str :=
  s2l "I couldn't find a link matching '" ++ target
  ++ s2l "'. Could you try describing what you're looking for differently?".

Section Methods.

Context {env : Env}.

(** [set_status] *)
Definition set_status (channel : Channel) (message : str) : M unit :=
  a <- get ;;
  match status_message a with
  | Some m => try_ (call (message_delete m))
  | None => ret None
  end ;;
  m <- call (channel_send channel (pict_refresh ++ space ++ message)) ;;
  modify (set_status_message (Some m)).

(** [clear_status] *)
Definition clear_status : M unit :=
  a <- get ;;
  match status_message a with
  | Some m =>
      try_ (call (message_delete m)) ;;
      modify (set_status_message None)
  | None => ret tt
  end.

(** One strategy: [try: return WebDriverWait(...).until(...)  except: pass] *)
Definition probe (strategy : by_ * str) : M (option Element) :=
  try_ (call (wait_clickable (fst strategy) (snd strategy))).

(** [find_and_click_element] *)
Definition find_and_click_element (target_text : str) : M (option Element) :=
  catch
    (r1 <- probe (LINK_TEXT, target_text) ;;
     match r1 with
     | Some element => ret (Some element)
     | None =>
         r2 <- probe (PARTIAL_LINK_TEXT, target_text) ;;
         match r2 with
         | Some element => ret (Some element)
         | None =>
             r3 <- probe (XPATH, xpath_by_text target_text) ;;
             match r3 with
             | Some element => ret (Some element)
             | None =>
                 r4 <- probe (XPATH, xpath_by_label target_text) ;;
                 match r4 with
                 | Some element => ret (Some element)
                 | None => ret None
                 end
             end
         end
     end)
    (fun _ => ret None).

(** [self.extract_page_content()] *)
Definition extract_page : M page_content :=
  soup <- call driver_page_source ;;
  page_title <- call driver_title ;;
  a <- get ;;
  of_res (extract_page_content (current_url a) page_title soup).

Definition with_scheme (url : str) : str :=
  if is_absolute url then url else s2l "https://" ++ url.

(** [navigate_to_url]: the page content, or the text of the error. *)
Definition navigate_to_url (channel : Channel) (url : str)
    : M (page_content + str) :=
  catch
    (let url := with_scheme url in
     set_status channel (pict_phone ++ s2l " Loading " ++ url ++ s2l "...") ;;
     call (driver_get url) ;;
     modify (set_current_url (Some url)) ;;
     set_status channel (pict_page ++ s2l " Analyzing page content...") ;;
     content <- extract_page ;;
     modify (set_current_page_content (Some content)) ;;
     clear_status ;;
     ret (inl content))
    (fun e =>
       clear_status ;;
       ret (inr (pict_cross ++ s2l " Error navigating to URL: " ++ exn_str e))).

(** The [click_link] branch of [process_user_input]. *)
Definition click_link (channel : Channel) (target : str) : M str :=
  a <- get ;;
  match current_page_content a with
  | None => ret no_page_loaded
  | Some _ =>
      found <- find_and_click_element target ;;
      match found with
      | Some element =>
          set_status channel (s2l "Navigating to '" ++ target ++ s2l "'...") ;;
          call (element_click element) ;;
          modify (fun a =>
            set_navigation_history (navigation_history a ++ [current_url a]) a) ;;
          content <- extract_page ;;
          modify (set_current_page_content (Some content)) ;;
          url <- call driver_current_url ;;
          modify (set_current_url (Some url)) ;;
          call_total (get_compact_page_description content)
      | None => ret (link_not_found target)
      end
  end.

(** The [go_back] branch of [process_user_input]. *)
Definition go_back (channel : Channel) : M str :=
  a <- get ;;
  match navigation_history a with
  | [] => ret first_page_reply
  | _ :: _ =>
      set_status channel (s2l "Going back to previous page...") ;;
      call driver_back ;;
      a <- get ;;
      popped <- of_res (pop (navigation_history a)) ;;
      modify (fun a =>
        set_current_url (fst popped) (set_navigation_history (snd popped) a)) ;;
      content <- extract_page ;;
      modify (set_current_page_content (Some content)) ;;
      call_total (get_compact_page_description content)
  end.

(** The strategies tried one after another until one finds an element. *)
Fixpoint cascade (probes : list (by_ * str)) : M (option Element) :=
  match probes with
  | [] => ret None
  | p :: rest =>
      r <- probe p ;;
      match r with
      | Some element => ret (Some element)
      | None => cascade rest
      end
  end.

End Methods.

(** ** What holds of the session *)

(** Every field but the status message is the same. *)
Definition same_session {env : Env} (a a' : agent) : Prop :=
  current_url a' = current_url a /\
  current_page_content a' = current_page_content a /\
  conversation_history a' = conversation_history a /\
  navigation_history a' = navigation_history a /\
  current_section a' = current_section a.

(** A world whose driver, channel and messages answer every call; the
    wait for a clickable element may still time out. *)
Definition reliable (env : Env) : Prop :=
  (forall url w, exists w', driver_get url w = (Ok tt, w')) /\
  (forall w, exists w', driver_back w = (Ok tt, w')) /\
  (forall w, exists soup w', driver_page_source w = (Ok soup, w')) /\
  (forall w, exists t w', driver_title w = (Ok t, w')) /\
  (forall w, exists u w', driver_current_url w = (Ok u, w')) /\
  (forall e w, exists w', element_click e w = (Ok tt, w')) /\
  (forall ch text w, exists m w', channel_send ch text w = (Ok m, w')).

(** The specification: a direct navigation that returns the page changes
    the address and the page and no other field. *)
Definition navigate_frame_claim (env : Env) : Prop :=
  forall channel url a w content a1 w1,
    navigate_to_url channel url (a, w) = (Ok (inl content), (a1, w1)) ->
    current_url a1 = Some (with_scheme url) /\
    current_page_content a1 = Some content /\
    navigation_history a1 = navigation_history a /\
    current_section a1 = current_section a /\
    conversation_history a1 = conversation_history a /\
    status_message a1 = status_message a.

(** ** A small world, for examples

    The browser is the stack of the addresses it went through, the current
    one first.  Its one clickable element is found by the label "Sign up"
    only, and leads to the sign-up page. *)

Definition home_url : str := s2l "https://example.com".
Definition signup_url : str := s2l "https://example.com/signup".

Definition home_page : node :=
  Tag (s2l "[document]") []
    [ Tag (s2l "h1") [] [NavigableString (s2l "Example")];
      Tag (s2l "p") [] [NavigableString (s2l "Welcome.")];
      Tag (s2l "button") [(s2l "aria-label", s2l "Sign up")] [] ].

Definition signup_page : node :=
  Tag (s2l "[document]") []
    [ Tag (s2l "h1") [] [NavigableString (s2l "Join")] ].

Definition timeout : exn := External (s2l "TimeoutException").

Definition small_world : Env :=
  {| World := list str;
     Element := str;
     Channel := unit;
     Message := str;
     driver_get := fun url w => (Ok tt, url :: w);
     driver_back := fun w => (Ok tt, tl w);
     driver_page_source := fun w =>
       (Ok (if str_eqb (hd [] w) signup_url then signup_page else home_page), w);
     driver_title := fun w => (Ok (s2l "Example"), w);
     driver_current_url := fun w => (Ok (hd [] w), w);
     wait_clickable := fun by_what query w =>
       match by_what with
       | XPATH =>
           if str_eqb query (xpath_by_label (s2l "Sign up"))
           then (Ok signup_url, w) else (Raise timeout, w)
       | _ => (Raise timeout, w)
       end;
     element_click := fun e w => (Ok tt, e :: w);
     channel_send := fun _ text w => (Ok text, w);
     message_delete := fun _ w => (Ok tt, w);
     get_compact_page_description := fun c w => (title c, w);
     exn_str := fun _ => s2l "error" |}.

(** The agent after the home page was loaded. *)
Definition at_home : @agent small_world :=
  {| current_url := Some home_url;
     current_page_content :=
       Some {| title := s2l "Example";
               headings := [];
               links := [];
               images := [];
               main_text := [(main_content, [])] |};
     conversation_history := [];
     status_message := None;
     navigation_history := [];
     current_section := None |}.

(** ** The chat transport ([bot.py])

    What [on_message] sends for a response of the agent. *)

(** [range(0, stop, step)] for a positive [step]. *)
Definition range0 (stop step : nat) : list nat :=
  map (fun k => (k * step)%nat) (seq 0 ((stop + step - 1) / step)%nat).

(** [s[i:i+n]] *)
Definition slice (s : str) (i n : nat) : str := firstn n (skipn i s).

Definition message_limit : nat := 1900.

Definition not_sure_reply : str :=
  s2l "I'm not sure how to help with that. Try asking me to visit a website, describe something specific, or use the !guide command for help.".

(** The messages sent, in order: the fallback for an empty response, the
    response cut in parts when it is longer than the limit, else the
    response. *)
Definition outgoing (response : str) : list str :=
  match response with
  | [] => [not_sure_reply]
  | _ :: _ =>
      if (message_limit <? length response)%nat
      then map (fun i => slice response i message_limit)
             (range0 (length response) message_limit)
      else [response]
  end.

(** ** What holds of the classifier *)

(** The normalized input contains one of the phrases. *)
Definition mentions (phrases : list str) (user_input : str) : bool :=
  existsb (fun phrase => str_in phrase (normalize_text user_input)) phrases.

Definition describe_phrases : list str :=
  ["describe image" : str; "show image" : str; "what is in the image" : str]%string.

Definition summarize_phrases : list str :=
  ["summarize" : str; "summary" : str; "summarize this" : str;
   "summarize page" : str; "can you summarize" : str]%string.

Definition is_quote (c : ascii) : bool := Ascii.eqb c dquote || Ascii.eqb c squote.

Definition no_space (s : str) : bool := forallb (fun c => negb (isspace c)) s.

Definition no_quote (s : str) : bool := forallb (fun c => negb (is_quote c)) s.

(** No whitespace at the head and none at the end. *)
Definition stripped (s : str) : bool :=
  match s with
  | [] => true
  | c :: _ => negb (isspace c) && negb (isspace (last s c))
  end.

(** ** What holds of the links and images *)

(** An anchor that gets an entry: it has text left after stripping and a
    non-empty [href]. *)
Definition shown_link (entry : node * list node) : bool :=
  nonempty (strip (get_text (fst entry)))
  && nonempty (tag_get (fst entry) (s2l "href")).

Definition link_entry (entry : node * list node) : link :=
  {| link_text := strip (get_text (fst entry));
     link_description :=
       surrounding (hd_error (snd entry)) (strip (get_text (fst entry)));
     link_location := get_element_location_description (fst entry) (snd entry) |}.

(** The anchors of a document that get an entry, by the tag alone. *)
Definition shown_anchor (n : node) : bool :=
  named [s2l "a"] n && nonempty (strip (get_text n))
  && nonempty (tag_get n (s2l "href")).

(** [base] and [rel] with one slash between them. *)
Definition joined (base rel : str) : str := base ++ [slash] ++ rel.

(** An image that gets an entry: its [src] is not empty. *)
Definition shown_image (entry : node * list node) : bool :=
  nonempty (tag_get (fst entry) (s2l "src")).

Definition relative_image (entry : node * list node) : bool :=
  shown_image entry && negb (is_absolute (tag_get (fst entry) (s2l "src"))).

(** ** What holds of the sections *)

(** The elements of [l] not in [seen] and not met before, in order. *)
Fixpoint uniq_from (seen : list str) (l : list str) : list str :=
  match l with
  | [] => []
  | x :: rest =>
      if existsb (str_eqb x) seen then uniq_from seen rest
      else x :: uniq_from (seen ++ [x]) rest
  end.

(** The stripped texts of the headings of a document, in document order. *)
Definition section_titles (soup : node) : list str :=
  map (fun h => strip (get_text h)) (find_all heading_names soup).

(** The entries of one section: each is the non-empty flat text of a
    paragraph or container among [elems], and none is contained in an
    entry before it. *)
Definition entries_fine (elems : list node) (l : list str) : Prop :=
  (forall e, In e l ->
     e <> [] /\
     exists elem, In elem elems /\ named container_names elem = true /\
                  e = flat_text elem) /\
  (forall i j a b, (i < j)%nat ->
     nth_error l i = Some a -> nth_error l j = Some b -> str_in b a = false).

(** ** Runs of clicks and of steps back *)

Section Runs.

Context {env : Env}.

(** [clicked channel n s s']: [n] clicks, each on a loaded page, each
    finding its element and returning, lead from [s] to [s']. *)
Inductive clicked (channel : Channel)
    : nat -> agent * World -> agent * World -> Prop :=
| clicked_none (s : agent * World) : clicked channel 0 s s
| clicked_more (n : nat) (s s1 s2 : agent * World) (target reply : str)
    (e : Element) (w' : World) :
    clicked channel n s s1 ->
    current_page_content (fst s1) <> None ->
    find_and_click_element target s1 = (Ok (Some e), (fst s1, w')) ->
    click_link channel target s1 = (Ok reply, s2) ->
    clicked channel (S n) s s2.

(** [went_back channel n s s']: [n] steps back, each with something in
    the history and each returning, lead from [s] to [s']. *)
Inductive went_back (channel : Channel)
    : nat -> agent * World -> agent * World -> Prop :=
| went_back_none (s : agent * World) : went_back channel 0 s s
| went_back_more (n : nat) (s s1 s2 : agent * World) (reply : str) :
    navigation_history (fst s) <> [] ->
    go_back channel s = (Ok reply, s1) ->
    went_back channel n s1 s2 ->
    went_back channel (S n) s s2.

End Runs.

(** ** The actions on offer ([get_available_actions]) *)

Definition back_action : str := s2l "Go back to the previous page".

Definition images_action : str :=
  s2l "Get descriptions of the images on the page".

(** [', '.join(names[:3]) + ('...' if len(names) > 3 else '')] *)
Definition first_three (names : list str) : str :=
  join (s2l ", ") (firstn 3 names)
  ++ (if (3 <? length names)%nat then s2l "..." else []).

(** [get_available_actions]; the headings of a page are always dicts, so
    each one gives its text. *)
Definition get_available_actions {env : Env} (a : agent) : list str :=
  let actions := [] in
  let actions :=
    match navigation_history a with
    | [] => actions
    | _ :: _ => actions ++ [back_action]
    end in
  match current_page_content a with
  | None => actions
  | Some content =>
      let actions :=
        match images content with
        | [] => actions
        | _ :: _ => actions ++ [images_action]
        end in
      let actions :=
        match headings content with
        | [] => actions
        | _ :: _ =>
            let sections := map heading_text (headings content) in
            actions ++ [s2l "Navigate to sections: " ++ first_three sections]
        end in
      let actions :=
        match links content with
        | [] => actions
        | _ :: _ =>
            let links := map link_text (links content) in
            actions ++ [s2l "Click on links like: " ++ first_three links]
        end in
      actions
  end.

(** ** Sections and images

    What [navigate_to_section] and [describe_specific_images] use of the
    world beside the calls of [Env]. *)

Class Services (env : Env) : Type := {
  SectionContent : Type;
  (** [WebDriverWait(driver, 2).until(EC.presence_of_element_located((by, q)))] *)
  wait_present : by_ -> str -> World -> res Element * World;
  (** [element.location_once_scrolled_into_view] *)
  scrolled_into_view : Element -> World -> res unit * World;
  (** [extract_section_content(element)]: it handles its own exceptions
      and returns the content or [None]. *)
  extract_section_content : Element -> World -> option SectionContent * World;
  (** [vision_client.describe_image(url).captions], each by its text *)
  vision_describe : str -> World -> res (list str) * World
}.

(** The heading of a section, by its text, at one of the first three
    levels. *)
Definition section_xpath (target_section : str) : str :=
  s2l "//h1[contains(text(), '" ++ target_section
  ++ s2l "')] | //h2[contains(text(), '" ++ target_section
  ++ s2l "')] | //h3[contains(text(), '" ++ target_section ++ s2l "')]".

(** The pictograph of a framed picture with its variation selector, as
    UTF-8 bytes. *)
Definition pict_frame : str :=
  ["240"; "159"; "150"; "188"; "239"; "184"; "143"]%char.

Definition newline : str := ["010"%char].

Definition no_images_available : str :=
  s2l "No images available on the current page.".

Definition no_images_found : str :=
  s2l "No images found on the current page.".

Definition no_more_images : str :=
  s2l "No more images available on this page.".

Definition no_caption : str :=
  s2l "Unable to generate description for this image.".

(** [f"Image {i}: {desc}"] *)
Definition image_line (i : nat) (desc : str) : str :=
  s2l "Image " ++ str_of_nat i ++ s2l ": " ++ desc.

(** [f"\n\nThere are {remaining} more images available. ..."] *)
Definition more_images (remaining : nat) : str :=
  newline ++ newline ++ s2l "There are " ++ str_of_nat remaining
  ++ s2l " more images available. You can ask me to describe more.".

(** [images[start:stop]] *)
Definition window (A : Type) (l : list A) (start stop : nat) : list A :=
  firstn (stop - start) (skipn start l).

Section SectionsAndImages.

Context {env : Env} {services : Services env}.

(** What [navigate_to_section] returns: the section's content or [None]
    from [extract_section_content], or [True] or [False]. *)
Inductive section_result : Type :=
| Extracted (content : option SectionContent)
| Flag (b : bool).

(** [navigate_to_section] *)
Definition navigate_to_section (target_section : str) : M section_result :=
  catch
    (found <-
       try_
         (section <- call (wait_present XPATH (section_xpath target_section)) ;;
          call (scrolled_into_view section) ;;
          call_total (extract_section_content section)) ;;
     match found with
     | Some content => ret (Extracted content)
     | None =>
         element <- find_and_click_element target_section ;;
         match element with
         | Some element =>
             call (element_click element) ;;
             content <- extract_page ;;
             modify (set_current_page_content (Some content)) ;;
             ret (Flag true)
         | None => ret (Flag false)
         end
     end)
    (fun _ => ret (Flag false)).

(** [describe_image] *)
Definition describe_image (image_url : str) : M str :=
  catch
    (captions <- call (vision_describe image_url) ;;
     match captions with
     | caption :: _ => ret caption
     | [] => ret no_caption
     end)
    (fun e => ret (s2l "Error describing image: " ++ exn_str e)).

(** The loop of [describe_specific_images]:
    [for i, img in enumerate(images[start_index:end_index], start=i)]. *)
Fixpoint describe_each (channel : Channel) (end_index i : nat)
    (imgs : list image) (descriptions : list str) : M (list str) :=
  match imgs with
  | [] => ret descriptions
  | img :: rest =>
      if is_absolute (image_src img) then
        set_status channel
          (pict_frame ++ s2l " Analyzing image " ++ str_of_nat i ++ s2l " of "
           ++ str_of_nat end_index ++ s2l "...") ;;
        desc <- describe_image (image_src img) ;;
        describe_each channel end_index (S i) rest
          (match desc with
           | [] => descriptions
           | _ :: _ => descriptions ++ [image_line i desc]
           end)
      else describe_each channel end_index (S i) rest descriptions
  end.

(** [describe_specific_images], for a start and a count that are not
    negative; a page content always has the key [images]. *)
Definition describe_specific_images (channel : Channel)
    (start_index count : nat) : M str :=
  set_status channel (pict_frame ++ s2l " Analyzing images...") ;;
  a <- get ;;
  match current_page_content a with
  | None => clear_status ;; ret no_images_available
  | Some content =>
      let images := images content in
      match images with
      | [] => clear_status ;; ret no_images_found
      | _ :: _ =>
          let end_index := Nat.min (start_index + count) (length images) in
          if (length images <=? start_index)%nat
          then clear_status ;; ret no_more_images
          else
            descriptions <-
              describe_each channel end_index (start_index + 1)
                (window images start_index end_index) [] ;;
            let remaining := (length images - end_index)%nat in
            let response := join newline descriptions in
            let response :=
              if (0 <? remaining)%nat then response ++ more_images remaining
              else response in
            clear_status ;;
            ret response
      end
  end.

End SectionsAndImages.

(** The services of the small world: the heading "Example" is present,
    and every picture has the one caption. *)
Definition small_services : Services small_world :=
  {| SectionContent := str;
     wait_present := fun by_what query (w : @World small_world) =>
       if str_eqb query (section_xpath (s2l "Example"))
       then (Ok (s2l "h1" : @Element small_world), w)
       else (Raise timeout, w);
     scrolled_into_view := fun _ w => (Ok tt, w);
     extract_section_content := fun e w => (Some e, w);
     vision_describe := fun url w => (Ok [s2l "a picture"], w) |}.

(** The agent on a page with four pictures, the second at an address the
    vision service is not asked about. *)
Definition with_pictures : @agent small_world :=
  {| current_url := Some home_url;
     current_page_content :=
       Some {| title := s2l "Example";
               headings := [];
               links := [];
               images :=
                 [ {| image_src := s2l "https://example.com/a.png";
                      image_alt := []; image_context := s2l "p" |};
                   {| image_src := s2l "about:blank/b.png";
                      image_alt := []; image_context := s2l "p" |};
                   {| image_src := s2l "https://example.com/c.png";
                      image_alt := []; image_context := s2l "p" |};
                   {| image_src := s2l "https://example.com/d.png";
                      image_alt := []; image_context := s2l "p" |} ];
               main_text := [(main_content, [])] |};
     conversation_history := [];
     status_message := None;
     navigation_history := [];
     current_section := None |}.

(** The lines of the response for the pictures at the positions [i],
    [i + 1], ..., given the descriptions of those with an absolute
    address, in order: a picture gives a line exactly when its address is
    absolute and its description is not empty, and the line names its
    position. *)
Fixpoint lines_of (i : nat) (imgs : list image) (descs : list str)
    : list str :=
  match imgs with
  | [] => []
  | img :: rest =>
      if is_absolute (image_src img) then
        match descs with
        | [] => []
        | desc :: descs' =>
            match desc with
            | [] => lines_of (S i) rest descs'
            | _ :: _ => image_line i desc :: lines_of (S i) rest descs'
            end
        end
      else lines_of (S i) rest descs
  end.

(** The pictures the vision service is asked about. *)
Definition absolute_ones (imgs : list image) : list image :=
  filter (fun img => is_absolute (image_src img)) imgs.

(** [desc] is an answer of [describe_image] for the address of [img]. *)
Definition described {env : Env} {services : Services env} (img : image)
    (desc : str) : Prop :=
  exists a w w',
    describe_image (image_src img) (a, w) = (Ok desc, (a, w')).

(** Every send on a channel succeeds. *)
Definition sends (env : Env) : Prop :=
  forall channel text w, exists m w', channel_send channel text w = (Ok m, w').

(** ** The driver's reading of a query

    The queries of the third and the fourth strategy are XPath 1.0
    expressions, written by putting the target between apostrophes.  What
    follows is the part of that language these queries are in: how an
    expression is divided into literals, the queries that select every
    element on which a disjunction of tests holds, and what the tests
    mean. *)

(** Reading a query left to right: [None] outside a literal, [Some q]
    inside a literal opened by the quote mark [q]; a literal runs to the
    next occurrence of the mark that opened it. *)
Fixpoint quoting (opened : option ascii) (query : str) : option ascii :=
  match query with
  | [] => opened
  | c :: rest =>
      match opened with
      | Some q => if Ascii.eqb c q then quoting None rest
                  else quoting opened rest
      | None => if is_quote c then quoting (Some c) rest
                else quoting None rest
      end
  end.

(** No literal is left open at the end of the query; an expression with
    an open literal is not an expression of the language. *)
Definition well_quoted (query : str) : bool :=
  match quoting None query with
  | None => true
  | Some _ => false
  end.

(** The tests on an element: [@name='value'],
    [translate(text(), 'from', 'to')='value'],
    [contains(translate(text(), 'from', 'to'), 'value')], and [a or b]. *)
Inductive xexpr : Type :=
| XAttr (name value : str)
| XText (from to value : str)
| XContains (from to value : str)
| XOr (a b : xexpr).

(** The inside of a literal that an apostrophe opened, and what follows
    the closing apostrophe. *)
Fixpoint literal (s : str) : option (str * str) :=
  match s with
  | [] => None
  | c :: rest =>
      if Ascii.eqb c squote then Some ([], rest)
      else
        match literal rest with
        | Some (value, rest') => Some (c :: value, rest')
        | None => None
        end
  end.

Definition name_char (c : ascii) : bool :=
  let n := nat_of_ascii c in
  between 97 122 n || between 65 90 n || (n =? 45)%nat.

(** The longest name at the head of [s], and what follows it. *)
Fixpoint name_of (s : str) : str * str :=
  match s with
  | [] => ([], [])
  | c :: rest =>
      if name_char c then let (n, rest') := name_of rest in (c :: n, rest')
      else ([], s)
  end.

Definition and_then (A B : Type) (a : option A) (k : A -> option B)
    : option B :=
  match a with
  | Some v => k v
  | None => None
  end.

(** One test at the head of [s], and what follows it. *)
Definition test_of (s : str) : option (xexpr * str) :=
  match drop_prefix (s2l "@") s with
  | Some s1 =>
      let (name, s2) := name_of s1 in
      match name with
      | [] => None
      | _ :: _ =>
          and_then (drop_prefix (s2l "='") s2) (fun s3 =>
          and_then (literal s3) (fun vr =>
          Some (XAttr name (fst vr), snd vr)))
      end
  | None =>
      match drop_prefix (s2l "translate(text(), '") s with
      | Some s1 =>
          and_then (literal s1) (fun fr =>
          and_then (drop_prefix (s2l ", '") (snd fr)) (fun s2 =>
          and_then (literal s2) (fun tr =>
          and_then (drop_prefix (s2l ")='") (snd tr)) (fun s3 =>
          and_then (literal s3) (fun vr =>
          Some (XText (fst fr) (fst tr) (fst vr), snd vr))))))
      | None =>
          and_then (drop_prefix (s2l "contains(translate(text(), '") s)
            (fun s1 =>
          and_then (literal s1) (fun fr =>
          and_then (drop_prefix (s2l ", '") (snd fr)) (fun s2 =>
          and_then (literal s2) (fun tr =>
          and_then (drop_prefix (s2l "), '") (snd tr)) (fun s3 =>
          and_then (literal s3) (fun vr =>
          and_then (drop_prefix (s2l ")") (snd vr)) (fun s4 =>
          Some (XContains (fst fr) (fst tr) (fst vr), s4))))))))
      end
  end.

(** Tests joined by [ or ]; [fuel] bounds their number. *)
Fixpoint tests_of (fuel : nat) (s : str) : option (xexpr * str) :=
  match fuel with
  | O => None
  | S fuel' =>
      match test_of s with
      | Some (x, rest) =>
          match drop_prefix (s2l " or ") rest with
          | Some rest' =>
              match tests_of fuel' rest' with
              | Some (y, rest'') => Some (XOr x y, rest'')
              | None => None
              end
          | None => Some (x, rest)
          end
      | None => None
      end
  end.

(** [//*[tests]]: every element on which the tests hold. *)
Definition parse_query (query : str) : option xexpr :=
  match drop_prefix (s2l "//*[") query with
  | Some body =>
      match tests_of (length body) body with
      | Some (x, rest) => if str_eqb rest (s2l "]") then Some x else None
      | None => None
      end
  | None => None
  end.

Fixpoint index_of (c : ascii) (s : str) : option nat :=
  match s with
  | [] => None
  | d :: rest =>
      if Ascii.eqb c d then Some O
      else
        match index_of c rest with
        | Some i => Some (S i)
        | None => None
        end
  end.

(** [translate(s, from, to)]: a character of [from] becomes the
    character of [to] at the same place, or goes when [to] is shorter. *)
Fixpoint translate (s from to : str) : str :=
  match s with
  | [] => []
  | c :: rest =>
      match index_of c from with
      | Some i =>
          match nth_error to i with
          | Some d => d :: translate rest from to
          | None => translate rest from to
          end
      | None => c :: translate rest from to
      end
  end.

(** [text()] where a string is expected: the first text node among the
    children of the element, the empty string when there is none. *)
Definition string_of (texts : list str) : str := hd [] texts.

(** [@name='value']: the element has the attribute with that value. *)
Definition has_attribute (name value : str) (attrs : list (str * str))
    : bool :=
  existsb (fun nv => str_eqb (fst nv) name && str_eqb (snd nv) value) attrs.

(** Whether the tests hold on an element with these text nodes among its
    children and these attributes. *)
Fixpoint holds (x : xexpr) (texts : list str) (attrs : list (str * str))
    : bool :=
  match x with
  | XAttr name value => has_attribute name value attrs
  | XText from to value => str_eqb (translate (string_of texts) from to) value
  | XContains from to value =>
      str_in value (translate (string_of texts) from to)
  | XOr a b => holds a texts attrs || holds b texts attrs
  end.

(** An element's [aria-label], [title] or [alt] is the target. *)
Definition labelled (target : str) (attrs : list (str * str)) : bool :=
  has_attribute (s2l "aria-label") target attrs
  || (has_attribute (s2l "title") target attrs
      || has_attribute (s2l "alt") target attrs).

(** The first text of an element, its letters A to Z in lower case, is the
    target in lower case or contains it. *)
Definition folded (text : str) : str :=
  translate text upper_letters lower_letters.

Definition text_matches (target : str) (texts : list str) : bool :=
  str_eqb (folded (string_of texts)) (lower target)
  || str_in (lower target) (folded (string_of texts)).

Definition no_apostrophe (s : str) : bool :=
  forallb (fun c => negb (Ascii.eqb c squote)) s.

Definition no_dquote (s : str) : bool :=
  forallb (fun c => negb (Ascii.eqb c dquote)) s.

Definition apostrophes (s : str) : nat := count_occ ascii_dec s squote.

(** From outside a literal into one that an apostrophe opens, and back. *)
Definition flip (st : option ascii) : option ascii :=
  match st with
  | None => Some squote
  | Some _ => None
  end.

(** The page the driver holds. *)
Class Page (env : Env) : Type := {
  (** the elements of the document, in document order *)
  page_elements : World -> list Element;
  (** the text nodes among the children of an element *)
  text_children : Element -> World -> list str;
  (** the attributes of an element, each with its value *)
  attributes : Element -> World -> list (str * str);
  (** [element.is_displayed() and element.is_enabled()] *)
  is_clickable : Element -> World -> bool
}.

Section Driver.

Context {env : Env} {page : Page env}.

(** [driver.find_element(By.XPATH, query)] for a query of the fragment:
    the first element, in document order, on which the tests hold. *)
Definition first_holding (x : xexpr) (w : World) : option Element :=
  find (fun e => holds x (text_children e w) (attributes e w))
    (page_elements w).

(** A driver that reads XPath as the language is defined, on a page that
    stays as it is during a probe: a query with an open literal raises;
    a query of the fragment gives the first element on which its tests
    hold when that element is clickable, and times out when there is no
    such element or it is not clickable. *)
Definition follows_xpath : Prop :=
  forall query w,
    (well_quoted query = false ->
     exists x w', wait_clickable XPATH query w = (Raise x, w')) /\
    (forall tests,
       well_quoted query = true ->
       parse_query query = Some tests ->
       match first_holding tests w with
       | Some e =>
           if is_clickable e w
           then exists w', wait_clickable XPATH query w = (Ok e, w')
           else exists x w', wait_clickable XPATH query w = (Raise x, w')
       | None => exists x w', wait_clickable XPATH query w = (Raise x, w')
       end).

End Driver.

(** ** A page, for examples

    The world is the list of the elements of the page; the driver reads
    XPath as [follows_xpath] says and finds links by their text. *)

Record dom_element : Type := {
  dom_tag : str;
  dom_texts : list str;
  dom_attrs : list (str * str);
  dom_shown : bool
}.

Definition invalid_selector : exn := External (s2l "InvalidSelectorException").

Definition dom_find (keep : dom_element -> bool) (w : list dom_element)
    : res dom_element * list dom_element :=
  match find keep w with
  | Some e => if dom_shown e then (Ok e, w) else (Raise timeout, w)
  | None => (Raise timeout, w)
  end.

Definition dom_world : Env :=
  {| World := list dom_element;
     Element := dom_element;
     Channel := unit;
     Message := str;
     driver_get := fun url w => (Ok tt, w);
     driver_back := fun w => (Ok tt, w);
     driver_page_source := fun w => (Ok home_page, w);
     driver_title := fun w => (Ok (s2l "Example"), w);
     driver_current_url := fun w => (Ok home_url, w);
     wait_clickable := fun by_what query w =>
       match by_what with
       | LINK_TEXT =>
           dom_find (fun e => str_eqb (dom_tag e) (s2l "a")
                              && str_eqb (string_of (dom_texts e)) query) w
       | PARTIAL_LINK_TEXT =>
           dom_find (fun e => str_eqb (dom_tag e) (s2l "a")
                              && str_in query (string_of (dom_texts e))) w
       | XPATH =>
           if well_quoted query then
             match parse_query query with
             | Some tests =>
                 dom_find (fun e => holds tests (dom_texts e) (dom_attrs e)) w
             | None => (Raise invalid_selector, w)
             end
           else (Raise invalid_selector, w)
       end;
     element_click := fun e w => (Ok tt, w);
     channel_send := fun _ text w => (Ok text, w);
     message_delete := fun _ w => (Ok tt, w);
     get_compact_page_description := fun c w => (title c, w);
     exn_str := fun _ => s2l "error" |}.

Definition dom_page : Page dom_world :=
  {| page_elements := fun w : @World dom_world => w;
     text_children := fun (e : @Element dom_world) _ => dom_texts e;
     attributes := fun (e : @Element dom_world) _ => dom_attrs e;
     is_clickable := fun (e : @Element dom_world) _ => dom_shown e |}.

(** A button that says what it does in its [aria-label] only. *)
Definition button_labelled (label : str) : dom_element :=
  {| dom_tag := s2l "button";
     dom_texts := [];
     dom_attrs := [(s2l "aria-label", label)];
     dom_shown := true |}.

(** A paragraph with a text. *)
Definition paragraph (text : str) : dom_element :=
  {| dom_tag := s2l "p";
     dom_texts := [text];
     dom_attrs := [];
     dom_shown := true |}.

(** * Properties *)

(** ** Facts about characters *)

Ltac each_char c := destruct c as [[] [] [] [] [] [] [] []]; vm_compute; reflexivity.

Lemma isspace_lower_char (c : ascii) : isspace (lower_char c) = isspace c.
Proof. each_char c. Qed.

Lemma lower_char_idem (c : ascii) : lower_char (lower_char c) = lower_char c.
Proof. each_char c. Qed.

(** ** Facts about [split] and [join] *)

Lemma flush_nonempty (cur : str) (acc : list str) :
  cur <> [] -> flush cur acc = rev cur :: acc.
Proof. destruct cur; [congruence | reflexivity]. Qed.

Lemma split_from_word (w cur rest : str) :
  forallb (fun c => negb (isspace c)) w = true ->
  split_from cur (w ++ rest) = split_from (rev w ++ cur) rest.
Proof.
  revert cur. induction w as [|c w IH]; intros cur H; simpl in *.
  - reflexivity.
  - apply andb_prop in H as [Hc Hw].
    apply negb_true_iff in Hc. rewrite Hc.
    rewrite IH by assumption. now rewrite <- app_assoc.
Qed.

Lemma rev_nonempty (A : Type) (l : list A) : l <> [] -> rev l <> [].
Proof.
  destruct l; [congruence|]. simpl. intros _ H.
  now apply app_eq_nil in H as [_ H].
Qed.

Lemma split_from_space (cur rest : str) :
  split_from cur (space ++ rest) = flush cur (split_from [] rest).
Proof. reflexivity. Qed.

Lemma split_join (ws : list str) :
  Forall word ws -> split (join space ws) = ws.
Proof.
  unfold split. induction 1 as [|w ws [Hne Hw] Hws IH]; [reflexivity|].
  destruct ws as [|w' ws'].
  - simpl. rewrite <- (app_nil_r w) at 1.
    rewrite split_from_word by assumption. simpl.
    rewrite app_nil_r, flush_nonempty by now apply rev_nonempty.
    now rewrite rev_involutive.
  - change (join space (w :: w' :: ws')) with (w ++ space ++ join space (w' :: ws')).
    rewrite split_from_word, split_from_space by assumption.
    rewrite IH, app_nil_r, flush_nonempty by now apply rev_nonempty.
    now rewrite rev_involutive.
Qed.

Lemma split_from_words (s cur : str) :
  forallb (fun c => negb (isspace c)) cur = true ->
  Forall word (split_from cur s).
Proof.
  revert cur. induction s as [|c s IH]; intros cur Hcur; simpl.
  - destruct cur as [|a cur]; simpl; [constructor|].
    constructor; [|constructor]. split.
    + apply (@rev_nonempty _ (a :: cur)). congruence.
    + rewrite forallb_forall in *. intros x Hx. apply Hcur.
      now apply in_rev.
  - destruct (isspace c) eqn:Hc.
    + destruct cur as [|a cur]; simpl; [now apply IH|].
      constructor; [|now apply IH]. split.
      * apply (@rev_nonempty _ (a :: cur)). congruence.
      * rewrite forallb_forall in *. intros x Hx. apply Hcur.
        now apply in_rev.
    + apply IH. simpl. now rewrite Hc, Hcur.
Qed.

Lemma split_words (s : str) : Forall word (split s).
Proof. now apply split_from_words. Qed.

Lemma flush_lower (cur : str) (acc : list str) :
  flush (lower cur) (map lower acc) = map lower (flush cur acc).
Proof.
  destruct cur as [|a cur]; [reflexivity|].
  unfold lower at 1. simpl. f_equal.
  unfold lower. now rewrite map_app, map_rev.
Qed.

Lemma split_from_lower (s cur : str) :
  split_from (lower cur) (lower s) = map lower (split_from cur s).
Proof.
  revert cur. induction s as [|c s IH]; intros cur; simpl.
  - apply (flush_lower cur []).
  - rewrite isspace_lower_char. destruct (isspace c).
    + rewrite <- flush_lower. f_equal. apply (IH []).
    + apply (IH (c :: cur)).
Qed.

Lemma split_lower (s : str) : split (lower s) = map lower (split s).
Proof. apply (split_from_lower s []). Qed.

Lemma lower_idem (s : str) : lower (lower s) = lower s.
Proof.
  unfold lower. rewrite map_map. apply map_ext, lower_char_idem.
Qed.

Lemma lower_join (ws : list str) :
  lower (join space ws) = join space (map lower ws).
Proof.
  induction ws as [|w ws IH]; [reflexivity|].
  destruct ws as [|w' ws']; [reflexivity|].
  change (join space (w :: w' :: ws')) with (w ++ space ++ join space (w' :: ws')).
  unfold lower at 1. rewrite !map_app. fold (lower w).
  change (map lower_char (join space (w' :: ws'))) with (lower (join space (w' :: ws'))).
  now rewrite IH.
Qed.

Lemma tidy_from_word (w rest : str) (b : bool) :
  word w -> tidy_from b (w ++ rest) = tidy_from false rest.
Proof.
  intros [Hne Hw]. revert b. induction w as [|c w IH]; [congruence|].
  intros b. simpl in *. apply andb_prop in Hw as [Hc Hw].
  apply negb_true_iff in Hc. rewrite Hc.
  destruct w as [|c' w']; [reflexivity|].
  apply IH; [congruence | assumption].
Qed.

Lemma tidy_join (ws : list str) : Forall word ws -> tidy (join space ws) = true.
Proof.
  intros H. assert (G : ws <> [] -> tidy_from true (join space ws) = true).
  { induction H as [|w ws Hw Hws IH]; [congruence|]. intros _.
    destruct ws as [|w' ws'].
    - simpl. rewrite <- (app_nil_r w). now rewrite tidy_from_word.
    - change (join space (w :: w' :: ws')) with (w ++ space ++ join space (w' :: ws')).
      rewrite tidy_from_word by assumption.
      change (tidy_from true (join space (w' :: ws')) = true).
      apply IH. congruence. }
  destruct ws as [|w ws]; [reflexivity|].
  assert (G' := G ltac:(congruence)). unfold tidy.
  now destruct (join space (w :: ws)).
Qed.

(** ** The normalizer *)

(** C9. [normalize_text] is a function of its argument alone; it is
    idempotent; its result is the words of the text in lower case joined by
    single spaces, so it has no whitespace at either end, no whitespace but
    single spaces between words, and no upper-case letter; texts that differ
    in case and whitespace only, such as "  Pricing   PLAN " and
    "pricing plan", have the same normal form. *)
Theorem normalize_text_idempotent :
  (forall x, normalize_text (normalize_text x) = normalize_text x) /\
  (forall x, normalize_text x = join space (map lower (split x))) /\
  (forall x, tidy (normalize_text x) = true) /\
  (forall x, lower (normalize_text x) = normalize_text x) /\
  normalize_text (s2l "  Pricing   PLAN ") = normalize_text (s2l "pricing plan") /\
  normalize_text (s2l "  Pricing   PLAN ") = s2l "pricing plan".
Proof.
  assert (L : forall x, lower (normalize_text x) = normalize_text x).
  { intros x. unfold normalize_text.
    now rewrite lower_join, <- split_lower, lower_idem. }
  repeat split.
  - intros x. unfold normalize_text at 1. rewrite L.
    unfold normalize_text. now rewrite split_join by apply split_words.
  - intros x. unfold normalize_text. now rewrite split_lower.
  - intros x. apply tidy_join, split_words.
  - exact L.
Qed.

(** ** The command classifier *)

(** C1. On the four inputs of the specification the classifier returns
    [Back] for "go back", the section "pricing" for
    "show me the pricing section" and the raw text for "asdkjfh"; for
    "click sign up" it returns a navigation whose target is "sign", the
    first word only, and not "sign up": the lazy group of the navigation
    patterns ends at the first whitespace.  An unknown command always
    carries the raw input. *)
Theorem parse_user_command_examples :
  parse_user_command (s2l "go back") = Back /\
  parse_user_command (s2l "show me the pricing section")
    = Section_ (s2l "pricing") (s2l "pricing") /\
  parse_user_command (s2l "click sign up") = Navigation (s2l "sign") (s2l "sign") /\
  parse_user_command (s2l "click sign up")
    <> Navigation (s2l "sign up") (s2l "sign up") /\
  parse_user_command (s2l "asdkjfh") = Unknown (s2l "asdkjfh") /\
  (forall user_input,
     match parse_user_command user_input with
     | Unknown raw => raw = user_input
     | _ => True
     end).
Proof.
  repeat split; try (vm_compute; reflexivity).
  - vm_compute. discriminate.
  - intros user_input. unfold parse_user_command.
    destruct (first_special _ _) as [cmd|] eqn:E.
    + unfold special_commands in E. simpl in E.
      repeat match type of E with
             | (if ?b then _ else _) = _ => destruct b
             end; inversion E; exact I.
    + destruct (first_match section_patterns _); [exact I|].
      now destruct (first_match navigation_patterns _).
Qed.

(** C10. Whenever the normalized input contains one of the phrases of
    [Back], anywhere and also inside a longer word, the classifier returns
    [Back], whatever the section and navigation patterns would find. *)
Theorem back_phrase_wins (user_input phrase : str) :
  In phrase back_phrases ->
  str_in phrase (normalize_text user_input) = true ->
  parse_user_command user_input = Back.
Proof.
  intros Hin Hsub. unfold parse_user_command, special_commands.
  cbn [first_special].
  assert (E : existsb (fun p => str_in p (normalize_text user_input)) back_phrases
              = true).
  { apply existsb_exists. now exists phrase. }
  now rewrite E.
Qed.

Lemma back_phrase_wins_witness :
  In (s2l "back") back_phrases /\
  str_in (s2l "back") (normalize_text (s2l "go to the background section")) = true /\
  first_match section_patterns (normalize_text (s2l "go to the background section"))
    = Some (s2l "background") /\
  parse_user_command (s2l "go to the background section") = Back /\
  first_match navigation_patterns (normalize_text (s2l "show returns policy"))
    = Some (s2l "returns") /\
  parse_user_command (s2l "show returns policy") = Back.
Proof.
  split; [left; reflexivity|].
  split; [vm_compute; reflexivity|].
  split; [vm_compute; reflexivity|].
  split.
  - apply (@back_phrase_wins (s2l "go to the background section") (s2l "back")).
    + left; reflexivity.
    + vm_compute; reflexivity.
  - split; [vm_compute; reflexivity|].
    apply (@back_phrase_wins (s2l "show returns policy") (s2l "return")).
    + right; right; right; left; reflexivity.
    + vm_compute; reflexivity.
Defined.

(** ** The matcher *)

Lemma str_eqb_eq (a b : str) : str_eqb a b = true <-> a = b.
Proof. unfold str_eqb. destruct (str_eq_dec a b); split; congruence. Qed.

(** The order of the floats, as far as the matcher needs it. *)
Lemma float_lt_not_le (a b : float) :
  float_lt a b = true -> float_le b a = true -> False.
Proof.
  unfold float_lt, float_le, SpecFloat.SFltb, SpecFloat.SFleb.
  destruct a as [sa|sa| |sa ma ea], b as [sb|sb| |sb mb eb];
    cbn [SpecFloat.SFcompare];
    try destruct sa; try destruct sb; try discriminate.
  - rewrite (Z.compare_antisym ea eb).
    destruct (ea ?= eb)%Z; cbn [CompOpp]; try discriminate.
    rewrite !Pos.compare_cont_spec. cbn [Pos.switch_Eq].
    rewrite (Pos.compare_antisym ma mb).
    destruct (ma ?= mb)%positive; cbn [CompOpp]; discriminate.
  - rewrite (Z.compare_antisym ea eb).
    destruct (ea ?= eb)%Z; cbn [CompOpp]; try discriminate.
    rewrite !Pos.compare_cont_spec. cbn [Pos.switch_Eq].
    rewrite (Pos.compare_antisym ma mb).
    destruct (ma ?= mb)%positive; cbn [CompOpp]; discriminate.
Qed.

(** What is at or above a float above zero is above zero. *)
Lemma float_pos_le (a b : float) :
  float_lt float_zero a = true -> float_le a b = true ->
  float_lt float_zero b = true.
Proof.
  unfold float_lt, float_le, float_zero, SpecFloat.SFltb, SpecFloat.SFleb.
  destruct a as [sa|sa| |sa ma ea], b as [sb|sb| |sb mb eb];
    cbn [SpecFloat.SFcompare];
    try destruct sa; try destruct sb; try discriminate; reflexivity.
Qed.


Section BestMatch.

Variables (target : str) (threshold : float).

Let t := normalize_text target.

Lemma loop_exact (l1 l2 : list str) (c : str) bm bs :
  exact target c ->
  (forall x, In x l1 -> ~ exact target x) ->
  best_match_loop t threshold (l1 ++ c :: l2) bm bs = (Some c, float_one).
Proof.
  intros Hc. revert bm bs. induction l1 as [|x l1 IH]; intros bm bs Hl1.
  - cbn [app best_match_loop].
    assert (E : str_eqb t (normalize_text c) = true) by now apply str_eqb_eq.
    now rewrite E.
  - cbn [app best_match_loop].
    assert (E : str_eqb t (normalize_text x) = false).
    { destruct (str_eqb t (normalize_text x)) eqn:E; [|reflexivity].
      apply str_eqb_eq in E. exfalso. apply (Hl1 x); [now left | exact E]. }
    rewrite E.
    assert (Hl1' : forall y, In y l1 -> ~ exact target y).
    { intros y Hy. apply Hl1. now right. }
    destruct (set_of (split t)); [now apply IH|].
    destruct (_ && _); now apply IH.
Qed.

Lemma loop_no_words (l : list str) bm bs :
  (forall x, In x l -> ~ exact target x) ->
  target_words_of target = [] ->
  best_match_loop t threshold l bm bs = (bm, bs).
Proof.
  intros Hl Hw. induction l as [|x l IH]; [reflexivity|].
  cbn [best_match_loop].
  assert (E : str_eqb t (normalize_text x) = false).
  { destruct (str_eqb t (normalize_text x)) eqn:E; [|reflexivity].
    apply str_eqb_eq in E. exfalso. apply (Hl x); [now left | exact E]. }
  rewrite E. unfold target_words_of in Hw. fold t in Hw. rewrite Hw.
  apply IH. intros y Hy. apply Hl. now right.
Qed.

(** One turn of the loop on a candidate that is not an exact match. *)
Lemma loop_step (x : str) (l : list str) bm bs :
  ~ exact target x ->
  target_words_of target <> [] ->
  best_match_loop t threshold (x :: l) bm bs =
  if float_lt bs (score target x) && float_le threshold (score target x)
  then best_match_loop t threshold l (Some x) (score target x)
  else best_match_loop t threshold l bm bs.
Proof.
  intros Hx Hw. cbn [best_match_loop].
  assert (E : str_eqb t (normalize_text x) = false).
  { destruct (str_eqb t (normalize_text x)) eqn:E; [|reflexivity].
    apply str_eqb_eq in E. now exfalso. }
  rewrite E. unfold score, target_words_of in *. fold t in Hw |- *.
  destruct (set_of (split t)) eqn:W; [congruence|]. reflexivity.
Qed.

Lemma loop_keeps (l : list str) bm bs :
  (forall x, In x l -> ~ exact target x) ->
  target_words_of target <> [] ->
  (forall x, In x l ->
     ~ (float_lt bs (score target x) = true /\
        float_le threshold (score target x) = true)) ->
  best_match_loop t threshold l bm bs = (bm, bs).
Proof.
  intros Hl Hw. induction l as [|x l IH]; intros Hk; [reflexivity|].
  rewrite loop_step by (auto; apply Hl; now left).
  destruct (float_lt bs (score target x)) eqn:E1;
    destruct (float_le threshold (score target x)) eqn:E2; cbn [andb];
    try (apply IH; [intros y Hy; apply Hl; now right
                   |intros y Hy; apply Hk; now right]).
  exfalso. apply (Hk x); [now left|]. now split.
Qed.

Lemma loop_best (l1 l2 : list str) (c : str) bm bs :
  (forall x, In x (l1 ++ c :: l2) -> ~ exact target x) ->
  target_words_of target <> [] ->
  float_lt bs (score target c) = true ->
  float_le threshold (score target c) = true ->
  (forall x, In x l1 -> float_lt (score target x) (score target c) = true) ->
  (forall x, In x l2 -> float_le (score target x) (score target c) = true) ->
  best_match_loop t threshold (l1 ++ c :: l2) bm bs = (Some c, score target c).
Proof.
  intros Hne Hw. revert bm bs.
  induction l1 as [|x l1 IH]; intros bm bs Hbs Hth H1 H2.
  - cbn [app]. rewrite loop_step by (auto; apply Hne; now left).
    rewrite Hbs, Hth. cbn [andb].
    apply loop_keeps; auto.
    + intros y Hy. apply Hne. cbn [app]. now right.
    + intros y Hy [C _]. exact (float_lt_not_le _ _ C (H2 y Hy)).
  - cbn [app] in *. rewrite loop_step by (auto; apply Hne; now left).
    assert (Hne' : forall y, In y (l1 ++ c :: l2) -> ~ exact target y).
    { intros y Hy. apply Hne. now right. }
    assert (H1' : forall y, In y l1 ->
                  float_lt (score target y) (score target c) = true).
    { intros y Hy. apply H1. now right. }
    destruct (_ && _).
    + apply IH; auto. apply H1. now left.
    + apply IH; auto.
Qed.

End BestMatch.

(** C2, as the code has it.  If some candidate equals the target once both
    are normalized, the first such candidate is returned with score 1.0;
    otherwise the candidate with the highest word-overlap ratio is returned,
    the first one on ties, provided that ratio is at or above the threshold
    and greater than zero; when no candidate has such a ratio, or the target
    has no words, the result is no match and score 0.  The ratios are the
    floats the code holds and are compared as floats.  For "sign up" among
    "Sign Up Now" and "Log In" at threshold 0.5 the match is "Sign Up Now"
    with score 1.0; a candidate with one of ten target words is matched at
    threshold 0.1 with score 0.1. *)
Theorem find_best_match_spec :
  (forall target candidates threshold,
     best_match_spec (at_or_above_and_positive threshold) target candidates
       (find_best_match target candidates threshold)) /\
  find_best_match (s2l "sign up") [s2l "Sign Up Now"; s2l "Log In"] float_half
    = (Some (s2l "Sign Up Now"), float_one) /\
  find_best_match (s2l "xyz") [] float_half = (None, float_zero) /\
  find_best_match (s2l "a b c d e f g h i j") [s2l "a"] float_tenth
    = (Some (s2l "a"), float_tenth).
Proof.
  split; [|split; [|split]; vm_compute; reflexivity].
  intros target candidates threshold. unfold find_best_match. split.
  - intros l1 c l2 -> Hc Hl1. now apply loop_exact.
  - intros Hne. split.
    + intros l1 c l2 Hw -> [Hth Hpos] H1 H2. now apply loop_best.
    + intros [Hw | Hnone].
      * now apply loop_no_words.
      * destruct (target_words_of target) eqn:W.
        -- now apply loop_no_words.
        -- apply loop_keeps; auto; [congruence|].
           intros x Hx [C1 C2]. apply (Hnone x Hx). now split.
Qed.

(** C2 as the specification states it fails at threshold 0: "abc" shares
    no word with "xyz", its ratio 0 is at the threshold, and yet no match
    is returned. *)
Lemma find_best_match_zero_threshold :
  ~ best_match_spec (at_or_above float_zero) (s2l "xyz") [s2l "abc"]
      (find_best_match (s2l "xyz") [s2l "abc"] float_zero).
Proof.
  intros [_ H].
  assert (Hne : forall x, In x [s2l "abc"] -> ~ exact (s2l "xyz") x).
  { intros x [<-|[]]. vm_compute. discriminate. }
  destruct (H Hne) as [Hbest _].
  specialize (Hbest [] (s2l "abc") []).
  assert (E : find_best_match (s2l "xyz") [s2l "abc"] float_zero
              = (Some (s2l "abc"), score (s2l "xyz") (s2l "abc"))).
  { apply Hbest.
    - vm_compute. discriminate.
    - reflexivity.
    - vm_compute. reflexivity.
    - intros x [].
    - intros x []. }
  vm_compute in E. discriminate.
Qed.

(** For a threshold above zero the two readings of the threshold agree,
    and the specification holds as it is written. *)
Lemma find_best_match_positive_threshold (target : str)
    (candidates : list str) (threshold : float) :
  float_lt float_zero threshold = true ->
  best_match_spec (at_or_above threshold) target candidates
    (find_best_match target candidates threshold).
Proof.
  intros Hpos. unfold find_best_match, at_or_above. split.
  - intros l1 c l2 -> Hc Hl1. now apply loop_exact.
  - intros Hne. split.
    + intros l1 c l2 Hw -> Hth H1 H2. apply loop_best; auto.
      exact (float_pos_le _ _ Hpos Hth).
    + intros [Hw | Hnone].
      * now apply loop_no_words.
      * destruct (target_words_of target) eqn:W.
        -- now apply loop_no_words.
        -- apply loop_keeps; auto; [congruence|].
           intros x Hx [_ C2]. now apply (Hnone x Hx).
Qed.

(** ** The page extractor: headings *)

Lemma for_each_app (X S : Type) (l1 l2 : list X) (body : X -> S -> res S) (s : S) :
  for_each (l1 ++ l2) body s = let? s' := for_each l1 body s in for_each l2 body s'.
Proof.
  revert s. induction l1 as [|x l1 IH]; intros s; [reflexivity|].
  cbn [app for_each]. destruct (body x s); [apply IH | reflexivity].
Qed.

Lemma for_each_collect (X Y : Type) (keep : X -> bool) (f : X -> Y)
    (body : X -> list Y -> res (list Y)) (l : list X) (acc : list Y) :
  (forall x acc', In x l ->
     body x acc' = if keep x then Ok (acc' ++ [f x]) else Ok acc') ->
  for_each l body acc = Ok (acc ++ map f (filter keep l)).
Proof.
  revert acc. induction l as [|x l IH]; intros acc H.
  - cbn. now rewrite app_nil_r.
  - cbn [for_each filter]. rewrite H by now left.
    assert (H' : forall y acc', In y l ->
              body y acc' = if keep y then Ok (acc' ++ [f y]) else Ok acc').
    { intros y acc' Hy. apply H. now right. }
    destruct (keep x); cbn [res_bind].
    + rewrite IH by assumption. cbn [map]. now rewrite <- app_assoc.
    + now apply IH.
Qed.

Lemma named_heading_cases (n : node) :
  named heading_names n = true ->
  tag_name n = s2l "h1" \/ tag_name n = s2l "h2" \/ tag_name n = s2l "h3".
Proof.
  destruct n as [text|name attrs contents]; [discriminate|].
  cbn [named tag_name heading_names existsb].
  rewrite orb_false_r, !orb_true_iff, !str_eqb_eq. tauto.
Qed.

Lemma named_is_heading (n : node) : named heading_names n = is_heading n.
Proof.
  destruct n as [text|name attrs contents].
  - unfold is_heading. now rewrite andb_false_r.
  - cbn [named heading_names existsb is_heading tag_name].
    unfold is_heading, level_of_name. cbn [tag_name].
    destruct (str_eqb name (s2l "h1")); [reflexivity|].
    destruct (str_eqb name (s2l "h2")); [reflexivity|].
    now destruct (str_eqb name (s2l "h3")).
Qed.

Lemma heading_of_ok (n : node) :
  named heading_names n = true -> heading_of n = Ok (heading_entry n).
Proof.
  intros H. unfold heading_of, heading_entry.
  destruct (named_heading_cases n H) as [E|[E|E]]; rewrite E; reflexivity.
Qed.

Lemma filter_filter (A : Type) (f g : A -> bool) (l : list A) :
  filter f (filter g l) = filter (fun x => g x && f x) l.
Proof.
  induction l as [|x l IH]; [reflexivity|]. cbn [filter].
  destruct (g x); cbn [filter andb]; [destruct (f x)|]; now rewrite IH.
Qed.

Lemma extract_headings_eq (soup : node) :
  extract_headings soup = Ok (headings_in_order soup).
Proof.
  unfold extract_headings, headings_in_order, find_all.
  rewrite (@for_each_collect _ _
             (fun h => nonempty (strip (get_text h))) heading_entry).
  - cbn [app]. f_equal. rewrite filter_filter. f_equal.
    apply filter_ext. intros n. unfold shown_heading.
    now rewrite named_is_heading.
  - intros h acc Hin. apply filter_In in Hin as [_ Hn].
    unfold headings_step. destruct (nonempty _); [|reflexivity].
    now rewrite heading_of_ok.
Qed.

(** C8. For every document the extraction returns, as its headings, the
    tags [h1], [h2] and [h3] whose stripped text is not empty, in document
    order; every entry has level 1, 2 or 3 and a text; a tag of another
    name, [h4] and deeper included, or with no text, adds no entry. *)
Theorem extract_headings_in_order (soup : node) :
  extract_headings soup = Ok (headings_in_order soup) /\
  (forall l1 a l2 b l3,
     descendants soup = l1 ++ a :: l2 ++ b :: l3 ->
     shown_heading a = true -> shown_heading b = true ->
     exists hs1 hs2 hs3,
       headings_in_order soup
       = hs1 ++ heading_entry a :: hs2 ++ heading_entry b :: hs3) /\
  (forall h, In h (headings_in_order soup) ->
     (heading_level h = 1 \/ heading_level h = 2 \/ heading_level h = 3)%Z /\
     heading_text h <> []) /\
  (forall l1 n l2,
     descendants soup = l1 ++ n :: l2 ->
     shown_heading n = false ->
     headings_in_order soup
     = map heading_entry (filter shown_heading (l1 ++ l2))).
Proof.
  repeat split.
  - apply extract_headings_eq.
  - intros l1 a l2 b l3 E Ha Hb. unfold headings_in_order. rewrite E.
    exists (map heading_entry (filter shown_heading l1)),
           (map heading_entry (filter shown_heading l2)),
           (map heading_entry (filter shown_heading l3)).
    rewrite filter_app. cbn [filter]. rewrite Ha, filter_app. cbn [filter].
    rewrite Hb. now rewrite map_app, map_cons, map_app, map_cons.
  - unfold headings_in_order in H. apply in_map_iff in H as [n [<- Hn]].
    apply filter_In in Hn as [_ Hn]. unfold shown_heading, is_heading in Hn.
    apply andb_prop in Hn as [Hn _]. apply andb_prop in Hn as [Hn _].
    cbn [heading_entry heading_level]. unfold level_of_name in *.
    destruct (str_eqb _ (s2l "h1")); [now left|].
    destruct (str_eqb _ (s2l "h2")); [now right; left|].
    destruct (str_eqb _ (s2l "h3")); [now right; right|discriminate].
  - unfold headings_in_order in H. apply in_map_iff in H as [n [<- Hn]].
    apply filter_In in Hn as [_ Hn]. unfold shown_heading in Hn.
    apply andb_prop in Hn as [_ Hn]. cbn [heading_entry heading_text].
    now destruct (strip (get_text n)).
  - intros l1 n l2 E Hn. unfold headings_in_order. rewrite E.
    rewrite !filter_app. cbn [filter]. now rewrite Hn.
Qed.

Lemma extract_headings_in_order_witness :
  let h (name text : string) := Tag (s2l name) [] [NavigableString (s2l text)] in
  let soup :=
    Tag (s2l "[document]") []
      [h "h1" " One "; h "h4" "Deep"; h "h2" "  ";
       Tag (s2l "div") [] [h "h3" "Three"]; h "h2" "Two"]%string in
  extract_headings soup
  = Ok [ {| heading_text := s2l "One"; heading_level := 1; heading_id := [] |};
         {| heading_text := s2l "Three"; heading_level := 3; heading_id := [] |};
         {| heading_text := s2l "Two"; heading_level := 2; heading_id := [] |} ].
Proof.
  intros h soup.
  rewrite (proj1 (extract_headings_in_order soup)).
  vm_compute. reflexivity.
Defined.

(** ** The page extractor: sections *)

Lemma str_eqb_refl (a : str) : str_eqb a a = true.
Proof. now apply str_eqb_eq. Qed.

Lemma str_eqb_neq (a b : str) : str_eqb a b = false <-> a <> b.
Proof.
  unfold str_eqb. destruct (str_eq_dec a b); split; congruence.
Qed.

Lemma dict_has_In (k : str) (d : dict) :
  dict_has k d = true <-> In k (dict_keys d).
Proof.
  unfold dict_has, dict_keys. rewrite existsb_exists, in_map_iff. split.
  - intros [kv [Hin E]]. apply str_eqb_eq in E. now exists kv.
  - intros [kv [E Hin]]. exists kv. split; [exact Hin|]. now apply str_eqb_eq.
Qed.

Lemma dict_has_false (k : str) (d : dict) :
  dict_has k d = false <-> ~ In k (dict_keys d).
Proof.
  rewrite <- dict_has_In. now destruct (dict_has k d).
Qed.

Lemma dict_get_In (k : str) (d : dict) :
  In k (dict_keys d) -> exists l, dict_get k d = Ok l.
Proof.
  induction d as [|[k' v] d IH]; [intros []|]. cbn [dict_keys map fst In dict_get].
  intros H. destruct (str_eqb k k') eqn:E; [now exists v|].
  apply IH. destruct H as [H|H]; [|exact H].
  apply str_eqb_neq in E. congruence.
Qed.


Lemma dict_set_absent (k : str) (v : list str) (d : dict) :
  dict_has k d = false -> dict_set k v d = d ++ [(k, v)].
Proof.
  induction d as [|[k' v'] d IH]; [reflexivity|].
  unfold dict_has. cbn [existsb fst dict_set app].
  destruct (str_eqb k k'); [discriminate|]. cbn [orb].
  intros H. now rewrite IH.
Qed.

Lemma dict_keys_set_present (k : str) (v : list str) (d : dict) :
  In k (dict_keys d) -> dict_keys (dict_set k v d) = dict_keys d.
Proof.
  induction d as [|[k' v'] d IH]; [intros []|].
  cbn [dict_keys map fst In dict_set]. intros H.
  destruct (str_eqb k k') eqn:E; [reflexivity|].
  cbn [map fst]. f_equal. apply IH. destruct H as [H|H]; [|exact H].
  apply str_eqb_neq in E. congruence.
Qed.

Lemma dict_get_set_same (k : str) (v : list str) (d : dict) :
  dict_get k (dict_set k v d) = Ok v.
Proof.
  induction d as [|[k' v'] d IH]; cbn [dict_set dict_get].
  - now rewrite str_eqb_refl.
  - destruct (str_eqb k k') eqn:E; cbn [dict_get]; now rewrite E.
Qed.

Lemma dict_get_set_other (k k' : str) (v : list str) (d : dict) :
  k' <> k -> dict_get k' (dict_set k v d) = dict_get k' d.
Proof.
  intros Hne. induction d as [|[k0 v0] d IH]; cbn [dict_set dict_get].
  - apply str_eqb_neq in Hne. now rewrite Hne.
  - destruct (str_eqb k k0) eqn:E; cbn [dict_get].
    + apply str_eqb_eq in E. subst k0. apply str_eqb_neq in Hne.
      now rewrite Hne.
    + now rewrite IH.
Qed.

Lemma startswith_refl (s : str) : startswith s s = true.
Proof.
  induction s as [|c s IH]; [reflexivity|]. cbn [startswith].
  now rewrite Ascii.eqb_refl.
Qed.

Lemma str_in_refl (s : str) : str_in s s = true.
Proof. destruct s; cbn [str_in]; now rewrite startswith_refl. Qed.

Lemma container_not_heading (elem : node) :
  named container_names elem = true -> named heading_names elem = false.
Proof.
  destruct elem as [text|name attrs contents]; [discriminate|].
  cbn [named container_names heading_names existsb].
  rewrite orb_false_r, orb_true_iff, !str_eqb_eq.
  intros [-> | ->]; reflexivity.
Qed.

Lemma extends_refl (d : dict) : extends d d.
Proof. intros k l H. exists []. now rewrite app_nil_r. Qed.

Lemma extends_trans (d1 d2 d3 : dict) :
  extends d1 d2 -> extends d2 d3 -> extends d1 d3.
Proof.
  intros H12 H23 k l H. destruct (H12 k l H) as [m1 H1].
  destruct (H23 k _ H1) as [m2 H2]. exists (m1 ++ m2).
  now rewrite app_assoc.
Qed.

(** What one turn of the scan does on a heading. *)
Lemma main_text_step_heading (h : node) (cur : str) (d : dict) :
  named heading_names h = true ->
  main_text_step h (cur, d)
  = Ok (strip (get_text h),
        if dict_has (strip (get_text h)) d then d
        else d ++ [(strip (get_text h), [])]).
Proof.
  intros H. unfold main_text_step. rewrite H.
  destruct (dict_has _ d) eqn:E; [reflexivity|].
  now rewrite dict_set_absent.
Qed.

(** What one turn of the scan does on a paragraph or container. *)
Lemma main_text_step_container (elem : node) (cur : str) (d : dict)
    (existing : list str) :
  named container_names elem = true ->
  dict_get cur d = Ok existing ->
  main_text_step elem (cur, d)
  = Ok (cur,
        if nonempty (flat_text elem)
           && negb (existsb (fun entry => str_in (flat_text elem) entry) existing)
        then dict_set cur (existing ++ [flat_text elem]) d
        else d).
Proof.
  intros H G. unfold main_text_step.
  rewrite (container_not_heading _ H), H. fold (flat_text elem).
  destruct (nonempty (flat_text elem)); [|reflexivity].
  rewrite G. cbn [res_bind andb]. now destruct (negb _).
Qed.

Lemma main_text_step_other (elem : node) (st : scan_state) :
  named heading_names elem = false ->
  named container_names elem = false ->
  main_text_step elem st = Ok st.
Proof.
  intros H1 H2. unfold main_text_step. destruct st. now rewrite H1, H2.
Qed.

Lemma scan_inv_start : scan_inv (main_content, dict_set main_content [] []).
Proof.
  split; cbn [fst snd dict_set dict_keys map dict_get].
  - constructor; [intros [] | constructor].
  - now left.
  - now left.
  - intros k l. destruct (str_eqb k main_content); [|discriminate].
    intros [= <-]. constructor.
Qed.

Lemma dict_get_app_new (k t : str) (d : dict) (l : list str) :
  ~ In t (dict_keys d) ->
  dict_get k (d ++ [(t, [])]) = Ok l ->
  dict_get k d = Ok l \/ l = [].
Proof.
  intros Ht. induction d as [|[k0 v0] d IH]; cbn [app dict_get].
  - destruct (str_eqb k t); [|discriminate]. intros [= <-]. now right.
  - destruct (str_eqb k k0); [now left|]. apply IH.
    intros C. apply Ht. now right.
Qed.

Lemma dict_get_app_old (k t : str) (d : dict) (l v : list str) :
  dict_get k d = Ok l -> dict_get k (d ++ [(t, v)]) = Ok l.
Proof.
  induction d as [|[k0 v0] d IH]; [discriminate|]. cbn [app dict_get].
  destruct (str_eqb k k0); [trivial | exact IH].
Qed.

Lemma main_text_step_inv (elem : node) (st : scan_state) :
  scan_inv st ->
  exists st',
    main_text_step elem st = Ok st' /\ scan_inv st' /\ extends (snd st) (snd st').
Proof.
  destruct st as [cur d]. intros [Hk Hd Hc He]. cbn [fst snd] in *.
  destruct (named heading_names elem) eqn:Hh.
  - rewrite main_text_step_heading by assumption.
    eexists. split; [reflexivity|].
    destruct (dict_has (strip (get_text elem)) d) eqn:E; cbn [fst snd].
    + split; [|apply extends_refl].
      split; cbn [fst snd]; auto. now apply dict_has_In.
    + apply dict_has_false in E. split.
      * split; cbn [fst snd]; unfold dict_keys in *; rewrite ?map_app.
        -- apply NoDup_app; [exact Hk | repeat constructor; intros [] |].
           intros x Hx [<-|[]]. now apply E.
        -- apply in_or_app. now left.
        -- apply in_or_app. right. now left.
        -- intros k l G. apply dict_get_app_new in G as [G| ->]; eauto.
           constructor.
      * intros k l G. exists []. rewrite app_nil_r.
        now apply dict_get_app_old.
  - destruct (named container_names elem) eqn:Hp.
    + destruct (dict_get_In _ _ Hc) as [existing G].
      rewrite main_text_step_container with (existing := existing)
        by assumption.
      eexists. split; [reflexivity|].
      destruct (nonempty (flat_text elem)
                && negb (existsb (fun entry => str_in (flat_text elem) entry)
                           existing)) eqn:E; cbn [fst snd].
      * apply andb_prop in E as [_ E]. apply negb_true_iff in E.
        split.
        -- split; cbn [fst snd].
           ++ now rewrite dict_keys_set_present.
           ++ now rewrite dict_keys_set_present.
           ++ now rewrite dict_keys_set_present.
           ++ intros k l. destruct (str_eq_dec k cur) as [->|Hne].
              ** rewrite dict_get_set_same. intros [= <-].
                 apply NoDup_app; [now apply (He cur) | repeat constructor; intros [] |].
                 intros x Hx [<-|[]].
                 assert (C : existsb (fun entry => str_in (flat_text elem) entry)
                               existing = true).
                 { apply existsb_exists. exists (flat_text elem).
                   split; [exact Hx | apply str_in_refl]. }
                 congruence.
              ** rewrite dict_get_set_other by assumption. apply He.
        -- intros k l Gk. destruct (str_eq_dec k cur) as [->|Hne].
           ++ rewrite dict_get_set_same. exists [flat_text elem]. congruence.
           ++ rewrite dict_get_set_other by assumption. exists [].
              now rewrite app_nil_r.
      * split; [now split | apply extends_refl].
    + rewrite main_text_step_other by assumption.
      eexists. split; [reflexivity|]. split; [now split | apply extends_refl].
Qed.

Lemma for_each_scan_inv (elems : list node) (st : scan_state) :
  scan_inv st ->
  exists st',
    for_each elems main_text_step st = Ok st' /\ scan_inv st' /\
    extends (snd st) (snd st').
Proof.
  revert st. induction elems as [|e elems IH]; intros st Hst.
  - exists st. split; [reflexivity | split; [exact Hst | apply extends_refl]].
  - destruct (main_text_step_inv e Hst) as [st1 [E1 [I1 X1]]].
    destruct (IH st1 I1) as [st2 [E2 [I2 X2]]].
    exists st2. cbn [for_each]. rewrite E1. cbn [res_bind].
    split; [exact E2 | split; [exact I2 | now apply (extends_trans X1)]].
Qed.

Lemma scan_sections_inv (elems : list node) :
  exists st, scan_sections elems = Ok st /\ scan_inv st.
Proof.
  destruct (for_each_scan_inv elems scan_inv_start) as [st [E [I _]]].
  now exists st.
Qed.

Lemma for_each_total (X S : Type) (body : X -> S -> res S) (l : list X) (s : S) :
  (forall x s0, exists s1, body x s0 = Ok s1) ->
  exists s', for_each l body s = Ok s'.
Proof.
  intros H. revert s. induction l as [|x l IH]; intros s.
  - now exists s.
  - destruct (H x s) as [s1 E]. cbn [for_each]. rewrite E. apply IH.
Qed.

Lemma extract_images_total (url : str) (soup : node) :
  exists imgs, extract_images (Some url) soup = Ok imgs.
Proof.
  apply for_each_total. intros [img up] acc. unfold images_step.
  destruct (nonempty _); [|now eexists].
  destruct (is_absolute _); now eexists.
Qed.

Lemma extract_main_text_inv (soup : node) :
  exists st,
    scan_sections (find_all block_names soup) = Ok st /\
    extract_main_text soup = Ok (snd st) /\ scan_inv st.
Proof.
  destruct (scan_sections_inv (find_all block_names soup)) as [st [E I]].
  exists st. unfold extract_main_text. now rewrite E.
Qed.

(** C6. For every document the page content has a section "Main Content",
    its paragraph list empty when nothing falls under it; the section keys
    are pairwise different; and a heading met during the scan adds a
    section, empty and after the others, only when no section has its
    title yet, and otherwise leaves the sections as they are. *)
Theorem main_content_always (soup : node) :
  (exists sections,
     extract_main_text soup = Ok sections /\
     In main_content (dict_keys sections) /\
     NoDup (dict_keys sections) /\
     (forall current_url page_title,
        match extract_page_content current_url page_title soup with
        | Ok c => main_text c = sections
        | Raise _ => True
        end) /\
     (forall url page_title,
        exists c, extract_page_content (Some url) page_title soup = Ok c /\
                  main_text c = sections)) /\
  (forall h cur d,
     named heading_names h = true ->
     main_text_step h (cur, d)
     = Ok (strip (get_text h),
           if dict_has (strip (get_text h)) d then d
           else d ++ [(strip (get_text h), [])])) /\
  extract_main_text (Tag (s2l "[document]") [] []) = Ok [(main_content, [])].
Proof.
  split; [|split; [apply main_text_step_heading | reflexivity]].
  destruct (extract_main_text_inv soup) as [[cur d] [_ [E [Hk Hd _ _]]]].
  cbn [fst snd] in *. exists d. repeat split; auto.
  - intros current_url page_title. unfold extract_page_content.
    rewrite extract_headings_eq. cbn [res_bind].
    destruct (extract_images _ _); [|exact I]. cbn [res_bind].
    now rewrite E.
  - intros url page_title. unfold extract_page_content.
    rewrite extract_headings_eq. cbn [res_bind].
    destruct (extract_images_total url soup) as [imgs Ei]. rewrite Ei, E.
    cbn [res_bind]. now eexists.
Qed.

Lemma main_content_always_witness :
  let h2 (t : string) := Tag (s2l "h2") [] [NavigableString (s2l t)] in
  let p (t : string) := Tag (s2l "p") [] [NavigableString (s2l t)] in
  let soup :=
    Tag (s2l "[document]") [] [h2 "Plans"; p "Free"; h2 "Team"; h2 "Plans"; p "Paid"]%string in
  named heading_names (h2 "Plans"%string) = true /\
  main_text_step (h2 "Plans"%string) (s2l "Team", [(main_content, []); (s2l "Plans", [s2l "Free"]); (s2l "Team", [])])
  = Ok (s2l "Plans", [(main_content, []); (s2l "Plans", [s2l "Free"]); (s2l "Team", [])]) /\
  extract_main_text soup
  = Ok [(main_content, []); (s2l "Plans", [s2l "Free"; s2l "Paid"]); (s2l "Team", [])].
Proof.
  intros h2 p soup. split; [reflexivity|]. split.
  - rewrite (proj1 (proj2 (main_content_always soup)) (h2 "Plans"%string))
      by reflexivity.
    vm_compute. reflexivity.
  - vm_compute. reflexivity.
Defined.

(** C5, as the code has it.  The flattened text of a paragraph or
    container is appended to the current section only if it is not empty
    and no entry of that section contains it.  So when two nested
    containers yield the same text under one section, that section has at
    most one entry equal to that text, and exactly one if the text is not
    empty and no entry the section had when the outer container was reached
    contains it. *)
Theorem nested_containers_one_entry (soup : node) (l1 : list node)
    (outer : node) (l2 : list node) (inner : node) (l3 : list node)
    (cur : str) (d : dict) :
  nested_same_text soup l1 outer l2 inner l3 cur d ->
  exists existing n,
    dict_get cur d = Ok existing /\
    scan_sections (l1 ++ [outer])
    = Ok (cur,
          if nonempty (flat_text outer)
             && negb (existsb (fun entry => str_in (flat_text outer) entry)
                        existing)
          then dict_set cur (existing ++ [flat_text outer]) d
          else d) /\
    entries_equal soup cur (flat_text outer) = Ok n /\
    (n <= 1)%nat /\
    (flat_text outer <> [] ->
     (forall e, In e existing -> str_in (flat_text outer) e = false) ->
     n = 1%nat).
Proof.
  intros [Hall [Hout [_ [_ [_ [Hscan _]]]]]].
  set (rest := l2 ++ inner :: l3) in Hall.
  destruct (scan_sections_inv l1) as [st0 [E0 I0]].
  rewrite Hscan in E0. injection E0 as <-.
  destruct (dict_get_In _ _ (inv_current I0)) as [existing G].
  cbn [fst snd] in G.
  assert (Hstep := main_text_step_container outer cur d Hout G).
  destruct (main_text_step_inv outer I0) as [st1 [E1 [I1 X1]]].
  rewrite Hstep in E1. injection E1 as E1.
  destruct (for_each_scan_inv rest I1) as [st2 [E2 [I2 X2]]].
  assert (Hfull : scan_sections (l1 ++ outer :: rest) = Ok st2).
  { unfold scan_sections in *. rewrite for_each_app, Hscan. cbn [res_bind for_each].
    rewrite Hstep. cbn [res_bind]. now rewrite E1. }
  assert (Hone : scan_sections (l1 ++ [outer]) = Ok st1).
  { unfold scan_sections in *. rewrite for_each_app, Hscan. cbn [res_bind for_each].
    rewrite Hstep. cbn [res_bind]. now rewrite E1. }
  assert (G1 : exists l, dict_get cur (snd st1) = Ok l /\
             (nonempty (flat_text outer)
              && negb (existsb (fun entry => str_in (flat_text outer) entry)
                         existing) = true -> In (flat_text outer) l)).
  { rewrite <- E1. cbn [snd]. destruct (_ && _).
    - rewrite dict_get_set_same. eexists. split; [reflexivity|].
      intros _. apply in_or_app. right. now left.
    - exists existing. split; [exact G | discriminate]. }
  destruct G1 as [l [Gl Hl]].
  destruct (X2 _ _ Gl) as [more G2].
  exists existing, (count_occ str_eq_dec (l ++ more) (flat_text outer)).
  split; [exact G|]. split; [now rewrite Hone, <- E1|].
  assert (Hnd : NoDup (l ++ more)) by exact (inv_entries I2 _ G2).
  split; [|split].
  - unfold entries_equal, extract_main_text. rewrite Hall, Hfull.
    cbn [res_bind]. now rewrite G2.
  - now apply NoDup_count_occ.
  - intros Hne Hnone.
    assert (Hin : In (flat_text outer) (l ++ more)).
    { apply in_or_app. left. apply Hl. apply andb_true_intro. split.
      - now destruct (flat_text outer).
      - apply negb_true_iff.
        destruct (existsb _ existing) eqn:C; [|reflexivity].
        apply existsb_exists in C as [e [He Ce]].
        rewrite (Hnone e He) in Ce. discriminate. }
    apply (count_occ_In str_eq_dec) in Hin.
    pose proof (proj1 (NoDup_count_occ str_eq_dec _) Hnd (flat_text outer)).
    lia.
Qed.

Lemma nested_containers_one_entry_witness :
  let inner := Tag (s2l "div") [] [Tag (s2l "p") [] [NavigableString (s2l " Hello ")];
                                   NavigableString (s2l "world")] in
  let outer := Tag (s2l "div") [] [inner] in
  let h := Tag (s2l "h2") [] [NavigableString (s2l "News")] in
  let soup := Tag (s2l "[document]") [] [h; outer] in
  nested_same_text soup [h] outer [] inner [Tag (s2l "p") [] [NavigableString (s2l " Hello ")]]
    (s2l "News") [(main_content, []); (s2l "News", [])] /\
  entries_equal soup (s2l "News") (s2l "Hello world") = Ok 1%nat /\
  extract_main_text soup
  = Ok [(main_content, []); (s2l "News", [s2l "Hello world"])].
Proof.
  intros inner outer h soup.
  assert (N : nested_same_text soup [h] outer [] inner
                [Tag (s2l "p") [] [NavigableString (s2l " Hello ")]]
                (s2l "News") [(main_content, []); (s2l "News", [])]).
  { repeat split; try (vm_compute; reflexivity).
    - left. reflexivity.
    - eexists. vm_compute. reflexivity. }
  split; [exact N|]. split; [|vm_compute; reflexivity].
  destruct (nested_containers_one_entry N) as [existing [n [G [_ [E [_ H1]]]]]].
  replace (s2l "Hello world") with (flat_text outer)
    by (vm_compute; reflexivity).
  rewrite E. f_equal. apply H1.
  - vm_compute. discriminate.
  - vm_compute in G. injection G as <-. intros e [].
Defined.

(** C5 as the specification states it fails: the paragraph "A B" comes
    first, so neither of the two nested containers with text "B" is
    recorded, and the section has no entry equal to "B". *)
Lemma nested_containers_no_entry :
  ~ nested_dedup_claim
      (Tag (s2l "[document]") []
         [Tag (s2l "p") [] [NavigableString (s2l "A B")];
          Tag (s2l "div") [] [Tag (s2l "div") [] [NavigableString (s2l "B")]]]).
Proof.
  intros C.
  specialize (C [Tag (s2l "p") [] [NavigableString (s2l "A B")]]
                (Tag (s2l "div") [] [Tag (s2l "div") [] [NavigableString (s2l "B")]])
                []
                (Tag (s2l "div") [] [NavigableString (s2l "B")])
                []
                main_content
                [(main_content, [s2l "A B"])]).
  assert (E : entries_equal
                (Tag (s2l "[document]") []
                   [Tag (s2l "p") [] [NavigableString (s2l "A B")];
                    Tag (s2l "div") [] [Tag (s2l "div") [] [NavigableString (s2l "B")]]])
                main_content
                (flat_text (Tag (s2l "div") [] [Tag (s2l "div") [] [NavigableString (s2l "B")]]))
              = Ok 1%nat).
  { apply C. repeat split; try (vm_compute; reflexivity).
    - left. reflexivity.
    - eexists. vm_compute. reflexivity. }
  vm_compute in E. discriminate.
Qed.

(** ** The session *)

Lemma extract_page_content_returns (url page_title : str) (soup : node) :
  exists c, extract_page_content (Some url) page_title soup = Ok c.
Proof.
  unfold extract_page_content. rewrite extract_headings_eq. cbn [res_bind].
  destruct (extract_images_total url soup) as [imgs Ei]. rewrite Ei.
  destruct (extract_main_text_inv soup) as [st [_ [E _]]]. rewrite E.
  cbn [res_bind]. now eexists.
Qed.

Section SessionFacts.

Context {env : Env}.

Lemma probe_eq (p : by_ * str) (a : agent) (w : World) :
  probe p (a, w)
  = match wait_clickable (fst p) (snd p) w with
    | (Ok e, w1) => (Ok (Some e), (a, w1))
    | (Raise _, w1) => (Ok None, (a, w1))
    end.
Proof.
  unfold probe, try_, call. cbn [fst snd].
  now destruct (wait_clickable (fst p) (snd p) w) as [[e|x] w1].
Qed.

Lemma cascade_cons (p : by_ * str) (rest : list (by_ * str)) (a : agent)
    (w : World) :
  cascade (p :: rest) (a, w)
  = match wait_clickable (fst p) (snd p) w with
    | (Ok e, w1) => (Ok (Some e), (a, w1))
    | (Raise _, w1) => cascade rest (a, w1)
    end.
Proof.
  cbn [cascade]. unfold bind. rewrite probe_eq.
  now destruct (wait_clickable (fst p) (snd p) w) as [[e|x] w1].
Qed.

Lemma cascade_returns (probes : list (by_ * str)) (a : agent) (w : World) :
  exists found w', cascade probes (a, w) = (Ok found, (a, w')).
Proof.
  revert w. induction probes as [|p rest IH]; intros w.
  - now exists None, w.
  - rewrite cascade_cons.
    destruct (wait_clickable (fst p) (snd p) w) as [[e|x] w1].
    + now exists (Some e), w1.
    + apply IH.
Qed.

Lemma find_and_click_element_cascade (target_text : str) (s : agent * World) :
  find_and_click_element target_text s = cascade (strategies target_text) s.
Proof.
  destruct s as [a w]. unfold strategies. rewrite !cascade_cons.
  unfold find_and_click_element, catch, bind. rewrite probe_eq. cbn [fst snd].
  destruct (wait_clickable LINK_TEXT target_text w) as [[e|x] w1];
    [reflexivity|].
  rewrite probe_eq, cascade_cons. cbn [fst snd].
  destruct (wait_clickable PARTIAL_LINK_TEXT target_text w1) as [[e|x2] w2];
    [reflexivity|].
  rewrite probe_eq, cascade_cons. cbn [fst snd].
  destruct (wait_clickable XPATH (xpath_by_text target_text) w2) as [[e|x3] w3];
    [reflexivity|].
  rewrite probe_eq, cascade_cons. cbn [fst snd].
  now destruct (wait_clickable XPATH (xpath_by_label target_text) w3)
    as [[e|x4] w4].
Qed.


Lemma same_session_refl (a : agent) : same_session a a.
Proof. now repeat split. Qed.


Lemma same_session_status (v : option Message) (a : agent) :
  same_session a (set_status_message v a).
Proof. now repeat split. Qed.

(** [set_status] writes the status message and nothing else; when it
    raises it has written nothing. *)
Lemma set_status_frame (channel : Channel) (message : str) (a a' : agent)
    (w w' : World) (r : res unit) :
  set_status channel message (a, w) = (r, (a', w')) ->
  same_session a a' /\
  match r with
  | Ok _ => exists m, status_message a' = Some m
  | Raise _ => a' = a
  end.
Proof.
  unfold set_status, bind, get, modify, try_, call, ret. cbn [fst snd].
  destruct (status_message a) as [m0|]; cbn [fst snd].
  - destruct (message_delete m0 w) as [[[]|x] w1]; cbn [fst snd];
      match goal with
      | |- context [channel_send ?c ?t ?v] =>
          destruct (channel_send c t v) as [[m|x'] w2]
      end;
      intros [= <- <- <-]; split;
      try apply same_session_status; try apply same_session_refl;
      try (now eexists); reflexivity.
  - match goal with
    | |- context [channel_send ?c ?t ?v] =>
        destruct (channel_send c t v) as [[m|x'] w2]
    end;
      intros [= <- <- <-]; split;
      try apply same_session_status; try apply same_session_refl;
      try (now eexists); reflexivity.
Qed.

(** [clear_status] always returns, and leaves no status message. *)
Lemma clear_status_returns (a : agent) (w : World) :
  exists w', clear_status (a, w) = (Ok tt, (set_status_message None a, w')) \/
             (status_message a = None /\ clear_status (a, w) = (Ok tt, (a, w'))).
Proof.
  unfold clear_status, bind, get, modify, try_, call, ret. cbn [fst snd].
  destruct (status_message a) as [m0|]; cbn [fst snd].
  - destruct (message_delete m0 w) as [[[]|x] w1]; cbn [fst snd];
      exists w1; now left.
  - exists w. now right.
Qed.

Lemma clear_status_frame (a : agent) (w : World) :
  exists a' w',
    clear_status (a, w) = (Ok tt, (a', w')) /\
    same_session a a' /\ status_message a' = None.
Proof.
  destruct (clear_status_returns a w) as [w' [E | [N E]]].
  - exists (set_status_message None a), w'.
    split; [exact E|]. split; [apply same_session_status | reflexivity].
  - exists a, w'. split; [exact E|]. split; [apply same_session_refl | exact N].
Qed.

(** [extract_page] reads the world and writes nothing in the agent. *)
Lemma extract_page_frame (a a' : agent) (w w' : World) (r : res page_content) :
  extract_page (a, w) = (r, (a', w')) ->
  a' = a /\
  match r with
  | Ok c =>
      exists page_title soup,
        extract_page_content (current_url a) page_title soup = Ok c
  | Raise _ => True
  end.
Proof.
  unfold extract_page, bind, get, call, of_res. cbn [fst snd].
  destruct (driver_page_source w) as [[soup|x] w1]; cbn [fst snd];
    [|now intros [= <- <- <-]].
  destruct (driver_title w1) as [[t|x] w2]; cbn [fst snd];
    [|now intros [= <- <- <-]].
  intros [= <- <- <-]. split; [reflexivity|].
  destruct (extract_page_content (current_url a) t soup) eqn:E; [|exact I].
  now exists t, soup.
Qed.


Lemma pop_snoc (A : Type) (h : list A) (u : A) : pop (h ++ [u]) = Ok (u, h).
Proof. unfold pop. rewrite rev_app_distr. cbn. now rewrite rev_involutive. Qed.

Lemma find_and_click_element_returns (target : str) (a : agent) (w : World) :
  exists found w', find_and_click_element target (a, w) = (Ok found, (a, w')).
Proof. rewrite find_and_click_element_cascade. apply cascade_returns. Qed.

Lemma bind_eq (A B : Type) (c : M A) (k : A -> M B) (s : agent * World) :
  bind c k s
  = match c s with
    | (Ok a, s') => k a s'
    | (Raise e, s') => (Raise e, s')
    end.
Proof. reflexivity. Qed.

Lemma get_eq (a : agent) (w : World) : get (a, w) = (Ok a, (a, w)).
Proof. reflexivity. Qed.

Lemma modify_eq (f : agent -> agent) (a : agent) (w : World) :
  modify f (a, w) = (Ok tt, (f a, w)).
Proof. reflexivity. Qed.

Lemma call_eq (A : Type) (op : World -> res A * World) (a : agent) (w : World) :
  call op (a, w) = (fst (op w), (a, snd (op w))).
Proof. unfold call. cbn [fst snd]. now destruct (op w). Qed.

Lemma call_total_eq (A : Type) (op : World -> A * World) (a : agent) (w : World) :
  call_total op (a, w) = (Ok (fst (op w)), (a, snd (op w))).
Proof. unfold call_total. cbn [fst snd]. now destruct (op w). Qed.

(** Every way [click_link] can end. *)
Lemma click_link_outcome (channel : Channel) (target : str) (a a1 : agent)
    (w w1 : World) (r : res str) :
  click_link channel target (a, w) = (r, (a1, w1)) ->
  (current_page_content a = None /\ r = Ok no_page_loaded /\ a1 = a) \/
  (exists w', find_and_click_element target (a, w) = (Ok None, (a, w')) /\
              r = Ok (link_not_found target) /\ a1 = a) \/
  (exists e w', find_and_click_element target (a, w) = (Ok (Some e), (a, w')) /\
     ((exists x, r = Raise x /\ same_session a a1) \/
      (navigation_history a1 = navigation_history a ++ [current_url a] /\
       conversation_history a1 = conversation_history a /\
       current_section a1 = current_section a /\
       match r with
       | Ok _ => (exists c, current_page_content a1 = Some c) /\
                 (exists u, current_url a1 = Some u)
       | Raise _ => True
       end))).
Proof.
  unfold click_link. rewrite bind_eq, get_eq.
  destruct (current_page_content a) as [page|] eqn:P.
  2:{ intros [= <- <- <-]. now left. }
  rewrite bind_eq.
  destruct (find_and_click_element_returns target a w) as [found [w' F]].
  rewrite F. destruct found as [e|].
  2:{ intros [= <- <- <-]. right. left. now exists w'. }
  rewrite bind_eq.
  match goal with
  | |- context [set_status ?c ?m ?s] =>
      destruct (set_status c m s) as [[[]|x] [a2 w2]] eqn:S
  end; apply set_status_frame in S as [S1 S2].
  2:{ intros [= <- <- <-]. right. right. exists e, w'.
      split; [reflexivity|]. left. now exists x. }
  rewrite bind_eq, call_eq.
  destruct (element_click e w2) as [[[]|x] w3]; cbn [fst snd].
  2:{ intros [= <- <- <-]. right. right. exists e, w'.
      split; [reflexivity|]. left. now exists x. }
  destruct S1 as [U [Pg [Cv [Nv Sc]]]].
  intros H. right. right. exists e, w'. split; [reflexivity|]. right.
  revert H. rewrite bind_eq, modify_eq, bind_eq.
  match goal with
  | |- context [extract_page ?s] =>
      destruct (extract_page s) as [[c|x] [a4 w4]] eqn:X
  end; apply extract_page_frame in X as [-> _].
  2:{ intros [= <- <- <-]. cbn. now rewrite Nv, U, Cv, Sc. }
  rewrite bind_eq, modify_eq, bind_eq, call_eq.
  destruct (driver_current_url w4) as [[u|x] w5]; cbn [fst snd].
  2:{ intros [= <- <- <-]. cbn. now rewrite Nv, U, Cv, Sc. }
  rewrite bind_eq, modify_eq, call_total_eq.
  intros [= <- <- <-]. cbn. rewrite Nv, U, Cv, Sc.
  repeat split; now eexists.
Qed.


(** [go_back] with nothing in the history answers at once and touches
    nothing. *)
Lemma go_back_empty (channel : Channel) (a : agent) (w : World) :
  navigation_history a = [] ->
  go_back channel (a, w) = (Ok first_page_reply, (a, w)).
Proof.
  intros H. unfold go_back. rewrite bind_eq, get_eq. now rewrite H.
Qed.

(** [go_back], when it returns, has popped the history into the current
    address. *)
Lemma go_back_outcome (channel : Channel) (a a2 : agent) (w w2 : World)
    (h : list (option str)) (u : option str) (reply : str) :
  navigation_history a = h ++ [u] ->
  go_back channel (a, w) = (Ok reply, (a2, w2)) ->
  current_url a2 = u /\
  navigation_history a2 = h /\
  (exists c, current_page_content a2 = Some c) /\
  conversation_history a2 = conversation_history a /\
  current_section a2 = current_section a.
Proof.
  intros Hh. unfold go_back. rewrite bind_eq, get_eq, Hh.
  destruct (h ++ [u]) as [|x0 t0] eqn:E0.
  { now destruct h. }
  rewrite bind_eq.
  match goal with
  | |- context [set_status ?c ?m ?s] =>
      destruct (set_status c m s) as [[[]|x] [a1 w1]] eqn:S
  end; apply set_status_frame in S as [[U [Pg [Cv [Nv Sc]]]] _];
    [|discriminate].
  rewrite bind_eq, call_eq.
  destruct (driver_back w1) as [[[]|x] w1']; cbn [fst snd]; [|discriminate].
  rewrite bind_eq, get_eq, bind_eq. unfold of_res at 1.
  rewrite Nv, Hh, <- E0, pop_snoc. rewrite bind_eq, modify_eq. cbn [fst snd].
  rewrite bind_eq.
  match goal with
  | |- context [extract_page ?s] =>
      destruct (extract_page s) as [[c|x] [a4 w4]] eqn:X
  end; apply extract_page_frame in X as [-> _]; [|discriminate].
  rewrite bind_eq, modify_eq, call_total_eq.
  intros [= <- <- <-]. cbn. rewrite Cv, Sc. repeat split. now eexists.
Qed.

(** [navigate_to_url] never raises; it leaves no status message, and the
    history, the section and the conversation as they were; when it returns
    the page, the address and the page are the new ones. *)
Lemma navigate_to_url_outcome (channel : Channel) (url : str) (a a1 : agent)
    (w w1 : World) (r : res (page_content + str)) :
  navigate_to_url channel url (a, w) = (r, (a1, w1)) ->
  exists out,
    r = Ok out /\
    status_message a1 = None /\
    navigation_history a1 = navigation_history a /\
    current_section a1 = current_section a /\
    conversation_history a1 = conversation_history a /\
    match out with
    | inl content =>
        current_url a1 = Some (with_scheme url) /\
        current_page_content a1 = Some content
    | inr _ => True
    end.
Proof.
  unfold navigate_to_url, catch.
  match goal with
  | |- context [bind ?c ?k (a, w)] =>
      destruct (bind c k (a, w)) as [[out|x] [a3 w3]] eqn:B
  end.
  - (* the body returned *)
    revert B. rewrite bind_eq.
    match goal with
    | |- context [set_status ?c ?m ?s] =>
        destruct (set_status c m s) as [[[]|x] [a2 w2]] eqn:S
    end; apply set_status_frame in S as [[U [Pg [Cv [Nv Sc]]]] _];
      [|discriminate].
    rewrite bind_eq, call_eq.
    destruct (driver_get (with_scheme url) w2) as [[[]|x] w2']; cbn [fst snd];
      [|discriminate].
    rewrite bind_eq, modify_eq, bind_eq.
    match goal with
    | |- context [set_status ?c ?m ?s] =>
        destruct (set_status c m s) as [[[]|x] [a4 w4]] eqn:S'
    end; apply set_status_frame in S' as [[U' [Pg' [Cv' [Nv' Sc']]]] _];
      [|discriminate].
    cbn in U', Pg', Cv', Nv', Sc'.
    rewrite bind_eq.
    destruct (extract_page (a4, w4)) as [[c|x] [a5 w5]] eqn:X;
      apply extract_page_frame in X as [-> _]; [|discriminate].
    rewrite bind_eq, modify_eq, bind_eq.
    destruct (clear_status_frame (set_current_page_content (Some c) a4) w5)
      as [a6 [w6 [C [[U6 [Pg6 [Cv6 [Nv6 Sc6]]]] N6]]]].
    rewrite C. unfold ret. intros [= <- <- <-] [= <- <- <-].
    exists (inl c). cbn in U6, Pg6, Cv6, Nv6, Sc6.
    repeat split; congruence.
  - (* the body raised: the handler *)
    assert (F : same_session a a3 \/
                (navigation_history a3 = navigation_history a /\
                 current_section a3 = current_section a /\
                 conversation_history a3 = conversation_history a)).
    { right. revert B. rewrite bind_eq.
      match goal with
      | |- context [set_status ?c ?m ?s] =>
          destruct (set_status c m s) as [[[]|x0] [a2 w2]] eqn:S
      end; apply set_status_frame in S as [[U [Pg [Cv [Nv Sc]]]] _].
      2:{ intros [= <- <- <-]. now repeat split. }
      rewrite bind_eq, call_eq.
      destruct (driver_get (with_scheme url) w2) as [[[]|x0] w2'];
        cbn [fst snd].
      2:{ intros [= <- <- <-]. now repeat split. }
      rewrite bind_eq, modify_eq, bind_eq.
      match goal with
      | |- context [set_status ?c ?m ?s] =>
          destruct (set_status c m s) as [[[]|x0] [a4 w4]] eqn:S'
      end; apply set_status_frame in S' as [[U' [Pg' [Cv' [Nv' Sc']]]] _];
        cbn in U', Pg', Cv', Nv', Sc'.
      2:{ intros [= <- <- <-]. repeat split; congruence. }
      rewrite bind_eq.
      destruct (extract_page (a4, w4)) as [[c|x0] [a5 w5]] eqn:X;
        apply extract_page_frame in X as [-> _].
      2:{ intros [= <- <- <-]. repeat split; congruence. }
      rewrite bind_eq, modify_eq, bind_eq.
      destruct (clear_status_frame (set_current_page_content (Some c) a4) w5)
        as [a6 [w6 [C _]]].
      rewrite C. unfold ret. discriminate. }
    rewrite bind_eq.
    destruct (clear_status_frame a3 w3)
      as [a6 [w6 [C [[U6 [Pg6 [Cv6 [Nv6 Sc6]]]] N6]]]].
    rewrite C. unfold ret. intros [= <- <- <-].
    eexists (inr _). split; [reflexivity|].
    destruct F as [[_ [_ [Cv [Nv Sc]]]] | [Nv [Sc Cv]]];
      repeat split; congruence.
Qed.


Lemma set_status_returns (channel : Channel) (message : str) (a : agent)
    (w : World) :
  reliable env ->
  exists a' w', set_status channel message (a, w) = (Ok tt, (a', w')).
Proof.
  intros [_ [_ [_ [_ [_ [_ Hsend]]]]]].
  unfold set_status. rewrite bind_eq, get_eq.
  destruct (status_message a) as [m0|]; rewrite bind_eq.
  - unfold try_. rewrite call_eq. cbn [fst snd].
    destruct (Hsend channel (pict_refresh ++ space ++ message)
                (snd (message_delete m0 w))) as [m [w' E]].
    destruct (fst (message_delete m0 w));
      rewrite bind_eq, call_eq, E; cbn [fst snd]; rewrite modify_eq;
      now eexists _, _.
  - unfold ret.
    destruct (Hsend channel (pict_refresh ++ space ++ message) w) as [m [w' E]].
    rewrite bind_eq, call_eq, E. cbn [fst snd]. rewrite modify_eq.
    now eexists _, _.
Qed.

Lemma extract_page_returns (a : agent) (w : World) (url : str) :
  reliable env ->
  current_url a = Some url ->
  exists c w', extract_page (a, w) = (Ok c, (a, w')).
Proof.
  intros [_ [_ [Hsrc [Htitle _]]]] Hu.
  unfold extract_page. rewrite bind_eq, call_eq.
  destruct (Hsrc w) as [soup [w1 E1]]. rewrite E1. cbn [fst snd].
  rewrite bind_eq, call_eq.
  destruct (Htitle w1) as [t [w2 E2]]. rewrite E2. cbn [fst snd].
  rewrite bind_eq, get_eq, Hu. unfold of_res.
  destruct (extract_page_content_returns url t soup) as [c Ec]. rewrite Ec.
  now exists c, w2.
Qed.

Lemma click_link_returns (channel : Channel) (target : str) (a : agent)
    (w w' : World) (e : Element) (url : str) :
  reliable env ->
  current_page_content a <> None ->
  current_url a = Some url ->
  find_and_click_element target (a, w) = (Ok (Some e), (a, w')) ->
  exists reply a1 w1, click_link channel target (a, w) = (Ok reply, (a1, w1)).
Proof.
  intros R Hp Hu F. unfold click_link. rewrite bind_eq, get_eq.
  destruct (current_page_content a) as [page|]; [|congruence].
  rewrite bind_eq, F, bind_eq.
  match goal with
  | |- context [set_status ?c ?m ?s] =>
      destruct (set_status_returns c m (fst s) (snd s) R) as [a2 [w2 S]]
  end.
  cbn [fst snd] in S. rewrite S.
  pose proof S as FS. apply set_status_frame in FS.
  destruct FS as [[U _] _].
  rewrite bind_eq, call_eq.
  destruct R as [R1 [R2 [R3 [R4 [R5 [R6 R7]]]]]].
  destruct (R6 e w2) as [w3 E3]. rewrite E3. cbn [fst snd].
  rewrite bind_eq, modify_eq, bind_eq.
  match goal with
  | |- context [extract_page (?b, ?v)] =>
      destruct (@extract_page_returns b v url) as [c [w4 X]]
  end.
  { now repeat split. }
  { cbn. congruence. }
  rewrite X, bind_eq, modify_eq, bind_eq, call_eq.
  destruct (R5 w4) as [u [w5 E5]]. rewrite E5. cbn [fst snd].
  rewrite bind_eq, modify_eq, call_total_eq. now eexists _, _, _.
Qed.

Lemma go_back_returns (channel : Channel) (a : agent) (w : World)
    (h : list (option str)) (url : str) :
  reliable env ->
  navigation_history a = h ++ [Some url] ->
  exists reply a2 w2, go_back channel (a, w) = (Ok reply, (a2, w2)).
Proof.
  intros R Hh. unfold go_back. rewrite bind_eq, get_eq, Hh.
  destruct (h ++ [Some url]) as [|x0 t0] eqn:E0.
  { now destruct h. }
  rewrite bind_eq.
  match goal with
  | |- context [set_status ?c ?m ?s] =>
      destruct (set_status_returns c m (fst s) (snd s) R) as [a2 [w2 S]]
  end.
  cbn [fst snd] in S. rewrite S.
  pose proof S as FS. apply set_status_frame in FS.
  destruct FS as [[_ [_ [_ [Nv _]]]] _].
  rewrite bind_eq, call_eq.
  pose proof R as [R1 [R2 _]].
  destruct (R2 w2) as [w3 E3]. rewrite E3. cbn [fst snd].
  rewrite bind_eq, get_eq, bind_eq. unfold of_res at 1.
  rewrite Nv, Hh, <- E0, pop_snoc. rewrite bind_eq, modify_eq. cbn [fst snd].
  rewrite bind_eq.
  match goal with
  | |- context [extract_page (?b, ?v)] =>
      destruct (@extract_page_returns b v url R) as [c [w4 X]]
  end.
  { reflexivity. }
  rewrite X, bind_eq, modify_eq, call_total_eq. now eexists _, _, _.
Qed.

Lemma navigate_to_url_returns (channel : Channel) (url : str) (a : agent)
    (w : World) :
  reliable env ->
  exists content a1 w1,
    navigate_to_url channel url (a, w) = (Ok (inl content), (a1, w1)).
Proof.
  intros R. unfold navigate_to_url, catch. rewrite bind_eq.
  match goal with
  | |- context [set_status ?c ?m ?s] =>
      destruct (set_status_returns c m (fst s) (snd s) R) as [a2 [w2 S]]
  end.
  cbn [fst snd] in S. rewrite S.
  rewrite bind_eq, call_eq.
  pose proof R as [R1 _].
  destruct (R1 (with_scheme url) w2) as [w3 E3]. rewrite E3. cbn [fst snd].
  rewrite bind_eq, modify_eq, bind_eq.
  match goal with
  | |- context [set_status ?c ?m ?s] =>
      destruct (set_status_returns c m (fst s) (snd s) R) as [a4 [w4 S']]
  end.
  cbn [fst snd] in S'. rewrite S'.
  pose proof S' as FS. apply set_status_frame in FS.
  destruct FS as [[U _] _]. cbn in U.
  rewrite bind_eq.
  destruct (@extract_page_returns a4 w4 (with_scheme url) R U) as [c [w5 X]].
  rewrite X, bind_eq, modify_eq, bind_eq.
  destruct (clear_status_frame (set_current_page_content (Some c) a4) w5)
    as [a6 [w6 [C _]]].
  rewrite C. unfold ret. now eexists _, _, _.
Qed.


(** C3. [go_back] on an agent with no history, the fresh one included,
    answers that this is the first page and changes nothing.  A click
    appends the address the agent had before the click to the history, and
    does so before it replaces the page and the address: however the click
    ends, either the history, the address and the page are as before, or
    the old address has been appended.  After a click that returned,
    [go_back], when it returns, has popped that address into the current
    address and left the history as it was before the click.  In a world
    that answers every call both do return. *)
Theorem click_then_back (channel : Channel) :
  (forall a w,
     navigation_history a = [] ->
     go_back channel (a, w) = (Ok first_page_reply, (a, w))) /\
  (forall target a w r a1 w1,
     click_link channel target (a, w) = (r, (a1, w1)) ->
     (navigation_history a1 = navigation_history a /\
      current_url a1 = current_url a /\
      current_page_content a1 = current_page_content a) \/
     navigation_history a1 = navigation_history a ++ [current_url a]) /\
  (forall target a w e w' reply a1 w1,
     current_page_content a <> None ->
     find_and_click_element target (a, w) = (Ok (Some e), (a, w')) ->
     click_link channel target (a, w) = (Ok reply, (a1, w1)) ->
     navigation_history a1 = navigation_history a ++ [current_url a] /\
     (exists c, current_page_content a1 = Some c) /\
     (exists u, current_url a1 = Some u) /\
     forall reply2 a2 w2,
       go_back channel (a1, w1) = (Ok reply2, (a2, w2)) ->
       current_url a2 = current_url a /\
       navigation_history a2 = navigation_history a /\
       exists c, current_page_content a2 = Some c) /\
  (reliable env ->
   forall target a w e w' url,
     current_page_content a <> None ->
     current_url a = Some url ->
     find_and_click_element target (a, w) = (Ok (Some e), (a, w')) ->
     exists reply a1 w1 reply2 a2 w2,
       click_link channel target (a, w) = (Ok reply, (a1, w1)) /\
       go_back channel (a1, w1) = (Ok reply2, (a2, w2))).
Proof.
  split; [apply go_back_empty|]. split; [|split].
  - intros target a w r a1 w1 H.
    apply click_link_outcome in H
      as [[_ [_ ->]] | [[w' [_ [_ ->]]] | [e [w' [_ [[x [_ S]] | [N _]]]]]]].
    + now left.
    + now left.
    + left. destruct S as [U [P [_ [N _]]]]. now repeat split.
    + now right.
  - intros target a w e w' reply a1 w1 Hp F H.
    pose proof H as O. apply click_link_outcome in O
      as [[P _] | [[w0 [F0 _]] | [e0 [w0 [_ [[x [C _]] | [N [_ [_ [Pc Uc]]]]]]]]]].
    + congruence.
    + rewrite F in F0. discriminate.
    + discriminate.
    + split; [exact N|]. split; [exact Pc|]. split; [exact Uc|].
      intros reply2 a2 w2 G.
      eapply go_back_outcome in G; [|exact N].
      destruct G as [U2 [N2 [P2 _]]]. auto.
  - intros R target a w e w' url Hp Hu F.
    destruct (@click_link_returns channel target a w w' e url R Hp Hu F)
      as [reply [a1 [w1 H]]].
    pose proof H as O. apply click_link_outcome in O
      as [[P _] | [[w0 [F0 _]] | [e0 [w0 [_ [[x [C _]] | [N _]]]]]]].
    + congruence.
    + rewrite F in F0. discriminate.
    + discriminate.
    + rewrite Hu in N.
      destruct (@go_back_returns channel a1 w1 _ url R N)
        as [reply2 [a2 [w2 G]]].
      now exists reply, a1, w1, reply2, a2, w2.
Qed.

(** C7, as the code has it.  [navigate_to_url] never raises.  It leaves the
    navigation history, the current section and the conversation history
    as they were and leaves no status message; when it returns the page,
    the address is the one asked for, "https://" put before it when it has
    no scheme, and the page is the one returned.  In a world that answers
    every call it does return the page. *)
Theorem navigate_keeps_history (channel : Channel) (url : str) (a : agent)
    (w : World) :
  (forall r a1 w1,
     navigate_to_url channel url (a, w) = (r, (a1, w1)) ->
     exists out,
       r = Ok out /\
       status_message a1 = None /\
       navigation_history a1 = navigation_history a /\
       current_section a1 = current_section a /\
       conversation_history a1 = conversation_history a /\
       match out with
       | inl content =>
           current_url a1 = Some (with_scheme url) /\
           current_page_content a1 = Some content
       | inr _ => True
       end) /\
  (reliable env ->
   exists content a1 w1,
     navigate_to_url channel url (a, w) = (Ok (inl content), (a1, w1))).
Proof.
  split.
  - intros r a1 w1. apply navigate_to_url_outcome.
  - apply navigate_to_url_returns.
Qed.

End SessionFacts.

Lemma small_world_reliable : reliable small_world.
Proof. repeat split; intros; cbn; now repeat eexists. Qed.

Lemma click_then_back_witness :
  exists reply a1 w1 reply2 a2 w2,
    @click_link small_world tt (s2l "Sign up") (at_home, [home_url])
      = (Ok reply, (a1, w1)) /\
    navigation_history a1 = [Some home_url] /\
    @go_back small_world tt (a1, w1) = (Ok reply2, (a2, w2)) /\
    current_url a2 = Some home_url /\
    navigation_history a2 = [].
Proof.
  assert (F : @find_and_click_element small_world (s2l "Sign up")
                (at_home, [home_url])
              = (Ok (Some signup_url), (at_home, [home_url])))
    by (vm_compute; reflexivity).
  assert (P : current_page_content at_home <> None) by discriminate.
  destruct (@click_then_back small_world tt) as [_ [_ [H3 H4]]].
  destruct (H4 small_world_reliable (s2l "Sign up") at_home [home_url]
              signup_url [home_url] home_url P eq_refl F)
    as [reply [a1 [w1 [reply2 [a2 [w2 [E1 E2]]]]]]].
  destruct (H3 _ _ _ _ _ _ _ _ P F E1) as [N [_ [_ B]]].
  destruct (B _ _ _ E2) as [U2 [N2 _]].
  exists reply, a1, w1, reply2, a2, w2.
  split; [exact E1|]. split; [exact N|]. split; [exact E2|].
  split; [exact U2 | exact N2].
Defined.

Lemma navigate_keeps_history_witness :
  reliable small_world /\
  exists content a1 w1,
    @navigate_to_url small_world tt (s2l "example.com") (fresh, [])
      = (Ok (inl content), (a1, w1)) /\
    current_url a1 = Some home_url /\
    current_page_content a1 = Some content /\
    navigation_history a1 = [] /\
    status_message a1 = None.
Proof.
  split; [exact small_world_reliable|].
  destruct (@navigate_keeps_history small_world tt (s2l "example.com") fresh [])
    as [H1 H2].
  destruct (H2 small_world_reliable) as [c [a1 [w1 E]]].
  exists c, a1, w1. split; [exact E|].
  destruct (H1 _ _ _ E) as [out [Eo [S [N [_ [_ M]]]]]].
  injection Eo as <-. destruct M as [U Pg].
  split; [exact U|]. split; [exact Pg|]. split; [exact N | exact S].
Defined.

(** C7 as the specification states it fails: the agent enters
    [navigate_to_url] with the status message its caller has just set, and
    leaves it with none. *)
Lemma navigate_clears_status : ~ navigate_frame_claim small_world.
Proof.
  intros C.
  destruct (@navigate_to_url_returns small_world tt (s2l "example.com")
              (@set_status_message small_world (Some (s2l "Navigating")) fresh) []
              small_world_reliable) as [c [a1 [w1 E]]].
  destruct (C _ _ _ _ _ _ _ E) as [_ [_ [_ [_ [_ S]]]]].
  apply navigate_to_url_outcome in E as [out [_ [N _]]].
  rewrite N in S. discriminate.
Qed.

(** ** The chat transport *)

Lemma concat_slices (n m : nat) (s : str) :
  (length s <= m * n)%nat ->
  concat (map (fun i => slice s i n) (map (fun k => (k * n)%nat) (seq 0 m))) = s.
Proof.
  revert s. induction m as [|m IH]; intros s H.
  - destruct s; [reflexivity | cbn in H; lia].
  - cbn [seq map concat]. rewrite <- seq_shift, !map_map.
    transitivity (firstn n s ++ skipn n s); [|apply firstn_skipn].
    f_equal.
    rewrite <- (IH (skipn n s)) at 1.
    + rewrite map_map. f_equal. apply map_ext. intros k. unfold slice.
      rewrite skipn_skipn. f_equal. f_equal. lia.
    + rewrite length_skipn. cbn in H. lia.
Qed.

Lemma range0_bound (stop step i : nat) :
  (0 < step)%nat -> In i (range0 stop step) -> (i < stop)%nat.
Proof.
  intros Hs Hi. unfold range0 in Hi. apply in_map_iff in Hi as [k [<- Hk]].
  apply in_seq in Hk. cbn in Hk.
  assert (E : ((stop + step - 1) / step * step <= stop + step - 1)%nat).
  { rewrite Nat.mul_comm. apply Nat.Div0.mul_div_le. }
  nia.
Qed.

Lemma range0_covers (stop step : nat) :
  (0 < step)%nat -> (stop <= (stop + step - 1) / step * step)%nat.
Proof.
  intros Hs.
  pose proof (Nat.div_mod_eq (stop + step - 1) step) as E.
  pose proof (Nat.mod_upper_bound (stop + step - 1) step) as B.
  nia.
Qed.

(** X1. What [on_message] sends for a response that is not empty, put end
    to end, is the response: nothing is lost, repeated or reordered; and
    every message sent has at least one and at most 1900 characters
    whenever the response was cut. *)
Theorem outgoing_round_trip (response : str) :
  response <> [] ->
  concat (outgoing response) = response /\
  Forall (fun part => part <> []) (outgoing response) /\
  ((message_limit < length response)%nat ->
   Forall (fun part => (length part <= message_limit)%nat) (outgoing response)) /\
  ((length response <= message_limit)%nat -> outgoing response = [response]).
Proof.
  intros Hne. unfold outgoing. destruct response as [|c r]; [congruence|].
  set (s := c :: r) in *.
  destruct (message_limit <? length s) eqn:L.
  - apply Nat.ltb_lt in L. unfold range0. split; [|split; [|split]].
    + apply concat_slices. apply range0_covers. unfold message_limit. lia.
    + apply Forall_forall. intros part Hp.
      apply in_map_iff in Hp as [i [<- Hi]].
      apply range0_bound in Hi; [|unfold message_limit; lia].
      unfold slice. intros E.
      assert (Hl : length (firstn message_limit (skipn i s)) = 0%nat)
        by now rewrite E.
      rewrite length_firstn, length_skipn in Hl. unfold message_limit in Hl.
      lia.
    + intros _. apply Forall_forall. intros part Hp.
      apply in_map_iff in Hp as [i [<- _]]. unfold slice.
      rewrite length_firstn. lia.
    + intros H. lia.
  - apply Nat.ltb_ge in L. split; [|split; [|split]].
    + cbn. now rewrite app_nil_r.
    + now repeat constructor.
    + intros H. lia.
    + reflexivity.
Qed.

Lemma outgoing_round_trip_witness :
  let response := repeat "a"%char 1900 ++ s2l "tail" in
  response <> [] /\
  (message_limit < length response)%nat /\
  map (@length ascii) (outgoing response) = [1900; 4]%nat /\
  concat (outgoing response) = response.
Proof.
  intros response.
  assert (Hne : response <> []) by (vm_compute; discriminate).
  split; [exact Hne|]. split; [vm_compute; lia|].
  split; [vm_compute; reflexivity|].
  exact (proj1 (outgoing_round_trip Hne)).
Defined.

(** ** The command classifier: the special commands and the targets *)

(** X2. The three special commands are decided by the phrases alone and in
    a fixed order: the result is [Back] exactly when the normalized input
    contains a phrase of [Back]; [DescribeImages] exactly when it contains
    none of those and a phrase of the images command; [Summarize] exactly
    when it contains neither and a phrase of the summary command. *)
Theorem special_commands_by_phrase (user_input : str) :
  (parse_user_command user_input = Back
   <-> mentions back_phrases user_input = true) /\
  (parse_user_command user_input = DescribeImages
   <-> mentions back_phrases user_input = false /\
       mentions describe_phrases user_input = true) /\
  (parse_user_command user_input = Summarize
   <-> mentions back_phrases user_input = false /\
       mentions describe_phrases user_input = false /\
       mentions summarize_phrases user_input = true).
Proof.
  unfold parse_user_command, special_commands, mentions.
  cbn [first_special].
  fold describe_phrases. fold summarize_phrases.
  destruct (existsb _ back_phrases);
    destruct (existsb _ describe_phrases);
    destruct (existsb _ summarize_phrases);
    repeat split; try discriminate; try tauto;
    try (intros [? ?]; discriminate);
    try (intros [? [? ?]]; discriminate);
    destruct (first_match section_patterns _);
    try discriminate;
    destruct (first_match navigation_patterns _); discriminate.
Qed.

Lemma special_commands_by_phrase_witness :
  parse_user_command (s2l "Show me the SUMMARY section") = Summarize /\
  parse_user_command (s2l "describe images in the background") = Back.
Proof.
  split.
  - apply (proj2 (proj2 (special_commands_by_phrase _))).
    vm_compute. repeat split.
  - apply (proj1 (special_commands_by_phrase _)).
    vm_compute. reflexivity.
Defined.

Lemma or_else_some (A : Type) (a b : option A) (v : A) :
  or_else a b = Some v -> a = Some v \/ (a = None /\ b = Some v).
Proof. destruct a; cbn; intros H; [now left | now right]. Qed.

(** A lazy repetition that matched took a non-empty run of characters of
    the set, and no shorter run would have done. *)
Lemma plus_lazy_some (A : Type) (k : cset) (s : str) (cont : str -> option A)
    (v : A) :
  plus_lazy k s cont = Some v ->
  exists pre s2,
    s = pre ++ s2 /\ pre <> [] /\ forallb (cset_mem k) pre = true /\
    cont s2 = Some v /\
    (forall p1 p2, pre = p1 ++ p2 -> p1 <> [] -> p2 <> [] ->
                   cont (p2 ++ s2) = None).
Proof.
  induction s as [|x s IH]; [discriminate|]. cbn [plus_lazy].
  destruct (cset_mem k x) eqn:Hx; [|discriminate].
  intros H. apply or_else_some in H as [H | [Hn H]].
  - exists [x], s. repeat split; auto; try discriminate.
    + cbn. now rewrite Hx.
    + intros p1 p2 E H1 H2. destruct p1 as [|a [|b p1]]; try congruence.
      * cbn in E. injection E as _ E. now subst p2.
      * cbn in E. discriminate.
  - destruct (IH H) as [pre [s2 [E [Hne [Hall [Hc Hlazy]]]]]].
    exists (x :: pre), s2. repeat split; auto; try discriminate.
    + cbn. now rewrite E.
    + cbn. now rewrite Hx.
    + intros p1 p2 E' H1 H2. destruct p1 as [|a p1]; [congruence|].
      cbn in E'. injection E' as _ E'.
      destruct p1 as [|b p1].
      * cbn in E'. subst p2. now rewrite <- E.
      * apply (Hlazy (b :: p1) p2); auto. discriminate.
Qed.

(** A match always ends in a call of the continuation. *)
Lemma rmatch_some (A : Type) (r : regex) (s : str) (cont : str -> option A)
    (v : A) :
  rmatch r s cont = Some v -> exists s', cont s' = Some v.
Proof.
  revert s cont. induction r as [l|k|r1 IH1 r2 IH2|r1 IH1 r2 IH2|r IH|k|];
    intros s cont; cbn [rmatch].
  - destruct (drop_prefix l s); [eauto | discriminate].
  - destruct s as [|x s]; [discriminate|].
    destruct (cset_mem k x); [eauto | discriminate].
  - intros H. apply IH1 in H as [s1 H]. now apply IH2 in H.
  - intros H. apply or_else_some in H as [H | [_ H]]; eauto.
  - intros H. apply or_else_some in H as [H | [_ H]]; eauto.
  - intros H. apply plus_lazy_some in H as [pre [s2 [_ [_ [_ [H _]]]]]]. eauto.
  - destruct s as [|x [|y s]]; try discriminate; [eauto|].
    destruct (Ascii.eqb x "010"); [eauto | discriminate].
Qed.

(** What a pattern with the group [bare] captures: a non-empty run without
    quote marks, and the shortest one after which the rest of the pattern
    matches. *)
Lemma match_here_bare (p : pattern) (s : str) (g : str) :
  captured p = bare ->
  match_here p s = Some g ->
  g <> [] /\ no_quote g = true /\
  exists s2,
    forall p1 p2, g = p1 ++ p2 -> p1 <> [] -> p2 <> [] ->
      exists y : str, rmatch (after p) (p2 ++ s2) (fun _ => Some y) = None.
Proof.
  intros Hc H. unfold match_here in H.
  apply rmatch_some in H as [s1 H]. rewrite Hc in H. cbn [bare rmatch] in H.
  apply plus_lazy_some in H as [pre [s2 [E [Hne [Hall [Hk Hlazy]]]]]].
  pose proof Hk as Hg. apply rmatch_some in Hg as [s' Hg].
  injection Hg as Hg. subst s1.
  rewrite length_app, Nat.add_sub, firstn_app, Nat.sub_diag, firstn_all in Hg.
  cbn [firstn] in Hg. rewrite app_nil_r in Hg. subst g.
  split; [exact Hne|]. split.
  - unfold no_quote. rewrite forallb_forall in *. intros c Hc'.
    specialize (Hall c Hc'). cbn [cset_mem existsb] in Hall.
    unfold is_quote. now rewrite orb_false_r in Hall.
  - exists s2. intros p1 p2 E1 H1 H2. eexists. now apply (Hlazy p1 p2).
Qed.

Lemma search_some (p : pattern) (s g : str) :
  search p s = Some g -> exists s0, match_here p s0 = Some g.
Proof.
  induction s as [|c s IH]; cbn [search]; intros H;
    apply or_else_some in H as [H | [_ H]]; eauto; discriminate.
Qed.

Lemma first_match_some (ps : list pattern) (s g : str) :
  first_match ps s = Some g ->
  exists p s0, In p ps /\ match_here p s0 = Some g.
Proof.
  induction ps as [|p ps IH]; [discriminate|]. cbn [first_match]. intros H.
  apply or_else_some in H as [H | [_ H]].
  - apply search_some in H as [s0 H]. exists p, s0. split; [now left | exact H].
  - destruct (IH H) as [q [s0 [Hq Hm]]]. exists q, s0.
    split; [now right | exact Hm].
Qed.

Lemma isspace_not_quote (c : ascii) : isspace c = true -> is_quote c = false.
Proof.
  destruct c as [[] [] [] [] [] [] [] []]; vm_compute; congruence.
Qed.

(** After the group of a navigation pattern, a whitespace character is
    enough for the rest of the pattern. *)
Lemma navigation_tail_at_space (c : ascii) (t y : str) :
  isspace c = true ->
  rmatch (Seq quote_opt space_or_end) (c :: t) (fun _ => Some y) = Some y.
Proof.
  intros Hc. pose proof (isspace_not_quote c Hc) as Hq.
  unfold is_quote in Hq. apply orb_false_elim in Hq as [Q1 Q2].
  cbn [rmatch quote_opt space_or_end cset_mem existsb].
  rewrite Q1, Q2, Hc. reflexivity.
Qed.

Lemma lstrip_no_space (s : str) : no_space s = true -> lstrip s = s.
Proof.
  destruct s as [|c s]; [reflexivity|]. cbn. intros H.
  apply andb_prop in H as [H _]. apply negb_true_iff in H. now rewrite H.
Qed.

Lemma no_space_rev (s : str) : no_space (rev s) = no_space s.
Proof.
  unfold no_space. destruct (forallb _ s) eqn:E.
  - rewrite forallb_forall in *. intros c Hc. apply E. now apply in_rev.
  - destruct (forallb _ (rev s)) eqn:E'; [|reflexivity].
    rewrite <- E. symmetry. rewrite forallb_forall in *. intros c Hc.
    apply E'. now apply in_rev in Hc.
Qed.

Lemma strip_no_space (s : str) : no_space s = true -> strip s = s.
Proof.
  intros H. unfold strip, rstrip. rewrite (lstrip_no_space s H).
  rewrite lstrip_no_space by now rewrite no_space_rev.
  apply rev_involutive.
Qed.

Lemma strip_tail_no_space (c : ascii) (s : str) :
  no_space s = true -> no_space (strip (c :: s)) = true.
Proof.
  intros H. destruct (isspace c) eqn:Hc.
  - unfold strip. cbn [lstrip]. rewrite Hc. fold (strip s).
    now rewrite strip_no_space.
  - rewrite strip_no_space; cbn; now rewrite Hc.
Qed.

Lemma lstrip_suffix (s : str) : exists pre, s = pre ++ lstrip s.
Proof.
  induction s as [|c s [pre IH]]; [now exists []|]. cbn [lstrip].
  destruct (isspace c).
  - exists (c :: pre). cbn. now rewrite <- IH.
  - now exists [].
Qed.

Lemma strip_incl (s : str) (c : ascii) : In c (strip s) -> In c s.
Proof.
  unfold strip, rstrip. intros H. apply in_rev in H.
  destruct (lstrip_suffix (rev (lstrip s))) as [pre1 E1].
  assert (H1 : In c (rev (lstrip s))).
  { rewrite E1. apply in_or_app. now right. }
  apply in_rev in H1.
  destruct (lstrip_suffix s) as [pre2 E2]. rewrite E2.
  apply in_or_app. now right.
Qed.

Lemma no_quote_strip (s : str) : no_quote s = true -> no_quote (strip s) = true.
Proof.
  unfold no_quote. rewrite !forallb_forall. intros H c Hc.
  apply H. now apply strip_incl.
Qed.

Lemma first_special_cases (input_lower : str) (cmd : command) :
  first_special special_commands input_lower = Some cmd ->
  cmd = Back \/ cmd = DescribeImages \/ cmd = Summarize.
Proof.
  unfold special_commands. cbn [first_special].
  repeat match goal with
         | |- context [if ?b then _ else _] => destruct b
         end; intros [= <-]; auto.
Qed.

(** X3. The target of a navigation command is always a single word: it
    has no whitespace and no quote mark in it, whatever the input, and the
    two fields of the command hold the same text. *)
Theorem navigation_target_one_word (user_input t o : str) :
  parse_user_command user_input = Navigation t o ->
  t = o /\ no_space t = true /\ no_quote t = true.
Proof.
  unfold parse_user_command.
  destruct (first_special _ _) as [cmd|] eqn:S.
  { apply first_special_cases in S as [-> | [-> | ->]]; discriminate. }
  destruct (first_match section_patterns _); [discriminate|].
  destruct (first_match navigation_patterns _) as [g|] eqn:F; [|discriminate].
  intros [= <- <-]. split; [reflexivity|].
  apply first_match_some in F as [p [s0 [Hp Hm]]].
  assert (Hcap : captured p = bare /\ after p = Seq quote_opt space_or_end).
  { destruct Hp as [<- | [<- | [<- | []]]]; now split. }
  destruct Hcap as [Hcap Haft].
  destruct (match_here_bare p s0 Hcap Hm) as [Hne [Hq [s2 Hlazy]]].
  split; [|now apply no_quote_strip].
  destruct g as [|c0 rest]; [congruence|].
  apply strip_tail_no_space. unfold no_space. apply forallb_forall.
  intros c Hc. apply negb_true_iff.
  destruct (isspace c) eqn:Hsp; [|reflexivity].
  apply in_split in Hc as [r1 [r2 ->]].
  destruct (Hlazy (c0 :: r1) (c :: r2)) as [y Hy]; try discriminate.
  { reflexivity. }
  rewrite Haft in Hy. cbn [app] in Hy.
  rewrite navigation_tail_at_space in Hy by assumption. discriminate.
Qed.

Lemma navigation_target_one_word_witness :
  parse_user_command (s2l "Please OPEN the 'Annual Report 2024' page")
    = Navigation (s2l "annual") (s2l "annual") /\
  no_space (s2l "annual") = true.
Proof.
  assert (E : parse_user_command (s2l "Please OPEN the 'Annual Report 2024' page")
              = Navigation (s2l "annual") (s2l "annual"))
    by (vm_compute; reflexivity).
  split; [exact E|].
  exact (proj1 (proj2 (navigation_target_one_word _ E))).
Defined.

Lemma lstrip_head (s u : str) (c : ascii) :
  lstrip s = c :: u -> isspace c = false.
Proof.
  induction s as [|x s IH]; [discriminate|]. cbn [lstrip].
  destruct (isspace x) eqn:E; [exact IH|]. now intros [= <- _].
Qed.

Lemma stripped_strip (s : str) : stripped (strip s) = true.
Proof.
  unfold strip, rstrip.
  destruct (lstrip (rev (lstrip s))) as [|c1 v'] eqn:V; [reflexivity|].
  pose proof (lstrip_head _ V) as H1.
  destruct (lstrip_suffix (rev (lstrip s))) as [pre E]. rewrite V in E.
  apply (f_equal (@rev ascii)) in E. rewrite rev_involutive, rev_app_distr in E.
  cbn [rev] in *.
  destruct (rev v' ++ [c1]) as [|x w] eqn:W.
  { now destruct (rev v'). }
  unfold stripped. rewrite <- W at 1. rewrite last_last, H1.
  cbn [app] in E. apply lstrip_head in E. now rewrite E.
Qed.

(** X4. The name of a section command never has a quote mark in it and
    never begins or ends with whitespace, and the two fields of the command
    hold the same text. *)
Theorem section_name_clean (user_input t o : str) :
  parse_user_command user_input = Section_ t o ->
  t = o /\ no_quote t = true /\ stripped t = true.
Proof.
  unfold parse_user_command.
  destruct (first_special _ _) as [cmd|] eqn:S.
  { apply first_special_cases in S as [-> | [-> | ->]]; discriminate. }
  destruct (first_match section_patterns _) as [g|] eqn:F.
  2:{ destruct (first_match navigation_patterns _); discriminate. }
  intros [= <- <-]. split; [reflexivity|].
  split; [|apply stripped_strip].
  apply first_match_some in F as [p [s0 [Hp Hm]]].
  assert (Hcap : captured p = bare).
  { destruct Hp as [<- | [<- | [<- | []]]]; reflexivity. }
  destruct (match_here_bare p s0 Hcap Hm) as [_ [Hq _]].
  now apply no_quote_strip.
Qed.

Lemma section_name_clean_witness :
  parse_user_command (s2l "view the ' Getting  Started ' section")
    = Section_ (s2l "getting started") (s2l "getting started") /\
  stripped (s2l "getting started") = true.
Proof.
  assert (E : parse_user_command (s2l "view the ' Getting  Started ' section")
              = Section_ (s2l "getting started") (s2l "getting started"))
    by (vm_compute; reflexivity).
  split; [exact E|].
  exact (proj2 (proj2 (section_name_clean _ E))).
Defined.

(** ** The matcher: what it can return *)

Section BestMatchResult.

Variables (target : str) (threshold : float) (all : list str).



End BestMatchResult.



(** ** The page extractor: links and images *)

Lemma walk_descendants (n : node) (up : list node) :
  map fst (walk up n) = descendants n.
Proof.
  revert n up. fix IH 1. intros [text|name attrs contents] up; [reflexivity|].
  cbn [walk descendants].
  generalize (Tag name attrs contents :: up). intros up'.
  induction contents as [|c cs IHcs]; [reflexivity|].
  cbn [flat_map map]. rewrite map_app. cbn [map fst].
  now rewrite IH, IHcs.
Qed.

Lemma fold_left_collect (X Y : Type) (keep : X -> bool) (f : X -> Y)
    (step : X -> list Y -> list Y) (l : list X) (acc : list Y) :
  (forall x acc', step x acc' = if keep x then acc' ++ [f x] else acc') ->
  fold_left (fun a x => step x a) l acc = acc ++ map f (filter keep l).
Proof.
  intros H. revert acc. induction l as [|x l IH]; intros acc.
  - cbn. now rewrite app_nil_r.
  - cbn [fold_left filter]. rewrite H, IH.
    destruct (keep x); [|reflexivity]. cbn [map]. now rewrite <- app_assoc.
Qed.

Lemma extract_links_eq (soup : node) :
  extract_links soup
  = map link_entry (filter shown_link (find_all_with_parents [s2l "a"] soup)).
Proof.
  unfold extract_links.
  rewrite (@fold_left_collect _ _ shown_link link_entry); [reflexivity|].
  intros [a up] acc. unfold links_step, shown_link, link_entry. cbn [fst snd].
  now destruct (_ && _).
Qed.

Lemma filter_map_fst (A B : Type) (f : A -> bool) (l : list (A * B)) :
  map fst (filter (fun p => f (fst p)) l) = filter f (map fst l).
Proof.
  induction l as [|[a b] l IH]; [reflexivity|]. cbn [filter map fst].
  destruct (f a); cbn [map fst]; now rewrite IH.
Qed.

Lemma join_nonempty (x : str) (rest : list str) :
  x <> [] -> join space (x :: rest) <> [].
Proof.
  intros Hx. destruct rest; cbn [join]; [exact Hx|].
  destruct x; [congruence | discriminate].
Qed.

Lemma location_nonempty (element : node) (up : list node) :
  get_element_location_description element up <> [].
Proof.
  unfold get_element_location_description.
  destruct (find (named landmark_names) up) as [p|].
  - cbn [app]. apply join_nonempty. discriminate.
  - destruct (find (named list_names) up) as [lst|]; [|discriminate].
    destruct (item_number _ _ _); [|discriminate].
    cbn [app]. apply join_nonempty. discriminate.
Qed.

(** X6. The links of a page are its anchors that have text left after
    stripping and a non-empty href, one entry each and in document order;
    anchors without text or without href get no entry.  Every entry has a
    non-empty text and a non-empty location. *)
Theorem extract_links_in_order (soup : node) :
  map link_text (extract_links soup)
  = map (fun n => strip (get_text n)) (filter shown_anchor (descendants soup)) /\
  (forall l, In l (extract_links soup) ->
     link_text l <> [] /\ link_location l <> []) /\
  (forall l1 n l2,
     descendants soup = l1 ++ n :: l2 ->
     shown_anchor n = false ->
     map link_text (extract_links soup)
     = map (fun n => strip (get_text n)) (filter shown_anchor (l1 ++ l2))).
Proof.
  assert (E : map link_text (extract_links soup)
              = map (fun n => strip (get_text n))
                  (filter shown_anchor (descendants soup))).
  { rewrite extract_links_eq, map_map. cbn [link_entry link_text].
    rewrite <- (walk_descendants soup []).
    unfold find_all_with_parents. rewrite filter_filter.
    rewrite <- (map_map fst (fun n => strip (get_text n))). f_equal.
    rewrite <- filter_map_fst. f_equal. apply filter_ext.
    intros [n up]. unfold shown_link, shown_anchor. cbn [fst].
    now rewrite andb_assoc. }
  split; [exact E|]. split.
  - intros l Hl. rewrite extract_links_eq in Hl.
    apply in_map_iff in Hl as [entry [<- He]].
    apply filter_In in He as [_ He]. unfold shown_link in He.
    apply andb_prop in He as [He _]. cbn [link_entry link_text link_location].
    split; [now destruct (strip _) | apply location_nonempty].
  - intros l1 n l2 D Hn. rewrite E, D, !filter_app. cbn [filter].
    now rewrite Hn.
Qed.

Lemma extract_links_in_order_witness :
  let a (href text : string) :=
    Tag (s2l "a") [(s2l "href", s2l href)] [NavigableString (s2l text)] in
  let soup :=
    Tag (s2l "[document]") []
      [ Tag (s2l "nav") []
          [Tag (s2l "ul") []
             [Tag (s2l "li") [] [a "/" " Home "];
              Tag (s2l "li") [] [a "/docs" "Docs"]]];
        Tag (s2l "p") [] [NavigableString (s2l "Read "); a "" "nothing";
                          a "/more" "more"; NavigableString (s2l " here.")] ]%string in
  extract_links soup
  = [ {| link_text := s2l "Home"; link_description := [];
         link_location := s2l "in the nav item 1 in a list" |};
      {| link_text := s2l "Docs"; link_description := [];
         link_location := s2l "in the nav item 2 in a list" |};
      {| link_text := s2l "more"; link_description := s2l "Read nothing here.";
         link_location := s2l "in main content" |} ] /\
  map link_text (extract_links soup) = [s2l "Home"; s2l "Docs"; s2l "more"].
Proof.
  intros a soup. split; [vm_compute; reflexivity|].
  rewrite (proj1 (extract_links_in_order soup)). vm_compute. reflexivity.
Defined.

Lemma lstrip_slash_split (s : str) :
  exists k, s = repeat slash k ++ lstrip_slash s /\
            hd "a"%char (lstrip_slash s) <> slash.
Proof.
  induction s as [|c s [k [E H]]].
  - exists 0%nat. split; [reflexivity | discriminate].
  - cbn [lstrip_slash]. destruct (Ascii.eqb c slash) eqn:Ec.
    + apply Ascii.eqb_eq in Ec. subst c. exists (S k). cbn [repeat app].
      split; [now rewrite <- E | exact H].
    + exists 0%nat. split; [reflexivity|]. cbn. intros ->.
      now rewrite Ascii.eqb_refl in Ec.
Qed.

Lemma repeat_rev (A : Type) (x : A) (k : nat) : rev (repeat x k) = repeat x k.
Proof.
  induction k as [|k IH]; [reflexivity|]. cbn [repeat rev]. rewrite IH.
  clear IH. induction k as [|k IH]; [reflexivity|]. cbn. now rewrite IH.
Qed.

Lemma last_rev (A : Type) (l : list A) (d : A) : last (rev l) d = hd d l.
Proof.
  destruct l as [|x l]; [reflexivity|]. cbn [rev hd]. apply last_last.
Qed.

Lemma rstrip_slash_split (s : str) :
  exists k, s = rstrip_slash s ++ repeat slash k /\
            last (rstrip_slash s) "a"%char <> slash.
Proof.
  unfold rstrip_slash. destruct (lstrip_slash_split (rev s)) as [k [E H]].
  exists k. split.
  - apply (f_equal (@rev ascii)) in E.
    now rewrite rev_involutive, rev_app_distr, repeat_rev in E.
  - now rewrite last_rev.
Qed.

Lemma images_step_some (url : str) (entry : node * list node)
    (acc : list image) :
  exists im,
    images_step (Some url) entry acc
    = (if shown_image entry then Ok (acc ++ [im]) else Ok acc) /\
    image_src im
    = (if is_absolute (tag_get (fst entry) (s2l "src"))
       then tag_get (fst entry) (s2l "src")
       else joined (rstrip_slash url)
              (lstrip_slash (tag_get (fst entry) (s2l "src")))) /\
    image_alt im = tag_get (fst entry) (s2l "alt").
Proof.
  destruct entry as [img up]. unfold images_step, shown_image. cbn [fst].
  destruct (is_absolute (tag_get img (s2l "src"))); cbn [res_bind];
    eexists; (split; [destruct (nonempty _); reflexivity|]);
    split; reflexivity.
Qed.

Lemma images_step_none (url : str) (entry : node * list node)
    (acc : list image) :
  images_step None entry acc
  = if relative_image entry then Raise AttributeError
    else images_step (Some url) entry acc.
Proof.
  destruct entry as [img up]. unfold images_step, relative_image, shown_image.
  cbn [fst]. destruct (nonempty _); [|reflexivity].
  now destruct (is_absolute _).
Qed.

Lemma for_each_images_none (url : str) (l : list (node * list node))
    (acc : list image) :
  for_each l (images_step None) acc
  = if existsb relative_image l then Raise AttributeError
    else for_each l (images_step (Some url)) acc.
Proof.
  revert acc. induction l as [|e l IH]; intros acc; [reflexivity|].
  cbn [for_each existsb]. rewrite (images_step_none url).
  destruct (relative_image e) eqn:R; [reflexivity|]. cbn [orb].
  destruct (images_step (Some url) e acc) as [acc'|x] eqn:S.
  - cbn [res_bind]. apply IH.
  - exfalso. destruct (images_step_some url e acc) as [im [E _]].
    rewrite S in E. now destruct (shown_image e).
Qed.

Lemma for_each_images_some (url : str) (l : list (node * list node))
    (acc : list image) :
  exists imgs,
    for_each l (images_step (Some url)) acc = Ok (acc ++ imgs) /\
    map image_src imgs
    = map (fun e =>
             if is_absolute (tag_get (fst e) (s2l "src"))
             then tag_get (fst e) (s2l "src")
             else joined (rstrip_slash url)
                    (lstrip_slash (tag_get (fst e) (s2l "src"))))
        (filter shown_image l) /\
    map image_alt imgs
    = map (fun e => tag_get (fst e) (s2l "alt")) (filter shown_image l).
Proof.
  revert acc. induction l as [|e l IH]; intros acc.
  - exists []. cbn. now rewrite app_nil_r.
  - cbn [for_each filter].
    destruct (images_step_some url e acc) as [im [E [Hs Ha]]]. rewrite E.
    destruct (shown_image e); cbn [res_bind].
    + destruct (IH (acc ++ [im])) as [imgs [E' [Hs' Ha']]].
      exists (im :: imgs). rewrite E', <- app_assoc. cbn [map app].
      now rewrite Hs, Ha, Hs', Ha'.
    + apply IH.
Qed.

(** X7. With a current address the image extraction never raises.  There
    is one entry, in document order, for each [img] whose [src] is not
    empty; an absolute source is kept as it is, and any other source is put
    after the address with exactly one slash between them: the slashes at
    the end of the address and at the head of the source are dropped and
    nothing else.  Without a current address the extraction raises exactly
    when some image has a non-empty source that is not absolute, and else
    returns the same entries. *)
Theorem extract_images_sources (url : str) (soup : node) :
  exists imgs,
    extract_images (Some url) soup = Ok imgs /\
    map image_src imgs
    = map (fun e =>
             if is_absolute (tag_get (fst e) (s2l "src"))
             then tag_get (fst e) (s2l "src")
             else joined (rstrip_slash url)
                    (lstrip_slash (tag_get (fst e) (s2l "src"))))
        (filter shown_image (find_all_with_parents [s2l "img"] soup)) /\
    map image_alt imgs
    = map (fun e => tag_get (fst e) (s2l "alt"))
        (filter shown_image (find_all_with_parents [s2l "img"] soup)) /\
    (exists k, url = rstrip_slash url ++ repeat slash k /\
               last (rstrip_slash url) "a"%char <> slash) /\
    (forall src, exists k,
       src = repeat slash k ++ lstrip_slash src /\
       hd "a"%char (lstrip_slash src) <> slash) /\
    extract_images None soup
    = (if existsb relative_image (find_all_with_parents [s2l "img"] soup)
       then Raise AttributeError else Ok imgs).
Proof.
  unfold extract_images.
  destruct (for_each_images_some url (find_all_with_parents [s2l "img"] soup) [])
    as [imgs [E [Hs Ha]]].
  exists imgs. cbn [app] in E.
  split; [exact E|]. split; [exact Hs|]. split; [exact Ha|].
  split; [apply rstrip_slash_split|]. split; [apply lstrip_slash_split|].
  now rewrite (for_each_images_none url), E.
Qed.

Lemma extract_images_sources_witness :
  let img (src : string) := Tag (s2l "img") [(s2l "src", s2l src)] [] in
  let soup :=
    Tag (s2l "[document]") []
      [ Tag (s2l "div") []
          [img "//logo.png"; img ""; img "https://cdn.example.com/a.png"] ]%string in
  map image_src
    match extract_images (Some (s2l "https://example.com/docs//")) soup with
    | Ok imgs => imgs
    | Raise _ => []
    end
  = [s2l "https://example.com/docs/logo.png"; s2l "https://cdn.example.com/a.png"] /\
  extract_images None soup = Raise AttributeError.
Proof.
  intros img soup.
  destruct (extract_images_sources (s2l "https://example.com/docs//") soup)
    as [imgs [E [Hs [_ [_ [_ Hn]]]]]].
  rewrite E, Hs, Hn. split; vm_compute; reflexivity.
Defined.

(** ** The page extractor: the order of the sections and their entries *)

Lemma dict_has_keys (k : str) (d : dict) :
  dict_has k d = existsb (str_eqb k) (dict_keys d).
Proof.
  unfold dict_has, dict_keys. induction d as [|[k' v] d IH]; [reflexivity|].
  cbn [existsb map fst]. now rewrite IH.
Qed.

Lemma uniq_from_In (seen l : list str) (x : str) :
  In x l -> In x (seen ++ uniq_from seen l).
Proof.
  revert seen. induction l as [|y l IH]; intros seen; [intros []|].
  cbn [uniq_from]. intros [-> | H].
  - destruct (existsb (str_eqb x) seen) eqn:E.
    + apply existsb_exists in E as [z [Hz Ez]]. apply str_eqb_eq in Ez.
      subst z. apply in_or_app. now left.
    + apply in_or_app. right. now left.
  - destruct (existsb (str_eqb y) seen).
    + now apply IH.
    + specialize (IH (seen ++ [y]) H). rewrite <- app_assoc in IH. exact IH.
Qed.

Lemma uniq_from_NoDup (seen l : list str) :
  NoDup seen -> NoDup (seen ++ uniq_from seen l).
Proof.
  revert seen. induction l as [|y l IH]; intros seen Hs.
  - cbn. now rewrite app_nil_r.
  - cbn [uniq_from]. destruct (existsb (str_eqb y) seen) eqn:E.
    + now apply IH.
    + assert (Hy : ~ In y seen).
      { intros C. assert (T : existsb (str_eqb y) seen = true).
        { apply existsb_exists. exists y. split; [exact C | apply str_eqb_refl]. }
        congruence. }
      assert (Hs' : NoDup (seen ++ [y])).
      { apply NoDup_app; [exact Hs | repeat constructor; intros [] |].
        intros z Hz [<-|[]]. now apply Hy. }
      specialize (IH _ Hs'). now rewrite <- app_assoc in IH.
Qed.

Lemma filter_heading_blocks (soup : node) :
  filter (named heading_names) (find_all block_names soup)
  = find_all heading_names soup.
Proof.
  unfold find_all. rewrite filter_filter. apply filter_ext.
  intros [text|name attrs contents]; [reflexivity|].
  cbn [named heading_names block_names existsb].
  destruct (str_eqb name (s2l "h1")); [reflexivity|].
  destruct (str_eqb name (s2l "h2")); [reflexivity|].
  destruct (str_eqb name (s2l "h3")); [reflexivity|].
  cbn [orb]. apply andb_false_r.
Qed.

(** The keys after a scan: those before it, then the new titles in the
    order they are first met. *)
Lemma for_each_scan_keys (elems : list node) (st : scan_state) :
  scan_inv st ->
  exists st',
    for_each elems main_text_step st = Ok st' /\
    dict_keys (snd st')
    = dict_keys (snd st)
      ++ uniq_from (dict_keys (snd st))
           (map (fun h => strip (get_text h))
              (filter (named heading_names) elems)).
Proof.
  revert st. induction elems as [|e elems IH]; intros st Hst.
  - exists st. split; [reflexivity|]. cbn. now rewrite app_nil_r.
  - destruct (main_text_step_inv e Hst) as [st1 [E1 [I1 _]]].
    destruct (IH st1 I1) as [st2 [E2 K2]].
    exists st2. cbn [for_each]. rewrite E1. cbn [res_bind].
    split; [exact E2|]. rewrite K2. clear E2 K2 IH.
    destruct st as [cur d]. cbn [fst snd] in *. cbn [filter].
    destruct (named heading_names e) eqn:Hh.
    + rewrite main_text_step_heading in E1 by assumption.
      injection E1 as <-. cbn [snd map uniq_from].
      rewrite <- dict_has_keys.
      destruct (dict_has (strip (get_text e)) d) eqn:Hd; [reflexivity|].
      unfold dict_keys. rewrite map_app. cbn [map fst].
      now rewrite <- app_assoc.
    + destruct (named container_names e) eqn:Hp.
      * destruct (dict_get_In _ _ (inv_current Hst)) as [existing G].
        cbn [fst snd] in G.
        rewrite main_text_step_container with (existing := existing) in E1
          by assumption.
        injection E1 as <-. cbn [snd].
        destruct (_ && _); [|reflexivity].
        now rewrite dict_keys_set_present by exact (inv_current Hst).
      * rewrite main_text_step_other in E1 by assumption.
        now injection E1 as <-.
Qed.

(** X8. The sections of a page come in document order: the keys are
    "Main Content" first, then the stripped texts of the headings in the
    order each is first met, a text already among the keys adding
    nothing. *)
Theorem sections_in_document_order (soup : node) :
  exists sections,
    extract_main_text soup = Ok sections /\
    dict_keys sections
    = main_content :: uniq_from [main_content] (section_titles soup) /\
    (forall t, In t (section_titles soup) -> In t (dict_keys sections)).
Proof.
  destruct (for_each_scan_keys (find_all block_names soup) scan_inv_start)
    as [st [E K]].
  exists (snd st). unfold extract_main_text, scan_sections. rewrite E.
  split; [reflexivity|].
  rewrite filter_heading_blocks in K. fold (section_titles soup) in K.
  cbn [snd dict_set dict_keys map fst app] in K.
  split; [exact K|].
  intros t Ht. fold (dict_keys (snd st)). rewrite K.
  apply (uniq_from_In [main_content] _ _ Ht).
Qed.

Lemma sections_in_document_order_witness :
  let h (name text : string) := Tag (s2l name) [] [NavigableString (s2l text)] in
  let soup :=
    Tag (s2l "[document]") []
      [h "h1" "Guide"; h "p" "Intro"; h "h2" " Setup ";
       Tag (s2l "div") [] [h "h3" "Guide"; h "h2" "Main Content"; h "h2" "Usage"]]%string in
  section_titles soup
  = [s2l "Guide"; s2l "Setup"; s2l "Guide"; s2l "Main Content"; s2l "Usage"] /\
  match extract_main_text soup with
  | Ok sections =>
      dict_keys sections
      = [main_content; s2l "Guide"; s2l "Setup"; s2l "Usage"]
  | Raise _ => False
  end.
Proof.
  intros h soup. split; [vm_compute; reflexivity|].
  destruct (sections_in_document_order soup) as [sections [E [K _]]].
  rewrite E, K. vm_compute. reflexivity.
Defined.

(** X9. Every heading the page content lists is the key of one of its
    sections. *)
Theorem headings_are_sections (current_url : option str) (page_title : str)
    (soup : node) (c : page_content) :
  extract_page_content current_url page_title soup = Ok c ->
  forall h, In h (headings c) -> In (heading_text h) (dict_keys (main_text c)).
Proof.
  unfold extract_page_content. rewrite extract_headings_eq. cbn [res_bind].
  destruct (extract_images _ _) as [imgs|]; [|discriminate]. cbn [res_bind].
  destruct (for_each_scan_keys (find_all block_names soup) scan_inv_start)
    as [st [E K]].
  unfold extract_main_text, scan_sections. rewrite E. cbn [res_bind].
  intros [= <-] h Hh. cbn [headings main_text] in *.
  unfold headings_in_order in Hh. apply in_map_iff in Hh as [n [<- Hn]].
  apply filter_In in Hn as [Hd Hs]. cbn [heading_entry heading_text].
  rewrite K, filter_heading_blocks. apply uniq_from_In.
  apply (in_map (fun x => strip (get_text x))).
  unfold find_all. apply filter_In. split; [exact Hd|].
  rewrite named_is_heading. unfold shown_heading in Hs.
  now apply andb_prop in Hs as [Hs _].
Qed.

Lemma headings_are_sections_witness :
  let h (name text : string) := Tag (s2l name) [] [NavigableString (s2l text)] in
  let soup :=
    Tag (s2l "[document]") []
      [h "h1" "Guide"; h "p" "Intro"; h "h2" " Setup "; h "h3" " "]%string in
  match extract_page_content None (s2l "T") soup with
  | Ok c =>
      map heading_text (headings c) = [s2l "Guide"; s2l "Setup"] /\
      dict_keys (main_text c) = [main_content; s2l "Guide"; s2l "Setup"; []] /\
      In (s2l "Setup") (dict_keys (main_text c))
  | Raise _ => False
  end.
Proof.
  intros h soup.
  destruct (extract_page_content None (s2l "T") soup) as [c|x] eqn:E;
    [|vm_compute in E; discriminate].
  pose proof (headings_are_sections _ _ _ E) as H.
  vm_compute in E. injection E as <-.
  split; [reflexivity|]. split; [reflexivity|].
  apply (H {| heading_text := s2l "Setup"; heading_level := 2;
              heading_id := [] |}).
  right. left. reflexivity.
Defined.

Lemma entries_fine_nil (elems : list node) : entries_fine elems [].
Proof.
  split; [intros e [] |]. intros i j a b _ H. now destruct i.
Qed.

Lemma entries_fine_snoc (elems : list node) (l : list str) (elem : node) :
  entries_fine elems l ->
  In elem elems ->
  named container_names elem = true ->
  flat_text elem <> [] ->
  existsb (fun entry => str_in (flat_text elem) entry) l = false ->
  entries_fine elems (l ++ [flat_text elem]).
Proof.
  intros [H1 H2] Hin Hc Hne Hnone. split.
  - intros e He. apply in_app_or in He as [He | [<- | []]]; [now apply H1|].
    split; [exact Hne|]. now exists elem.
  - intros i j a b Hij Hi Hj.
    assert (Hjl : (j < length (l ++ [flat_text elem]))%nat).
    { apply nth_error_Some. congruence. }
    rewrite length_app in Hjl. cbn [length] in Hjl.
    rewrite nth_error_app1 in Hi by lia.
    destruct (Nat.eq_dec j (length l)) as [-> | Hj'].
    + rewrite nth_error_app2, Nat.sub_diag in Hj by lia. injection Hj as <-.
      destruct (str_in (flat_text elem) a) eqn:S; [|reflexivity].
      assert (T : existsb (fun entry => str_in (flat_text elem) entry) l = true).
      { apply existsb_exists. exists a. split; [|exact S].
        eapply nth_error_In. exact Hi. }
      congruence.
    + rewrite nth_error_app1 in Hj by lia. now apply (H2 i j).
Qed.

(** The scan keeps the entries of every section fine. *)
Lemma for_each_scan_entries (all elems : list node) (st : scan_state) :
  (forall e, In e elems -> In e all) ->
  scan_inv st ->
  (forall k l, dict_get k (snd st) = Ok l -> entries_fine all l) ->
  exists st',
    for_each elems main_text_step st = Ok st' /\
    (forall k l, dict_get k (snd st') = Ok l -> entries_fine all l).
Proof.
  revert st. induction elems as [|e elems IH]; intros st Hall Hst Hf.
  - now exists st.
  - destruct (main_text_step_inv e Hst) as [st1 [E1 [I1 _]]].
    assert (Hall' : forall x, In x elems -> In x all).
    { intros x Hx. apply Hall. now right. }
    assert (F1 : forall k l, dict_get k (snd st1) = Ok l -> entries_fine all l).
    { destruct st as [cur d]. cbn [fst snd] in *.
      destruct (named heading_names e) eqn:Hh.
      - rewrite main_text_step_heading in E1 by assumption.
        injection E1 as <-. cbn [snd].
        destruct (dict_has (strip (get_text e)) d) eqn:Hd; [exact Hf|].
        intros k l G. apply dict_has_false in Hd.
        apply dict_get_app_new in G; [|exact Hd].
        destruct G as [G | ->]; [now apply (Hf k) | apply entries_fine_nil].
      - destruct (named container_names e) eqn:Hp.
        + destruct (dict_get_In _ _ (inv_current Hst)) as [existing G].
          cbn [fst snd] in G.
          rewrite main_text_step_container with (existing := existing) in E1
            by assumption.
          injection E1 as <-. cbn [snd].
          destruct (nonempty (flat_text e)) eqn:N; cbn [andb]; [|exact Hf].
          destruct (existsb _ existing) eqn:X; cbn [negb]; [exact Hf|].
          intros k l. destruct (str_eq_dec k cur) as [-> | Hk].
          * rewrite dict_get_set_same. intros [= <-].
            apply entries_fine_snoc; auto.
            -- now apply (Hf cur).
            -- apply Hall. now left.
            -- now destruct (flat_text e).
          * rewrite dict_get_set_other by assumption. apply Hf.
        + rewrite main_text_step_other in E1 by assumption.
          injection E1 as <-. exact Hf. }
    destruct (IH st1 Hall' I1 F1) as [st2 [E2 F2]].
    exists st2. cbn [for_each]. rewrite E1. cbn [res_bind]. now split.
Qed.

(** X10. In every section of a page, each paragraph entry is the flat
    text, not empty, of a paragraph or container of the document, and no
    entry is contained in an entry that comes before it in the same
    section; in particular no entry occurs twice. *)
Theorem section_entries_fine (soup : node) :
  exists sections,
    extract_main_text soup = Ok sections /\
    forall k l, dict_get k sections = Ok l ->
      entries_fine (find_all block_names soup) l /\ NoDup l.
Proof.
  destruct (@for_each_scan_entries (find_all block_names soup)
              (find_all block_names soup)
              (main_content, dict_set main_content [] []))
    as [st [E F]]; auto using scan_inv_start.
  { intros k l. cbn [snd dict_set dict_get].
    destruct (str_eqb k main_content); [|discriminate].
    intros [= <-]. apply entries_fine_nil. }
  destruct (scan_sections_inv (find_all block_names soup)) as [st' [E' I']].
  unfold scan_sections in E'. rewrite E in E'. injection E' as <-.
  exists (snd st). unfold extract_main_text, scan_sections. rewrite E.
  split; [reflexivity|]. intros k l G. split; [now apply (F k)|].
  exact (inv_entries I' k G).
Qed.

Lemma section_entries_fine_witness :
  let soup :=
    Tag (s2l "[document]") []
      [ Tag (s2l "div") []
          [ Tag (s2l "p") [] [NavigableString (s2l "Alpha")];
            Tag (s2l "p") [] [NavigableString (s2l " beta ")] ];
        Tag (s2l "p") [] [NavigableString (s2l "Alpha beta gamma")] ] in
  extract_main_text soup
  = Ok [(main_content, [s2l "Alpha beta"; s2l "Alpha beta gamma"])] /\
  str_in (s2l "Alpha beta gamma") (s2l "Alpha beta") = false.
Proof.
  intros soup.
  assert (E : extract_main_text soup
              = Ok [(main_content, [s2l "Alpha beta"; s2l "Alpha beta gamma"])])
    by (vm_compute; reflexivity).
  split; [exact E|].
  destruct (section_entries_fine soup) as [sections [E' F]].
  rewrite E in E'. injection E' as <-.
  destruct (F main_content _ eq_refl) as [[_ H] _].
  apply (H 0%nat 1%nat); [lia | reflexivity | reflexivity].
Defined.

(** ** The session: the status message, and runs of clicks and steps back *)

Section SessionRuns.

Context {env : Env}.

(** X11. [clear_status] never raises, leaves no status message and every
    other field as it was, and clearing again changes nothing, in the
    agent or in the world.  [set_status] writes no field but the status
    message: when it returns, the status message is the message the channel
    has just sent for the text; when it raises, the agent is as before. *)
Theorem status_protocol (channel : Channel) (message : str) (a : agent)
    (w : World) :
  (exists a' w',
     clear_status (a, w) = (Ok tt, (a', w')) /\
     same_session a a' /\ status_message a' = None /\
     clear_status (a', w') = (Ok tt, (a', w'))) /\
  (forall r a' w',
     set_status channel message (a, w) = (r, (a', w')) ->
     same_session a a' /\
     match r with
     | Ok _ =>
         exists m w0,
           channel_send channel (pict_refresh ++ space ++ message) w0
           = (Ok m, w') /\
           status_message a' = Some m
     | Raise _ => a' = a
     end).
Proof.
  split.
  - destruct (clear_status_frame a w) as [a' [w' [E [S N]]]].
    exists a', w'. split; [exact E|]. split; [exact S|]. split; [exact N|].
    unfold clear_status. rewrite bind_eq, get_eq, N. reflexivity.
  - intros r a' w' H. split; [now apply set_status_frame in H|].
    revert H. unfold set_status. rewrite bind_eq, get_eq.
    assert (G : forall v r0 a0 v',
              (m <- call (channel_send channel (pict_refresh ++ space ++ message)) ;;
               modify (set_status_message (Some m))) (a, v) = (r0, (a0, v')) ->
              match r0 with
              | Ok _ =>
                  exists m w0,
                    channel_send channel (pict_refresh ++ space ++ message) w0
                    = (Ok m, v') /\
                    status_message a0 = Some m
              | Raise _ => a0 = a
              end).
    { intros v r0 a0 v'. rewrite bind_eq, call_eq.
      destruct (channel_send channel (pict_refresh ++ space ++ message) v)
        as [[m|x] v1] eqn:E; cbn [fst snd].
      - rewrite modify_eq. intros [= <- <- <-]. now exists m, v.
      - now intros [= <- <- <-]. }
    destruct (status_message a) as [m0|]; rewrite bind_eq.
    + unfold try_. rewrite call_eq. cbn [fst snd].
      destruct (fst (message_delete m0 w)); apply G.
    + unfold ret. apply G.
Qed.

(** X12. A direct navigation adds nothing to the history, so a step back
    after it does not return to the page the agent was on: with an empty
    history it answers that this is the first page and changes nothing;
    with a history it goes, when it returns, to the address the last click
    left there. *)
Theorem back_after_navigation (channel : Channel) (url : str) (a a1 : agent)
    (w w1 : World) (r : res (page_content + str)) :
  navigate_to_url channel url (a, w) = (r, (a1, w1)) ->
  (navigation_history a = [] ->
   go_back channel (a1, w1) = (Ok first_page_reply, (a1, w1))) /\
  (forall h u reply a2 w2,
     navigation_history a = h ++ [u] ->
     go_back channel (a1, w1) = (Ok reply, (a2, w2)) ->
     current_url a2 = u /\ navigation_history a2 = h).
Proof.
  intros N. apply navigate_to_url_outcome in N as [out [_ [_ [Hn _]]]].
  split.
  - intros H. apply go_back_empty. congruence.
  - intros h u reply a2 w2 H G. rewrite <- Hn in H.
    eapply go_back_outcome in G; [|exact H]. now destruct G as [U [Nv _]].
Qed.

Lemma clicked_history (channel : Channel) (n : nat) (s s1 : agent * World) :
  clicked channel n s s1 ->
  exists us,
    length us = n /\
    navigation_history (fst s1) = navigation_history (fst s) ++ us /\
    hd (current_url (fst s1)) us = current_url (fst s) /\
    (n = 0%nat -> s1 = s).
Proof.
  induction 1 as [s | n s s1 s2 target reply e w' _ IH Hp F C].
  - exists []. repeat split; auto. now rewrite app_nil_r.
  - destruct IH as [us [L [Hh [Hd H0]]]].
    destruct s1 as [a1 w1], s2 as [a2 w2]. cbn [fst snd] in *.
    pose proof C as O. apply click_link_outcome in O
      as [[P _] | [[w0 [F0 _]] | [e0 [w0 [_ [[x [X _]] | [N _]]]]]]].
    + congruence.
    + rewrite F in F0. discriminate.
    + discriminate.
    + exists (us ++ [current_url a1]). rewrite length_app. cbn [length].
      split; [lia|]. split; [now rewrite N, Hh, app_assoc|].
      split; [|lia].
      destruct us as [|u us]; [|exact Hd].
      cbn in L. subst n. specialize (H0 eq_refl). now subst s.
Qed.

Lemma went_back_history (channel : Channel) (n : nat) (s1 s2 : agent * World) :
  went_back channel n s1 s2 ->
  forall h us,
    navigation_history (fst s1) = h ++ us ->
    length us = n ->
    navigation_history (fst s2) = h /\
    match us with
    | [] => s2 = s1
    | u :: _ => current_url (fst s2) = u
    end.
Proof.
  induction 1 as [s | n s s1 s2 reply Hne G _ IH]; intros h us Hh L.
  - destruct us; [|discriminate]. rewrite app_nil_r in Hh. now split.
  - destruct (exists_last (l := us)) as [us' [u ->]].
    { intros ->. discriminate. }
    rewrite length_app in L. cbn [length] in L.
    destruct s as [a w], s1 as [a1 w1]. cbn [fst snd] in *.
    rewrite app_assoc in Hh.
    eapply go_back_outcome in G; [|exact Hh].
    destruct G as [U [Nv _]].
    destruct (IH h us' Nv) as [H1 H2]; [lia|].
    split; [exact H1|].
    destruct us' as [|u0 us']; cbn [app]; [|exact H2].
    now subst s2.
Qed.

(** X13. Steps back undo clicks, last click first: after [n] clicks that
    returned, [n] steps back that return leave the history as it was
    before the first click and, when [n] is not zero, the current address
    as it was then. *)
Theorem clicks_then_backs (channel : Channel) (n : nat)
    (s s1 s2 : agent * World) :
  clicked channel n s s1 ->
  went_back channel n s1 s2 ->
  navigation_history (fst s2) = navigation_history (fst s) /\
  (n <> 0%nat -> current_url (fst s2) = current_url (fst s)) /\
  length (navigation_history (fst s1))
  = (length (navigation_history (fst s)) + n)%nat.
Proof.
  intros C B.
  destruct (clicked_history C) as [us [L [Hh [Hd _]]]].
  destruct (went_back_history B _ _ Hh L) as [H1 H2].
  split; [exact H1|]. split.
  - intros Hn. destruct us as [|u us]; [cbn in L; congruence|].
    cbn [hd] in Hd. congruence.
  - rewrite Hh, length_app. lia.
Qed.

End SessionRuns.

Lemma clicks_then_backs_witness :
  exists s1 s2,
    @clicked small_world tt 1 (at_home, [home_url]) s1 /\
    @went_back small_world tt 1 s1 s2 /\
    current_url (fst s1) = Some signup_url /\
    current_url (fst s2) = Some home_url /\
    navigation_history (fst s2) = [].
Proof.
  pose (s1 := snd (@click_link small_world tt (s2l "Sign up")
                     (at_home, [home_url]))).
  pose (s2 := snd (@go_back small_world tt s1)).
  assert (C : @clicked small_world tt 1 (at_home, [home_url]) s1).
  { eapply (@clicked_more small_world tt 0 (at_home, [home_url])
              (at_home, [home_url]) s1 (s2l "Sign up")).
    - constructor.
    - discriminate.
    - vm_compute. reflexivity.
    - vm_compute. reflexivity. }
  assert (B : @went_back small_world tt 1 s1 s2).
  { eapply (@went_back_more small_world tt 0 s1 s2 s2).
    - vm_compute. discriminate.
    - vm_compute. reflexivity.
    - constructor. }
  exists s1, s2. split; [exact C|]. split; [exact B|].
  split; [vm_compute; reflexivity|].
  destruct (clicks_then_backs C B) as [H1 [H2 _]].
  split; [apply H2; discriminate | exact H1].
Defined.

Lemma status_protocol_witness :
  exists a' w',
    @set_status small_world tt (s2l "Loading") (at_home, [home_url])
      = (Ok tt, (a', w')) /\
    status_message a' = Some (pict_refresh ++ space ++ s2l "Loading") /\
    current_url a' = Some home_url.
Proof.
  destruct (@set_status small_world tt (s2l "Loading") (at_home, [home_url]))
    as [[[]|x] [a' w']] eqn:E; [|vm_compute in E; discriminate].
  exists a', w'. split; [reflexivity|].
  destruct (@status_protocol small_world tt (s2l "Loading") at_home [home_url])
    as [_ H].
  destruct (H _ _ _ E) as [[U _] [m [w0 [S M]]]].
  split; [|exact U]. rewrite M. f_equal.
  cbn in S. now injection S as <- _.
Defined.

Lemma back_after_navigation_witness :
  exists out a1 w1,
    @navigate_to_url small_world tt (s2l "example.com") (fresh, [])
      = (Ok out, (a1, w1)) /\
    w1 = [home_url] /\
    @go_back small_world tt (a1, w1) = (Ok first_page_reply, (a1, w1)).
Proof.
  destruct (@navigate_to_url small_world tt (s2l "example.com") (fresh, []))
    as [[out|x] [a1 w1]] eqn:E; [|vm_compute in E; discriminate].
  exists out, a1, w1. split; [reflexivity|].
  split; [vm_compute in E; now injection E as _ _ <-|].
  apply (proj1 (@back_after_navigation small_world _ _ _ _ _ _ _ E)). reflexivity.
Defined.

(** ** The actions on offer *)

Lemma head_differs (x y : str) : firstn 2 x <> firstn 2 y -> x <> y.
Proof. intros H E. apply H. now rewrite E. Qed.

Section Offered.

Context {env : Env}.

Lemma back_action_offered (a : agent) :
  In back_action (get_available_actions a) <-> navigation_history a <> [].
Proof.
  unfold get_available_actions.
  destruct (navigation_history a) as [|u h].
  - split; [|congruence]. intros H. exfalso. revert H.
    destruct (current_page_content a) as [c|]; [|intros []].
    destruct (images c), (headings c), (links c); cbn [app In];
      intros H;
      repeat (destruct H as [H|H];
              [symmetry in H; revert H; apply head_differs;
               unfold back_action, images_action; cbn; discriminate|]);
      exact H.
  - split; [discriminate|]. intros _.
    destruct (current_page_content a) as [c|]; [|now left].
    destruct (images c), (headings c), (links c); now left.
Qed.

Lemma back_action_first (a : agent) :
  navigation_history a <> [] ->
  hd_error (get_available_actions a) = Some back_action.
Proof.
  unfold get_available_actions.
  destruct (navigation_history a) as [|u h]; [congruence|]. intros _.
  destruct (current_page_content a) as [c|]; [|reflexivity].
  destruct (images c), (headings c), (links c); reflexivity.
Qed.

(** X14.  [get_available_actions] lists at most four actions, and the
    step back among them exactly when the history is not empty.  When it
    is not listed, [go_back] answers that this is the first page and
    changes nothing; after a click that found its element and returned,
    it is the first action listed. *)
Theorem back_offered_when_possible (channel : Channel) (a : agent)
    (w : World) :
  (In back_action (get_available_actions a) <-> navigation_history a <> []) /\
  (length (get_available_actions a) <= 4)%nat /\
  (~ In back_action (get_available_actions a) ->
   go_back channel (a, w) = (Ok first_page_reply, (a, w))) /\
  (forall target e w' reply a2 w2,
     current_page_content a <> None ->
     find_and_click_element target (a, w) = (Ok (Some e), (a, w')) ->
     click_link channel target (a, w) = (Ok reply, (a2, w2)) ->
     hd_error (get_available_actions a2) = Some back_action).
Proof.
  split; [apply back_action_offered|]. split; [|split].
  - unfold get_available_actions.
    destruct (navigation_history a), (current_page_content a) as [c|];
      try (destruct (images c), (headings c), (links c)); cbn; lia.
  - intros H. apply go_back_empty.
    destruct (navigation_history a) as [|u h] eqn:E; [reflexivity|].
    exfalso. apply H. apply back_action_offered. congruence.
  - intros target e w' reply a2 w2 P F C.
    apply click_link_outcome in C as [[N _] | [[w0 [F0 _]] | C]].
    + congruence.
    + congruence.
    + destruct C as [e0 [w0 [_ [[x [X _]] | [N _]]]]]; [discriminate|].
      apply back_action_first. rewrite N.
      now destruct (navigation_history a).
Qed.

End Offered.

Lemma back_offered_when_possible_witness :
  ~ In back_action (@get_available_actions small_world at_home) /\
  @go_back small_world tt (at_home, [home_url])
  = (Ok first_page_reply, (at_home, [home_url])).
Proof.
  assert (H : ~ In back_action (@get_available_actions small_world at_home)).
  { intros []. }
  split; [exact H|].
  exact (proj1 (proj2 (proj2
    (@back_offered_when_possible small_world tt at_home [home_url]))) H).
Defined.

(** ** Sections and images *)

Section ServicesFacts.

Context {env : Env} {services : Services env}.

Lemma same_session_trans (a b c : agent) :
  same_session a b -> same_session b c -> same_session a c.
Proof.
  intros [U1 [P1 [C1 [N1 S1]]]] [U2 [P2 [C2 [N2 S2]]]].
  split; [congruence|]. split; [congruence|]. split; [congruence|].
  split; congruence.
Qed.

(** The look for the heading of the section leaves the agent as it is. *)
Lemma section_probe (target : str) (a : agent) (w : World) :
  exists found w1,
    try_ (section <- call (wait_present XPATH (section_xpath target)) ;;
          call (scrolled_into_view section) ;;
          call_total (extract_section_content section)) (a, w)
    = (Ok found, (a, w1)) /\
    (forall section w0 w2,
       wait_present XPATH (section_xpath target) w = (Ok section, w0) ->
       scrolled_into_view section w0 = (Ok tt, w2) ->
       found = Some (fst (extract_section_content section w2))).
Proof.
  unfold try_. rewrite bind_eq, call_eq.
  destruct (wait_present XPATH (section_xpath target) w) as [[section|x] w0]
    eqn:W; cbn [fst snd].
  - rewrite bind_eq, call_eq.
    destruct (scrolled_into_view section w0) as [[[]|x] w2] eqn:Sc;
      cbn [fst snd].
    + rewrite call_total_eq. eexists _, _. split; [reflexivity|].
      intros s' w0' w2' [= <- <-] Sc'. rewrite Sc in Sc'.
      now injection Sc' as <-.
    + eexists _, _. split; [reflexivity|].
      intros s' w0' w2' [= <- <-] Sc'. rewrite Sc in Sc'. discriminate.
  - eexists _, _. split; [reflexivity|]. intros s' w0' w2' [=].
Qed.

(** X15.  [navigate_to_section] never raises, and never touches the
    address, the history, the status message, the conversation or the
    current section.  It replaces the page content exactly when it answers
    [True], that is after a click; so after it a step back from a first
    page is still refused, click or not.  When the heading is present and
    scrolled to, it answers with the content extracted there and the agent
    is as before. *)
Theorem navigate_to_section_frame (target : str) (a : agent) (w : World) :
  exists r a' w',
    navigate_to_section target (a, w) = (Ok r, (a', w')) /\
    current_url a' = current_url a /\
    navigation_history a' = navigation_history a /\
    status_message a' = status_message a /\
    conversation_history a' = conversation_history a /\
    current_section a' = current_section a /\
    (r = Flag true -> exists content, current_page_content a' = Some content) /\
    (r <> Flag true -> a' = a) /\
    (forall channel,
       navigation_history a = [] ->
       go_back channel (a', w') = (Ok first_page_reply, (a', w'))) /\
    (forall section w0 w2,
       wait_present XPATH (section_xpath target) w = (Ok section, w0) ->
       scrolled_into_view section w0 = (Ok tt, w2) ->
       r = Extracted (fst (extract_section_content section w2)) /\ a' = a).
Proof.
  assert (G : forall out r a' w',
            out = (Ok r, (a', w')) ->
            current_url a' = current_url a ->
            navigation_history a' = navigation_history a ->
            status_message a' = status_message a ->
            conversation_history a' = conversation_history a ->
            current_section a' = current_section a ->
            (r = Flag true ->
             exists content, current_page_content a' = Some content) ->
            (r <> Flag true -> a' = a) ->
            (forall section w0 w2,
               wait_present XPATH (section_xpath target) w = (Ok section, w0) ->
               scrolled_into_view section w0 = (Ok tt, w2) ->
               r = Extracted (fst (extract_section_content section w2))
               /\ a' = a) ->
            exists r a' w',
              out = (Ok r, (a', w')) /\
              current_url a' = current_url a /\
              navigation_history a' = navigation_history a /\
              status_message a' = status_message a /\
              conversation_history a' = conversation_history a /\
              current_section a' = current_section a /\
              (r = Flag true ->
               exists content, current_page_content a' = Some content) /\
              (r <> Flag true -> a' = a) /\
              (forall channel,
                 navigation_history a = [] ->
                 go_back channel (a', w') = (Ok first_page_reply, (a', w'))) /\
              (forall section w0 w2,
                 wait_present XPATH (section_xpath target) w = (Ok section, w0) ->
                 scrolled_into_view section w0 = (Ok tt, w2) ->
                 r = Extracted (fst (extract_section_content section w2))
                 /\ a' = a)).
  { intros out r a' w' E U N S C Z T F X. exists r, a', w'.
    split; [exact E|]. split; [exact U|]. split; [exact N|].
    split; [exact S|]. split; [exact C|]. split; [exact Z|].
    split; [exact T|]. split; [exact F|]. split; [|exact X].
    intros channel H. apply go_back_empty. congruence. }
  destruct (section_probe target a w) as [found [w1 [P X]]].
  unfold navigate_to_section, catch. rewrite bind_eq, P.
  destruct found as [content|].
  - eapply G; try reflexivity.
    + discriminate.
    + intros section w0 w2 W Sc. specialize (X _ _ _ W Sc).
      injection X as ->. now split.
  - assert (X' : forall section w0 w2,
              wait_present XPATH (section_xpath target) w = (Ok section, w0) ->
              scrolled_into_view section w0 = (Ok tt, w2) -> False).
    { intros section w0 w2 W Sc. specialize (X _ _ _ W Sc). discriminate. }
    rewrite bind_eq.
    destruct (find_and_click_element_returns target a w1) as [element [w2 F]].
    rewrite F. destruct element as [element|].
    2:{ eapply G; try reflexivity; try discriminate.
        intros section w0 w3 W Sc. destruct (X' _ _ _ W Sc). }
    rewrite bind_eq, call_eq.
    destruct (element_click element w2) as [[[]|x] w3]; cbn [fst snd].
    2:{ eapply G; try reflexivity; try discriminate.
        intros section w0 w4 W Sc. destruct (X' _ _ _ W Sc). }
    rewrite bind_eq.
    destruct (extract_page (a, w3)) as [[content|x] [a4 w4]] eqn:E.
    + apply extract_page_frame in E as [-> _].
      rewrite bind_eq, modify_eq.
      eapply G; try reflexivity.
      * intros _. now eexists.
      * intros H. now destruct H.
      * intros section w0 w5 W Sc. destruct (X' _ _ _ W Sc).
    + apply extract_page_frame in E as [-> _].
      eapply G; try reflexivity; try discriminate.
      intros section w0 w5 W Sc. destruct (X' _ _ _ W Sc).
Qed.

(** [describe_image] always returns a text and leaves the agent alone. *)
Lemma describe_image_returns (image_url : str) (a : agent) (w : World) :
  exists desc w', describe_image image_url (a, w) = (Ok desc, (a, w')).
Proof.
  unfold describe_image, catch. rewrite bind_eq, call_eq.
  destruct (vision_describe image_url w) as [[captions|x] w1]; cbn [fst snd].
  - destruct captions; unfold ret; now eexists _, _.
  - unfold ret. now eexists _, _.
Qed.

Lemma set_status_sends (channel : Channel) (message : str) (a : agent)
    (w : World) :
  sends env ->
  exists a' w', set_status channel message (a, w) = (Ok tt, (a', w')).
Proof.
  intros Hsend.
  unfold set_status. rewrite bind_eq, get_eq.
  destruct (status_message a) as [m0|]; rewrite bind_eq.
  - unfold try_. rewrite call_eq. cbn [fst snd].
    destruct (Hsend channel (pict_refresh ++ space ++ message)
                (snd (message_delete m0 w))) as [m [w' E]].
    destruct (fst (message_delete m0 w));
      rewrite bind_eq, call_eq, E; cbn [fst snd]; rewrite modify_eq;
      now eexists _, _.
  - unfold ret.
    destruct (Hsend channel (pict_refresh ++ space ++ message) w)
      as [m [w' E]].
    rewrite bind_eq, call_eq, E. cbn [fst snd]. rewrite modify_eq.
    now eexists _, _.
Qed.

(** The loop over the pictures: whatever it does, the session is kept; the
    lines it adds are those of the descriptions it was given for the
    pictures with an absolute address, one description for each, in
    order. *)
Lemma describe_each_frame (channel : Channel) (end_index : nat)
    (imgs : list image) :
  forall (i : nat) (descriptions : list str) (a a' : agent) (w w' : World)
         (r : res (list str)),
    describe_each channel end_index i imgs descriptions (a, w)
    = (r, (a', w')) ->
    same_session a a' /\
    match r with
    | Ok out =>
        exists descs,
          Forall2 described (absolute_ones imgs) descs /\
          out = descriptions ++ lines_of i imgs descs
    | Raise _ => True
    end.
Proof.
  induction imgs as [|img rest IH]; intros i descriptions a a' w w' r;
    cbn [describe_each].
  - intros [= <- <- <-]. split; [apply same_session_refl|].
    exists []. split; [constructor | now rewrite app_nil_r].
  - unfold absolute_ones. cbn [filter lines_of].
    destruct (is_absolute (image_src img)) eqn:A.
    + rewrite bind_eq.
      match goal with
      | |- context [set_status ?c ?t ?s] =>
          destruct (set_status c t s) as [[[]|x] [a1 w1]] eqn:S
      end.
      * apply set_status_frame in S as [S1 _]. rewrite bind_eq.
        destruct (describe_image_returns (image_src img) a1 w1)
          as [desc [w2 D]].
        rewrite D. intros H. apply IH in H as [S2 H].
        split; [eapply same_session_trans; eassumption|].
        destruct r as [out|]; [|exact I]. destruct H as [descs [L ->]].
        exists (desc :: descs). split.
        -- constructor; [now exists a1, w1, w2 | exact L].
        -- destruct desc as [|c d]; [reflexivity|].
           now rewrite <- app_assoc.
      * intros [= <- <- <-]. apply set_status_frame in S as [S1 _].
        split; [exact S1 | exact I].
    + intros H. apply IH in H as [S2 H]. split; [exact S2|].
      destruct r as [out|]; [|exact I]. exact H.
Qed.

Lemma describe_each_returns (channel : Channel) (end_index : nat)
    (imgs : list image) :
  sends env ->
  forall (i : nat) (descriptions : list str) (a : agent) (w : World),
  exists out a' w',
    describe_each channel end_index i imgs descriptions (a, w)
    = (Ok out, (a', w')).
Proof.
  intros Hsend.
  induction imgs as [|img rest IH]; intros i descriptions a w;
    cbn [describe_each].
  - now eexists _, _, _.
  - destruct (is_absolute (image_src img)); [|apply IH].
    rewrite bind_eq.
    match goal with
    | |- context [set_status ?c ?t ?s] =>
        destruct (set_status_sends c t a w Hsend) as [a1 [w1 S]]
    end.
    rewrite S, bind_eq.
    destruct (describe_image_returns (image_src img) a1 w1) as [desc [w2 D]].
    rewrite D. apply IH.
Qed.

(** Pictures without an absolute address give no line. *)
Lemma lines_skipped (imgs : list image) :
  (forall img, In img imgs -> is_absolute (image_src img) = false) ->
  forall i descs, lines_of i imgs descs = [].
Proof.
  induction imgs as [|img rest IH]; intros H i descs; [reflexivity|].
  cbn [lines_of]. rewrite (H img) by now left.
  apply IH. intros img' Hin. apply H. now right.
Qed.

(** Every way [describe_specific_images] can end. *)
Lemma describe_specific_images_outcome (channel : Channel)
    (start_index count : nat) (a a' : agent) (w w' : World) (r : res str) :
  describe_specific_images channel start_index count (a, w) = (r, (a', w')) ->
  same_session a a' /\
  match r with
  | Raise _ => True
  | Ok reply =>
      status_message a' = None /\
      match current_page_content a with
      | None => reply = no_images_available
      | Some content =>
          let n := length (images content) in
          let stop := Nat.min (start_index + count) n in
          if (n =? 0)%nat then reply = no_images_found
          else if (n <=? start_index)%nat then reply = no_more_images
          else
            exists descs,
              Forall2 described
                (absolute_ones (window (images content) start_index stop))
                descs /\
              reply = join newline
                        (lines_of (start_index + 1)
                           (window (images content) start_index stop) descs)
                      ++ (if (0 <? n - stop)%nat then more_images (n - stop)
                          else [])
      end
  end.
Proof.
  unfold describe_specific_images. rewrite bind_eq.
  match goal with
  | |- context [set_status ?c ?t ?s] =>
      destruct (set_status c t s) as [[[]|x] [a1 w1]] eqn:S
  end.
  2:{ intros [= <- <- <-]. apply set_status_frame in S as [S1 _].
      split; [exact S1 | exact I]. }
  apply set_status_frame in S as [S1 _].
  assert (P1 : current_page_content a1 = current_page_content a)
    by apply S1.
  assert (Fin : forall (reply : str) (a2 : agent) (w2 : World),
            same_session a a2 ->
            forall r a' w',
              (clear_status ;; ret reply) (a2, w2) = (r, (a', w')) ->
              same_session a a' /\ r = Ok reply /\ status_message a' = None).
  { intros reply a2 w2 S2 r0 a0 w0. rewrite bind_eq.
    destruct (clear_status_frame a2 w2) as [a3 [w3 [E [S3 N]]]]. rewrite E.
    intros [= <- <- <-].
    split; [eapply same_session_trans; eassumption|]. now split. }
  rewrite bind_eq, get_eq, P1.
  destruct (current_page_content a) as [content|].
  2:{ intros H. apply Fin in H as [S2 [-> N]]; [|exact S1]. now split. }
  destruct (images content) as [|img0 imgs0] eqn:Im.
  { intros H. apply Fin in H as [S2 [-> N]]; [|exact S1]. now split. }
  rewrite <- Im. cbv zeta.
  assert (Z : (length (images content) =? 0)%nat = false).
  { rewrite Im. reflexivity. }
  rewrite Z.
  destruct (length (images content) <=? start_index)%nat.
  { intros H. apply Fin in H as [S2 [-> N]]; [|exact S1]. now split. }
  rewrite bind_eq.
  match goal with
  | |- context [describe_each ?c ?e ?i ?l ?d ?s] =>
      destruct (describe_each c e i l d s) as [[out|x] [a2 w2]] eqn:D
  end.
  2:{ intros [= <- <- <-]. apply describe_each_frame in D as [S2 _].
      split; [eapply same_session_trans; eassumption | exact I]. }
  apply describe_each_frame in D as [S2 [descs [L ->]]].
  intros H. apply Fin in H as [S3 [-> N]];
    [|eapply same_session_trans; eassumption].
  split; [exact S3|]. split; [exact N|].
  exists descs. split; [exact L|]. cbn [app].
  destruct (0 <? _)%nat; [reflexivity | now rewrite app_nil_r].
Qed.

(** X16.  [describe_specific_images] touches nothing of the session but
    the status message, also when it raises; when it returns, the status
    message is cleared.  Where every send on the channel succeeds, it
    returns. *)
Theorem describe_images_session (channel : Channel)
    (start_index count : nat) (a : agent) (w : World) :
  (forall r a' w',
     describe_specific_images channel start_index count (a, w)
     = (r, (a', w')) ->
     same_session a a' /\
     match r with
     | Ok _ => status_message a' = None
     | Raise _ => True
     end) /\
  (sends env ->
   exists reply a' w',
     describe_specific_images channel start_index count (a, w)
     = (Ok reply, (a', w'))).
Proof.
  split.
  - intros r a' w' H. apply describe_specific_images_outcome in H as [S H].
    split; [exact S|]. destruct r; [apply H | exact I].
  - intros Hsend. unfold describe_specific_images. rewrite bind_eq.
    match goal with
    | |- context [set_status ?c ?t ?s] =>
        destruct (set_status_sends c t a w Hsend) as [a1 [w1 S]]
    end.
    rewrite S, bind_eq, get_eq.
    assert (Fin : forall (reply : str) (a2 : agent) (w2 : World),
              exists reply' a' w',
                (clear_status ;; ret reply) (a2, w2) = (Ok reply', (a', w'))).
    { intros reply a2 w2. rewrite bind_eq.
      destruct (clear_status_frame a2 w2) as [a3 [w3 [E _]]]. rewrite E.
      now eexists _, _, _. }
    destruct (current_page_content a1) as [content|]; [|apply Fin].
    destruct (images content) as [|img0 imgs0] eqn:Im; [apply Fin|].
    rewrite <- Im. cbv zeta.
    destruct (length (images content) <=? start_index)%nat; [apply Fin|].
    rewrite bind_eq.
    match goal with
    | |- context [describe_each ?c ?e ?i ?l ?d ?s] =>
        destruct (describe_each_returns c e l Hsend i d a1 w1)
          as [out [a2 [w2 D]]]
    end.
    rewrite D. apply Fin.
Qed.

(** X17.  What [describe_specific_images] answers when it returns: a
    fixed text when no page is loaded, when the page has no picture and
    when the start is past the last picture; else, with one answer of
    [describe_image] for each picture of the window that has an absolute
    address, one line for each of these pictures whose answer is not
    empty, numbered by the picture's position on the page and in that
    order, and no other line; then the number of pictures left, when some
    are.  When no picture of the window has an absolute address and none
    is left, the answer is empty, and the chat sends its fallback. *)
Theorem describe_images_reply (channel : Channel) (start_index count : nat)
    (a a' : agent) (w w' : World) (reply : str) :
  describe_specific_images channel start_index count (a, w)
  = (Ok reply, (a', w')) ->
  match current_page_content a with
  | None => reply = no_images_available
  | Some content =>
      let n := length (images content) in
      let stop := Nat.min (start_index + count) n in
      if (n =? 0)%nat then reply = no_images_found
      else if (n <=? start_index)%nat then reply = no_more_images
      else
        (exists descs,
           Forall2 described
             (absolute_ones (window (images content) start_index stop))
             descs /\
           reply = join newline
                     (lines_of (start_index + 1)
                        (window (images content) start_index stop) descs)
                   ++ (if (0 <? n - stop)%nat then more_images (n - stop)
                       else [])) /\
        ((forall img,
            In img (window (images content) start_index stop) ->
            is_absolute (image_src img) = false) ->
         (n <= start_index + count)%nat ->
         reply = [] /\ outgoing reply = [not_sure_reply])
  end.
Proof.
  intros H. apply describe_specific_images_outcome in H as [_ [_ H]].
  destruct (current_page_content a) as [content|]; [|exact H].
  cbv zeta in *.
  destruct (length (images content) =? 0)%nat; [exact H|].
  destruct (length (images content) <=? start_index)%nat; [exact H|].
  split; [exact H|]. intros Rel Le.
  destruct H as [descs [_ ->]].
  rewrite lines_skipped by exact Rel.
  rewrite Nat.min_r by exact Le. rewrite Nat.sub_diag. now split.
Qed.

End ServicesFacts.

Lemma small_world_sends : sends small_world.
Proof. intros channel text w. now exists text, w. Qed.

Lemma navigate_to_section_frame_witness :
  exists a' w',
    @navigate_to_section small_world small_services (s2l "Sign up")
      (at_home, [home_url])
    = (Ok (Flag true), (a', w')) /\
    w' = [signup_url; home_url] /\
    current_url a' = Some home_url /\
    navigation_history a' = [] /\
    @go_back small_world tt (a', w') = (Ok first_page_reply, (a', w')).
Proof.
  destruct (@navigate_to_section_frame small_world small_services
              (s2l "Sign up") at_home [home_url])
    as [r [a' [w' [E [U [N [_ [_ [_ [_ [_ [B _]]]]]]]]]]]].
  exists a', w'.
  assert (R : r = Flag true /\ w' = [signup_url; home_url]).
  { vm_compute in E. injection E as <- _ <-. now split. }
  destruct R as [-> ->].
  split; [exact E|]. split; [reflexivity|]. split; [exact U|].
  split; [exact N|]. apply B. reflexivity.
Defined.

Lemma describe_images_session_witness :
  exists reply a' w',
    @describe_specific_images small_world small_services tt 0 3
      (with_pictures, [home_url])
    = (Ok reply, (a', w')) /\
    status_message a' = None /\
    current_page_content a' = current_page_content with_pictures.
Proof.
  destruct (@describe_images_session small_world small_services tt 0 3
              with_pictures [home_url]) as [F R].
  destruct (R small_world_sends) as [reply [a' [w' E]]].
  exists reply, a', w'. split; [exact E|].
  destruct (F _ _ _ E) as [[_ [P _]] N]. split; [exact N | exact P].
Defined.

Lemma describe_images_reply_witness :
  exists reply a' w',
    @describe_specific_images small_world small_services tt 0 3
      (with_pictures, [home_url])
    = (Ok reply, (a', w')) /\
    reply = join newline [image_line 1 (s2l "a picture");
                          image_line 3 (s2l "a picture")]
            ++ more_images 1.
Proof.
  destruct (@describe_specific_images small_world small_services tt 0 3
              (with_pictures, [home_url])) as [[reply|x] [a' w']] eqn:E;
    [|vm_compute in E; discriminate].
  exists reply, a', w'. split; [reflexivity|].
  destruct (proj1 (@describe_images_reply small_world small_services tt 0 3
                     with_pictures a' [home_url] w' reply E))
    as [descs [D R]].
  assert (P : forall img d,
            @described small_world small_services img d ->
            d = s2l "a picture").
  { intros img d [a0 [w0 [w1 H]]]. cbv in H. now injection H as <- _. }
  cbv [absolute_ones window with_pictures current_page_content images
       firstn skipn Nat.min Nat.add Nat.sub length filter] in D.
  cbn in D. rewrite R. clear R E.
  inversion D as [|i1 d1 l1 ds1 H1 D1 E1 E2]. subst descs.
  inversion D1 as [|i3 d3 l3 ds3 H3 D3 E3 E4]. subst ds1.
  inversion D3 as [E5 E6|]. subst ds3.
  apply P in H1. apply P in H3. rewrite H1, H3. reflexivity.
Defined.

(** ** The locator and the language of its queries *)

Lemma drop_prefix_app (p r : str) : drop_prefix p (p ++ r) = Some r.
Proof.
  induction p as [|c p IH]; [reflexivity|].
  cbn [app drop_prefix]. now rewrite Ascii.eqb_refl.
Qed.

Lemma literal_app (v rest : str) :
  no_apostrophe v = true -> literal (v ++ squote :: rest) = Some (v, rest).
Proof.
  induction v as [|c v IH]; cbn [app literal no_apostrophe forallb].
  - intros _. now rewrite Ascii.eqb_refl.
  - intros H. apply andb_true_iff in H as [Hc Hv].
    apply negb_true_iff in Hc. rewrite Hc. now rewrite IH.
Qed.

Lemma quoting_app (a b : str) :
  forall st, quoting st (a ++ b) = quoting (quoting st a) b.
Proof.
  induction a as [|c a IH]; intros st; [reflexivity|].
  cbn [app quoting]. destruct st as [q|].
  - destruct (Ascii.eqb c q); apply IH.
  - destruct (is_quote c); apply IH.
Qed.

(** Inside a literal that an apostrophe opened, a text without an
    apostrophe leaves the literal open. *)
Lemma quoting_inside (v : str) :
  no_apostrophe v = true -> quoting (Some squote) v = Some squote.
Proof.
  induction v as [|c v IH]; [reflexivity|].
  cbn [no_apostrophe forallb quoting]. intros H.
  apply andb_true_iff in H as [Hc Hv]. apply negb_true_iff in Hc.
  rewrite Hc. now apply IH.
Qed.

(** In a text without a double quote, each apostrophe opens or closes a
    literal. *)
Lemma quoting_toggle (t : str) :
  no_dquote t = true ->
  forall st, st = None \/ st = Some squote ->
  quoting st t = if Nat.odd (apostrophes t) then flip st else st.
Proof.
  induction t as [|c t IH]; [reflexivity|].
  cbn [no_dquote forallb]. intros H.
  apply andb_true_iff in H as [Hc Ht]. apply negb_true_iff in Hc.
  specialize (IH Ht).
  intros st Hst. unfold apostrophes in *. cbn [count_occ quoting].
  destruct (ascii_dec c squote) as [->|Hn].
  - rewrite Nat.odd_succ, <- Nat.negb_odd.
    destruct Hst as [-> | ->].
    + cbn [is_quote]. replace (is_quote squote) with true by reflexivity.
      rewrite IH by now right.
      now destruct (Nat.odd _).
    + rewrite Ascii.eqb_refl. rewrite IH by now left.
      now destruct (Nat.odd _).
  - assert (E : Ascii.eqb c squote = false) by now apply Ascii.eqb_neq.
    destruct Hst as [-> | ->].
    + unfold is_quote. rewrite Hc, E. cbn [orb]. apply IH. now left.
    + rewrite E. apply IH. now right.
Qed.

Lemma name_of_app (n rest : str) (c : ascii) :
  forallb name_char n = true -> name_char c = false ->
  name_of (n ++ c :: rest) = (n, c :: rest).
Proof.
  intros Hn Hc. induction n as [|d n IH]; cbn [app name_of].
  - now rewrite Hc.
  - cbn [forallb] in Hn. apply andb_true_iff in Hn as [Hd Hn].
    rewrite Hd, (IH Hn). reflexivity.
Qed.

(** The three forms of test, read back from their text. *)
Lemma test_of_attr (name value rest : str) :
  name <> [] -> forallb name_char name = true ->
  no_apostrophe value = true ->
  test_of (s2l "@" ++ name ++ s2l "='" ++ value ++ squote :: rest)
  = Some (XAttr name value, rest).
Proof.
  intros Hne Hn Hv. unfold test_of.
  rewrite drop_prefix_app.
  change (s2l "='" ++ value ++ squote :: rest)
    with ("="%char :: (s2l "'" ++ value ++ squote :: rest)).
  rewrite name_of_app by (exact Hn || reflexivity).
  destruct name as [|c name]; [congruence|].
  change ("="%char :: (s2l "'" ++ value ++ squote :: rest))
    with (s2l "='" ++ value ++ squote :: rest).
  rewrite drop_prefix_app. cbn [and_then].
  rewrite literal_app by exact Hv. reflexivity.
Qed.

Lemma test_of_text (from to value rest : str) :
  no_apostrophe from = true -> no_apostrophe to = true ->
  no_apostrophe value = true ->
  test_of (s2l "translate(text(), '" ++ from ++ squote :: s2l ", '" ++ to
           ++ squote :: s2l ")='" ++ value ++ squote :: rest)
  = Some (XText from to value, rest).
Proof.
  intros Hf Ht Hv. unfold test_of.
  replace (drop_prefix (s2l "@") _) with (@None str) by reflexivity.
  rewrite drop_prefix_app. cbn [and_then].
  rewrite literal_app by exact Hf. cbn [and_then fst snd].
  rewrite drop_prefix_app. cbn [and_then].
  rewrite literal_app by exact Ht. cbn [and_then fst snd].
  rewrite drop_prefix_app. cbn [and_then].
  rewrite literal_app by exact Hv. reflexivity.
Qed.

Lemma test_of_contains (from to value rest : str) :
  no_apostrophe from = true -> no_apostrophe to = true ->
  no_apostrophe value = true ->
  test_of (s2l "contains(translate(text(), '" ++ from ++ squote :: s2l ", '"
           ++ to ++ squote :: s2l "), '" ++ value ++ squote :: s2l ")"
           ++ rest)
  = Some (XContains from to value, rest).
Proof.
  intros Hf Ht Hv. unfold test_of.
  replace (drop_prefix (s2l "@") _) with (@None str) by reflexivity.
  replace (drop_prefix (s2l "translate(text(), '") _) with (@None str)
    by reflexivity.
  rewrite drop_prefix_app. cbn [and_then].
  rewrite literal_app by exact Hf. cbn [and_then fst snd].
  rewrite drop_prefix_app. cbn [and_then].
  rewrite literal_app by exact Ht. cbn [and_then fst snd].
  rewrite drop_prefix_app. cbn [and_then].
  rewrite literal_app by exact Hv. cbn [and_then fst snd].
  rewrite drop_prefix_app. reflexivity.
Qed.

(** What the query of the fourth strategy asks, for a target without an
    apostrophe. *)
Lemma parse_by_label (target : str) :
  no_apostrophe target = true ->
  parse_query (xpath_by_label target)
  = Some (XOr (XAttr (s2l "aria-label") target)
            (XOr (XAttr (s2l "title") target)
               (XAttr (s2l "alt") target))).
Proof.
  intros H. unfold xpath_by_label, parse_query.
  change (s2l "//*[@aria-label='" ++ target ++ s2l "' or @title='" ++ target
          ++ s2l "' or @alt='" ++ target ++ s2l "']")
    with (s2l "//*["
          ++ (s2l "@" ++ s2l "aria-label" ++ s2l "='" ++ target ++ squote ::
              (s2l " or "
               ++ (s2l "@" ++ s2l "title" ++ s2l "='" ++ target ++ squote ::
                   (s2l " or "
                    ++ (s2l "@" ++ s2l "alt" ++ s2l "='" ++ target
                        ++ squote :: s2l "]")))))).
  rewrite drop_prefix_app.
  match goal with
  | |- context [tests_of (length ?b) _] =>
      assert (L : (3 <= length b)%nat)
        by (rewrite !length_app; cbn [length s2l list_ascii_of_string]; lia);
      destruct (length b) as [|[|[|k]]]; try lia; clear L
  end.
  cbn [tests_of].
  rewrite test_of_attr by (discriminate || reflexivity || exact H).
  rewrite drop_prefix_app.
  rewrite test_of_attr by (discriminate || reflexivity || exact H).
  rewrite drop_prefix_app.
  cbn [tests_of].
  rewrite test_of_attr by (discriminate || reflexivity || exact H).
  replace (drop_prefix (s2l " or ") (s2l "]")) with (@None str)
    by reflexivity.
  now rewrite str_eqb_refl.
Qed.

(** What the query of the third strategy asks, for a target that has no
    apostrophe. *)
Lemma parse_by_text (target : str) :
  no_apostrophe (lower target) = true ->
  parse_query (xpath_by_text target)
  = Some (XOr (XText upper_letters lower_letters (lower target))
            (XContains upper_letters lower_letters (lower target))).
Proof.
  intros H. unfold xpath_by_text, xpath_folded_text, parse_query.
  rewrite <- !app_assoc.
  change (s2l "//*[" ++ s2l "translate(text(), '" ++ upper_letters
          ++ s2l "', '" ++ lower_letters ++ s2l "')" ++ s2l "='"
          ++ lower target ++ s2l "' or contains("
          ++ s2l "translate(text(), '" ++ upper_letters ++ s2l "', '"
          ++ lower_letters ++ s2l "')" ++ s2l ", '" ++ lower target
          ++ s2l "')]")
    with (s2l "//*["
          ++ (s2l "translate(text(), '" ++ upper_letters ++ squote ::
              s2l ", '" ++ lower_letters ++ squote :: s2l ")='"
              ++ lower target ++ squote ::
              (s2l " or "
               ++ (s2l "contains(translate(text(), '" ++ upper_letters
                   ++ squote :: s2l ", '" ++ lower_letters ++ squote ::
                   s2l "), '" ++ lower target ++ squote :: s2l ")"
                   ++ s2l "]")))).
  rewrite drop_prefix_app.
  match goal with
  | |- context [tests_of (length ?b) _] =>
      assert (L : (2 <= length b)%nat)
        by (rewrite !length_app; cbn [length s2l list_ascii_of_string]; lia);
      destruct (length b) as [|[|k]]; try lia; clear L
  end.
  cbn [tests_of].
  rewrite test_of_text by (reflexivity || exact H).
  rewrite drop_prefix_app.
  rewrite test_of_contains by (reflexivity || exact H).
  replace (drop_prefix (s2l " or ") (s2l "]")) with (@None str)
    by reflexivity.
  now rewrite str_eqb_refl.
Qed.

(** No literal is left open in the query of the fourth strategy when the
    target has no apostrophe ... *)
Lemma label_query_quoted (target : str) :
  no_apostrophe target = true -> well_quoted (xpath_by_label target) = true.
Proof.
  intros H. unfold well_quoted, xpath_by_label.
  rewrite quoting_app.
  replace (quoting None (s2l "//*[@aria-label='")) with (Some squote)
    by reflexivity.
  rewrite quoting_app, (quoting_inside _ H), quoting_app.
  replace (quoting (Some squote) (s2l "' or @title='")) with (Some squote)
    by reflexivity.
  rewrite quoting_app, (quoting_inside _ H), quoting_app.
  replace (quoting (Some squote) (s2l "' or @alt='")) with (Some squote)
    by reflexivity.
  rewrite quoting_app, (quoting_inside _ H). reflexivity.
Qed.

(** ... and one is left open when the target has an odd number of
    apostrophes and no double quote. *)
Lemma label_query_open (target : str) :
  no_dquote target = true -> Nat.odd (apostrophes target) = true ->
  well_quoted (xpath_by_label target) = false.
Proof.
  intros Hd Ho. unfold well_quoted, xpath_by_label.
  pose proof (quoting_toggle _ Hd) as T. rewrite Ho in T.
  rewrite quoting_app.
  replace (quoting None (s2l "//*[@aria-label='")) with (Some squote)
    by reflexivity.
  rewrite quoting_app, (T (Some squote)) by now right. cbn [flip].
  rewrite quoting_app.
  replace (quoting None (s2l "' or @title='")) with (@None ascii)
    by reflexivity.
  rewrite quoting_app, (T None) by now left. cbn [flip].
  rewrite quoting_app.
  replace (quoting (Some squote) (s2l "' or @alt='")) with (Some squote)
    by reflexivity.
  rewrite quoting_app, (T (Some squote)) by now right. cbn [flip].
  reflexivity.
Qed.

Lemma text_query_quoted (target : str) :
  no_apostrophe (lower target) = true ->
  well_quoted (xpath_by_text target) = true.
Proof.
  intros H. unfold well_quoted, xpath_by_text.
  rewrite quoting_app.
  replace (quoting None (s2l "//*[")) with (@None ascii) by reflexivity.
  rewrite quoting_app.
  replace (quoting None xpath_folded_text) with (@None ascii) by reflexivity.
  rewrite quoting_app.
  replace (quoting None (s2l "='")) with (Some squote) by reflexivity.
  rewrite quoting_app, (quoting_inside _ H), quoting_app.
  replace (quoting (Some squote) (s2l "' or contains(")) with (@None ascii)
    by reflexivity.
  rewrite quoting_app.
  replace (quoting None xpath_folded_text) with (@None ascii) by reflexivity.
  rewrite quoting_app.
  replace (quoting None (s2l ", '")) with (Some squote) by reflexivity.
  rewrite quoting_app, (quoting_inside _ H). reflexivity.
Qed.

Section Locator.

Context {env : Env} {page : Page env}.

(** The fourth strategy under a driver that follows the language: for a
    target without an apostrophe it gives the first element with the
    target as [aria-label], [title] or [alt] when that element is
    clickable, and raises otherwise. *)
Lemma probe_by_label (target : str) (w : World) :
  follows_xpath -> no_apostrophe target = true ->
  match find (fun e => labelled target (attributes e w)) (page_elements w) with
  | Some e =>
      if is_clickable e w
      then exists w', wait_clickable XPATH (xpath_by_label target) w = (Ok e, w')
      else exists x w',
             wait_clickable XPATH (xpath_by_label target) w = (Raise x, w')
  | None =>
      exists x w',
        wait_clickable XPATH (xpath_by_label target) w = (Raise x, w')
  end.
Proof.
  intros F H.
  destruct (F (xpath_by_label target) w) as [_ G].
  exact (G _ (@label_query_quoted target H) (@parse_by_label target H)).
Qed.

Lemma probe_by_text (target : str) (w : World) :
  follows_xpath -> no_apostrophe (lower target) = true ->
  match find (fun e => text_matches target (text_children e w))
          (page_elements w) with
  | Some e =>
      if is_clickable e w
      then exists w', wait_clickable XPATH (xpath_by_text target) w = (Ok e, w')
      else exists x w',
             wait_clickable XPATH (xpath_by_text target) w = (Raise x, w')
  | None =>
      exists x w',
        wait_clickable XPATH (xpath_by_text target) w = (Raise x, w')
  end.
Proof.
  intros F H.
  destruct (F (xpath_by_text target) w) as [_ G].
  exact (G _ (@text_query_quoted target H) (@parse_by_text target H)).
Qed.

(** C4.  The locator is the cascade of its four strategies in their order:
    link text, partial link text, the query on the text of any element,
    then the query on the attributes.  It stops at the first strategy that
    finds an element, a strategy that raises or times out only passes on
    to the next, and when none finds anything the result is no element; it
    never raises and never writes the agent.

    For a target without an apostrophe the third query asks for an element
    whose first text, its letters A to Z in lower case, is the target in
    lower case or contains it, and the fourth for an element whose
    [aria-label], [title] or [alt] is the target.  So, with a driver that
    follows the query language: when the first two strategies fail, the
    third gives the first element with such a text, if it is clickable;
    when the first three fail, the result is the first element with such
    an attribute if it is clickable, and no element otherwise.

    A target with an odd number of apostrophes (and no double quote) leaves
    a literal open in the fourth query: the driver refuses it, and when
    the first three strategies fail the result is no element, whatever
    the [aria-label] of the elements of the page. *)
Theorem locator_cascade (target : str) :
  (forall s, find_and_click_element target s = cascade (strategies target) s) /\
  (forall a w,
     exists found w',
       find_and_click_element target (a, w) = (Ok found, (a, w'))) /\
  (forall a w, cascade [] (a, w) = (Ok None, (a, w))) /\
  (forall p rest a w,
     cascade (p :: rest) (a, w)
     = match wait_clickable (fst p) (snd p) w with
       | (Ok e, w1) => (Ok (Some e), (a, w1))
       | (Raise _, w1) => cascade rest (a, w1)
       end) /\
  (no_apostrophe (lower target) = true ->
   parse_query (xpath_by_text target)
   = Some (XOr (XText upper_letters lower_letters (lower target))
             (XContains upper_letters lower_letters (lower target)))) /\
  (no_apostrophe target = true ->
   parse_query (xpath_by_label target)
   = Some (XOr (XAttr (s2l "aria-label") target)
             (XOr (XAttr (s2l "title") target)
                (XAttr (s2l "alt") target)))) /\
  (follows_xpath -> no_apostrophe (lower target) = true ->
   forall a w x1 w1 x2 w2 e,
     wait_clickable LINK_TEXT target w = (Raise x1, w1) ->
     wait_clickable PARTIAL_LINK_TEXT target w1 = (Raise x2, w2) ->
     find (fun e => text_matches target (text_children e w2))
       (page_elements w2) = Some e ->
     is_clickable e w2 = true ->
     exists w3,
       find_and_click_element target (a, w) = (Ok (Some e), (a, w3))) /\
  (follows_xpath -> no_apostrophe target = true ->
   forall a w x1 w1 x2 w2 x3 w3,
     wait_clickable LINK_TEXT target w = (Raise x1, w1) ->
     wait_clickable PARTIAL_LINK_TEXT target w1 = (Raise x2, w2) ->
     wait_clickable XPATH (xpath_by_text target) w2 = (Raise x3, w3) ->
     exists w4,
       find_and_click_element target (a, w)
       = (Ok match find (fun e => labelled target (attributes e w3))
                     (page_elements w3) with
             | Some e => if is_clickable e w3 then Some e else None
             | None => None
             end, (a, w4))) /\
  (forall a w x1 w1 x2 w2 x3 w3 x4 w4,
     wait_clickable LINK_TEXT target w = (Raise x1, w1) ->
     wait_clickable PARTIAL_LINK_TEXT target w1 = (Raise x2, w2) ->
     wait_clickable XPATH (xpath_by_text target) w2 = (Raise x3, w3) ->
     wait_clickable XPATH (xpath_by_label target) w3 = (Raise x4, w4) ->
     find_and_click_element target (a, w) = (Ok None, (a, w4))) /\
  (follows_xpath -> no_dquote target = true ->
   Nat.odd (apostrophes target) = true ->
   forall a w x1 w1 x2 w2 x3 w3,
     wait_clickable LINK_TEXT target w = (Raise x1, w1) ->
     wait_clickable PARTIAL_LINK_TEXT target w1 = (Raise x2, w2) ->
     wait_clickable XPATH (xpath_by_text target) w2 = (Raise x3, w3) ->
     exists w4, find_and_click_element target (a, w) = (Ok None, (a, w4))).
Proof.
  assert (Three : forall a w x1 w1 x2 w2 x3 w3,
            wait_clickable LINK_TEXT target w = (Raise x1, w1) ->
            wait_clickable PARTIAL_LINK_TEXT target w1 = (Raise x2, w2) ->
            wait_clickable XPATH (xpath_by_text target) w2 = (Raise x3, w3) ->
            find_and_click_element target (a, w)
            = match wait_clickable XPATH (xpath_by_label target) w3 with
              | (Ok e, w4) => (Ok (Some e), (a, w4))
              | (Raise _, w4) => (Ok None, (a, w4))
              end).
  { intros a w x1 w1 x2 w2 x3 w3 H1 H2 H3.
    rewrite find_and_click_element_cascade. unfold strategies.
    rewrite cascade_cons. cbn [fst snd]. rewrite H1.
    rewrite cascade_cons. cbn [fst snd]. rewrite H2.
    rewrite cascade_cons. cbn [fst snd]. rewrite H3.
    rewrite cascade_cons. cbn [fst snd].
    now destruct (wait_clickable XPATH (xpath_by_label target) w3) as [[e|x] w4]. }
  split; [apply find_and_click_element_cascade|].
  split; [apply find_and_click_element_returns|].
  split; [reflexivity|].
  split; [apply cascade_cons|].
  split; [apply parse_by_text|].
  split; [apply parse_by_label|].
  split; [|split; [|split; [|]]].
  - intros F H a w x1 w1 x2 w2 e H1 H2 Hf Hc.
    pose proof (probe_by_text target w2 F H) as P.
    rewrite Hf, Hc in P. destruct P as [w3 P]. exists w3.
    rewrite find_and_click_element_cascade. unfold strategies.
    rewrite cascade_cons. cbn [fst snd]. rewrite H1.
    rewrite cascade_cons. cbn [fst snd]. rewrite H2.
    rewrite cascade_cons. cbn [fst snd]. now rewrite P.
  - intros F H a w x1 w1 x2 w2 x3 w3 H1 H2 H3.
    rewrite (Three a _ _ _ _ _ _ _ H1 H2 H3).
    pose proof (probe_by_label target w3 F H) as P.
    destruct (find _ (page_elements w3)) as [e|].
    + destruct (is_clickable e w3).
      * destruct P as [w4 P]. exists w4. now rewrite P.
      * destruct P as [x [w4 P]]. exists w4. now rewrite P.
    + destruct P as [x [w4 P]]. exists w4. now rewrite P.
  - intros a w x1 w1 x2 w2 x3 w3 x4 w4 H1 H2 H3 H4.
    rewrite (Three a _ _ _ _ _ _ _ H1 H2 H3). now rewrite H4.
  - intros F Hd Ho a w x1 w1 x2 w2 x3 w3 H1 H2 H3.
    rewrite (Three a _ _ _ _ _ _ _ H1 H2 H3).
    destruct (F (xpath_by_label target) w3) as [G _].
    destruct (G (@label_query_open target Hd Ho)) as [x [w4 P]].
    exists w4. now rewrite P.
Qed.

End Locator.

(** The page of the examples has a driver that follows the language. *)
Lemma dom_world_follows : @follows_xpath dom_world dom_page.
Proof.
  intros query w. split.
  - intros H. cbn. rewrite H. now eexists _, _.
  - intros tests Hq Hp. unfold first_holding. cbn. rewrite Hq, Hp.
    unfold dom_find.
    destruct (find _ w) as [e|]; [|now eexists _, _].
    destruct (dom_shown e); [now eexists | now eexists _, _].
Qed.

(** On a page with a paragraph and a button whose [aria-label] is
    "Sign up", the locator finds the button for the target "Sign up"; on
    the same page with "Don't" in place of "Sign up" it finds nothing for
    the target "Don't". *)
Lemma locator_cascade_witness :
  (exists w4,
     @find_and_click_element dom_world (s2l "Sign up")
       (fresh, [paragraph (s2l "Welcome"); button_labelled (s2l "Sign up")])
     = (Ok (Some (button_labelled (s2l "Sign up"))), (fresh, w4))) /\
  labelled (s2l "Don't") (dom_attrs (button_labelled (s2l "Don't"))) = true /\
  (exists w4,
     @find_and_click_element dom_world (s2l "Don't")
       (fresh, [paragraph (s2l "Welcome"); button_labelled (s2l "Don't")])
     = (Ok None, (fresh, w4))).
Proof.
  split; [|split; [reflexivity|]].
  - destruct (@locator_cascade dom_world dom_page (s2l "Sign up"))
      as [_ [_ [_ [_ [_ [_ [_ [H _]]]]]]]].
    exact (H dom_world_follows eq_refl fresh
             [paragraph (s2l "Welcome"); button_labelled (s2l "Sign up")]
             timeout _ timeout _ timeout _ eq_refl eq_refl eq_refl).
  - destruct (@locator_cascade dom_world dom_page (s2l "Don't"))
      as [_ [_ [_ [_ [_ [_ [_ [_ [_ H]]]]]]]]].
    exact (H dom_world_follows eq_refl eq_refl fresh
             [paragraph (s2l "Welcome"); button_labelled (s2l "Don't")]
             timeout _ timeout _ invalid_selector _ eq_refl eq_refl eq_refl).
Defined.
